(** * qadence_trial: collocation sampling and physics loss for the 2D Laplace
      equation, and the fixed-budget training loop

    Shallow embedding of [src/qadence_trial.py]: the seeding, the sampler
    and the training loop (lines 22-107), the feature maps of the circuit
    (lines 78-87) and the data of the comparison plot (lines 109-117).  The
    quantum circuit itself and the drawing of the plot (lines 119-128) are
    calls into libraries and are left out.

    Conventions of the embedding.
    - Tensor elements are real numbers: arithmetic is exact; the rounding of
      the machine floats, their infinities and the [nan] that arithmetic on
      them can produce are not modelled.  The one non-number the script can
      produce without rounding, the mean of an empty tensor, is kept as
      [NaN].  The properties say which formula a method computes; none of
      them says that a machine result is exact or is a number.  Module
      [Machine] has the reduction [.pow(2).mean()] in machine arithmetic,
      for the places where the difference matters.
    - A tensor object records whether its dtype is a floating-point one:
      only such a tensor can be made to require gradients.
    - The torch primitives the script calls ([rand], column assignment and
      column reads, [sin], [pow], [mean], broadcasting subtraction,
      [autograd.grad], [manual_seed], the optimizer calls) are modelled in
      module [Torch] and at the head of the script; the script itself is
      module [QadenceTrial].
    - A tensor that is differentiated carries its computation graph: an
      expression over the elements of the leaf it was computed from, built
      from constants, sums, differences, products, negation, [sin], [cos] and
      [exp].  [autograd.grad] is reverse-mode accumulation over that graph;
      section [Autograd] proves that it computes derivatives.
    - Tensors created by [rand] are objects of a store, addressed by their
      index, so that an assignment to an attribute or a column is seen by
      every holder of the object.
    - Python exceptions are the [Raise] results of a state-and-error monad;
      the state persists up to the point where the exception is raised.
    - The model ([net]), the random generator and the optimizer are external
      collaborators: they are section variables.  The forward pass of the
      model is a function of its parameters and its input.
    - The training loop records the calls an observer would see in a trace
      ([log]); the trace is not read by the script.
    - Plain Python on integers and lists (lines 86-87) and the tensor
      expressions of the plot return [Done] or [Failed]; they touch no state.
      qadence's [feature_map] and [kron] are external collaborators that
      return a block or raise. *)

From Stdlib Require Import Reals Lra Lia List ZArith Bool Arith.
From Stdlib Require String.
From Stdlib Require Floats.SpecFloat.
Import ListNotations.

Local Open Scope R_scope.

(* ================================================================== *)
(** ** The torch primitives used by the script                          *)
(* ================================================================== *)

Module Torch.

(** Messages of the [RuntimeError]s the modelled primitives can raise. *)
Inductive torch_error : Type :=
| NegativeDimension   (* rand: "Trying to create tensor with negative dimension" *)
| SizeMismatch        (* broadcasting: "The size of tensor a must match ..." *)
| NoGradRequired      (* grad: "One of the differentiated Tensors does not require grad" *)
| UnusedInGraph       (* grad: the outputs carry no graph, or one the input is not in *)
| NotFloatingPoint.   (* requires_grad: "only Tensors of floating point and complex dtype
                         can require gradients" *)

Inductive exn : Type :=
| IndexError
| RuntimeError (m : torch_error).

Inductive result (A : Type) : Type :=
| Ok (a : A)
| Raise (e : exn).
Arguments Ok {A} a.
Arguments Raise {A} e.

(** A zero-dimensional tensor as returned by [.mean()]. *)
Inductive scalar : Type :=
| Real (r : R)
| NaN.

Definition scalar_add (a b : scalar) : scalar :=
  match a, b with
  | Real x, Real y => Real (x + y)
  | _, _ => NaN
  end.

(** *** Computation graphs

    A tensor that takes part in differentiation carries, per element, the
    expression that produced it from the elements of the leaf tensor it was
    computed from.  [Leaf i j] is element [(i, j)] of that leaf. *)
Inductive expr : Type :=
| Const (c : R)
| Leaf (i j : nat)
| Add (a b : expr)
| Sub (a b : expr)
| Mul (a b : expr)
| Neg (a : expr)
| Sin (a : expr)
| Cos (a : expr)
| Exp (a : expr).

Definition entry (rows : list (list R)) (i j : nat) : R :=
  nth j (nth i rows []) 0.

Fixpoint eval (env : list (list R)) (e : expr) : R :=
  match e with
  | Const c => c
  | Leaf i j => entry env i j
  | Add a b => eval env a + eval env b
  | Sub a b => eval env a - eval env b
  | Mul a b => eval env a * eval env b
  | Neg a => - eval env a
  | Sin a => sin (eval env a)
  | Cos a => cos (eval env a)
  | Exp a => exp (eval env a)
  end.

(** Does the graph of [e] reach the leaf tensor at all? *)
Fixpoint has_leaf (e : expr) : bool :=
  match e with
  | Const _ => false
  | Leaf _ _ => true
  | Add a b | Sub a b | Mul a b => has_leaf a || has_leaf b
  | Neg a | Sin a | Cos a | Exp a => has_leaf a
  end.

(** Accumulation of two gradient contributions; [None] is "no path". *)
Definition accum (a b : option expr) : option expr :=
  match a, b with
  | None, x => x
  | x, None => x
  | Some x, Some y => Some (Add x y)
  end.

(** Reverse-mode differentiation: [backprop g e i j] pushes the incoming
    gradient [g] from the node [e] down to the leaf element [(i, j)], with
    the local rules of torch's backward functions.  The result is itself a
    graph ([create_graph=True]). *)
Fixpoint backprop (g : expr) (e : expr) (i j : nat) : option expr :=
  match e with
  | Const _ => None
  | Leaf i' j' => if (i =? i')%nat && (j =? j')%nat then Some g else None
  | Add a b => accum (backprop g a i j) (backprop g b i j)
  | Sub a b => accum (backprop g a i j) (backprop (Neg g) b i j)
  | Mul a b => accum (backprop (Mul g b) a i j) (backprop (Mul g a) b i j)
  | Neg a => backprop (Neg g) a i j
  | Sin a => backprop (Mul g (Cos a)) a i j
  | Cos a => backprop (Mul g (Neg (Sin a))) a i j
  | Exp a => backprop (Mul g (Exp a)) a i j
  end.

(** *** Tensors *)

(** A leaf tensor of rank two: an object of the store with its data, its
    [requires_grad] attribute and whether its dtype is a floating-point one
    ([is_floating_point()]).  The elements of a tensor of an integer dtype
    are the integers among the reals; tensors of a complex dtype, which can
    require gradients too, have no place among tensors of reals. *)
Record tensor : Type := mkTensorOf {
  ncols : nat;
  rows : list (list R);
  requires_grad : bool;
  is_floating_point : bool
}.

(** A tensor of the default dtype, as [rand(size=(n, d))] creates it. *)
Abbreviation mkTensor nc rs rg := (mkTensorOf nc rs rg true).

(** A tensor value flowing through the model: its shape, its elements in
    row-major order, and [troot], the store address of the leaf tensor its
    graph was recorded from ([None] when nothing was recorded). *)
Record ttensor : Type := mkTT {
  troot : option nat;
  tshape : list nat;
  telems : list expr
}.

Definition tvalues (env : list (list R)) (t : ttensor) : list R :=
  map (eval env) (telems t).

(** Elements of a leaf as seen by an operation applied to it: graph leaves
    when the tensor requires grad, plain constants otherwise. *)
Definition view_row (rg : bool) (i : nat) (r : list R) : list expr :=
  if rg then map (fun j => Leaf i j) (seq 0 (length r)) else map Const r.

Fixpoint view_rows (rg : bool) (i : nat) (rs : list (list R)) : list expr :=
  match rs with
  | [] => []
  | r :: rs' => view_row rg i r ++ view_rows rg (S i) rs'
  end.

Definition view (addr : nat) (t : tensor) : ttensor :=
  {| troot := if requires_grad t then Some addr else None;
     tshape := [length (rows t); ncols t];
     telems := view_rows (requires_grad t) 0 (rows t) |}.

(** *** Elementwise operations and reductions on values *)

Definition pow2 (l : list R) : list R := map (fun x => x * x) l.

Definition sum (l : list R) : R := fold_right Rplus 0 l.

(** [.mean()] over all elements; the mean of no element is [nan]. *)
Definition mean (l : list R) : scalar :=
  match l with
  | [] => NaN
  | _ :: _ => Real (sum l / INR (length l))
  end.

(** [sample[:, j] = v]: overwrite column [j] of every row. *)
Fixpoint set_nth (j : nat) (v : R) (r : list R) : list R :=
  match r, j with
  | [], _ => []
  | _ :: r', O => v :: r'
  | x :: r', S j' => x :: set_nth j' v r'
  end.

Definition set_col (j : nat) (v : R) (t : tensor) : result tensor :=
  if (j <? ncols t)%nat
  then Ok {| ncols := ncols t;
             rows := map (set_nth j v) (rows t);
             requires_grad := requires_grad t;
             is_floating_point := is_floating_point t |}
  else Raise IndexError.

(** [sample[:, j]] read as a one-dimensional tensor. *)
Definition get_col (j : nat) (nc : nat) (rs : list (list R)) : result (list R) :=
  if (j <? nc)%nat then Ok (map (fun r => nth j r 0) rs) else Raise IndexError.

(** Broadcasting subtraction [a - v] of a tensor [a] of shape [sh] and a
    one-dimensional tensor [v]: the last dimension of [a] (1 for a
    zero-dimensional [a]) is matched against the length of [v]. *)
Definition last_dim (sh : list nat) : nat := last sh 1%nat.

Fixpoint chunks {A : Type} (fuel q : nat) (l : list A) : list (list A) :=
  match fuel with
  | O => []
  | S fuel' =>
      match l with
      | [] => []
      | _ :: _ => firstn q l :: chunks fuel' q (skipn q l)
      end
  end.

Fixpoint zip_sub (a v : list R) : list R :=
  match a, v with
  | x :: a', y :: v' => (x - y) :: zip_sub a' v'
  | _, _ => []
  end.

Definition sub_row (q n : nat) (a v : list R) : list R :=
  if (q =? n)%nat then zip_sub a v
  else if (q =? 1)%nat then map (fun y => hd 0 a - y) v
  else map (fun x => x - hd 0 v) a.

Definition sub_bcast (sh : list nat) (a v : list R) : result (list R) :=
  let q := last_dim sh in
  let n := length v in
  if (q =? n)%nat || (q =? 1)%nat || (n =? 1)%nat
  then Ok (flat_map (fun c => sub_row q n c v) (chunks (length a) q a))
  else Raise (RuntimeError SizeMismatch).

(** *** [torch.autograd.grad]

    [grad_elem outs gos i j] is the entry [(i, j)] of the vector-Jacobian
    product: the contributions of every output element, each seeded with its
    entry of [grad_outputs], accumulated. *)
Fixpoint grad_elem (outs gos : list expr) (i j : nat) : option expr :=
  match outs, gos with
  | o :: outs', g :: gos' => accum (backprop g o i j) (grad_elem outs' gos' i j)
  | _, _ => None
  end.

Definition ones_like (t : ttensor) : list expr :=
  map (fun _ => Const 1) (telems t).

Definition or_zero (o : option expr) : expr :=
  match o with Some e => e | None => Const 0 end.

Definition grad_row (outs gos : list expr) (nc i : nat) : list expr :=
  map (fun j => or_zero (grad_elem outs gos i j)) (seq 0 nc).

Definition grad_elems (inp : tensor) (outs gos : list expr) : list expr :=
  flat_map (grad_row outs gos (ncols inp)) (seq 0 (length (rows inp))).

(** [grad(inputs=inputs, outputs=outputs, grad_outputs=gos, create_graph=True,
    retain_graph=True)[0]], where [inputs] is the leaf at store address
    [addr].  The outputs are examined first: it fails when they carry no
    graph ("element 0 of tensors does not require grad and does not have a
    grad_fn"); then when the leaf does not require grad; then when the graph
    of the outputs was not recorded from this leaf or does not reach it
    ("One of the differentiated Tensors appears to not have been used in the
    graph").  The first and the last failure are both filed as
    [UnusedInGraph].  Whether the graph reaches the leaf is read off the
    elements of the outputs, so an output without elements counts as not
    reaching it.  The result has the shape of the leaf.  Nothing is written
    to the leaf. *)
Definition grad (addr : nat) (inp : tensor) (outputs : ttensor) (gos : list expr)
  : result ttensor :=
  match troot outputs with
  | None => Raise (RuntimeError UnusedInGraph)
  | Some a =>
      if negb (requires_grad inp) then Raise (RuntimeError NoGradRequired)
      else if (a =? addr)%nat && existsb has_leaf (telems outputs)
      then Ok {| troot := Some addr;
                 tshape := [length (rows inp); ncols inp];
                 telems := grad_elems inp (telems outputs) gos |}
      else Raise (RuntimeError UnusedInGraph)
  end.

End Torch.

(* ================================================================== *)
(** ** The script                                                       *)
(* ================================================================== *)

Module QadenceTrial.
Import Torch.

(** The five loss terms of [DomainSampling]. *)
Inductive sampler : Type := Left | Right | Top | Bottom | Interior.

(** A loss as the methods return it: the value of the zero-dimensional
    tensor and, for [backward], which sampled batches (store addresses) its
    graph was recorded from. *)
Record loss_tensor : Type := mkLoss {
  item : scalar;
  saved : list (sampler * nat)
}.

Definition loss_add (a b : loss_tensor) : loss_tensor :=
  {| item := scalar_add (item a) (item b); saved := saved a ++ saved b |}.

(** What an observer of a run sees of the training driver. *)
Inductive event : Type :=
| EvZeroGrad
| EvLoss (k : sampler) (v : scalar)
| EvBackward (v : scalar)
| EvStep.

Section Script.

(** The process-wide random generator: its state, one uniform draw, and the
    state [manual_seed] installs. *)
Variable G : Type.
Variable draw : G -> R * G.
Variable seed_state : Z -> G.

(** The model's trainable parameters, their accumulated gradients and the
    optimizer's own state, with the three calls of the training driver. *)
Variable P : Type.
Variable Gr : Type.
Variable Opt : Type.
Variable zero_grad : Gr -> Gr.
Variable backward : P -> list tensor -> loss_tensor -> Gr -> Gr.
Variable step : P -> Gr -> Opt -> P * Opt.

(** A model maps the shape and the elements of an input batch to the shape
    and the elements of its output, under the current parameters. *)
Definition module_t : Type := P -> list nat -> list expr -> list nat * list expr.

(** [DomainSampling.__init__] stores its three arguments
    (defaults: [n_inputs = 4], [n_colpoints = 20]). *)
Record DomainSampling : Type := mkDomainSampling {
  net : module_t;
  n_colpoints : Z;
  n_inputs : Z
}.

Definition DomainSampling_init (net : module_t) (n_inputs n_colpoints : option Z)
  : DomainSampling :=
  {| net := net;
     n_colpoints := match n_colpoints with Some n => n | None => 20%Z end;
     n_inputs := match n_inputs with Some d => d | None => 4%Z end |}.

(** The state a run threads: generator, object store, the sampler object,
    the model's parameters and gradients, the optimizer, and the trace. *)
Record world : Type := mkWorld {
  gen : G;
  store : list tensor;
  self : DomainSampling;
  params : P;
  pgrads : Gr;
  optim : Opt;
  log : list event
}.

Definition M (A : Type) : Type := world -> result A * world.

Definition ret {A} (a : A) : M A := fun w => (Ok a, w).

Definition bind {A B} (m : M A) (k : A -> M B) : M B :=
  fun w =>
    match m w with
    | (Ok a, w') => k a w'
    | (Raise e, w') => (Raise e, w')
    end.

Definition lift {A} (r : result A) : M A := fun w => (r, w).

Notation "x <- m ;; k" := (bind m (fun x => k))
  (at level 61, m at next level, right associativity).
Notation "m ;;; k" := (bind m (fun _ => k))
  (at level 61, right associativity).

Definition set_gen (g : G) (w : world) : world :=
  {| gen := g; store := store w; self := self w; params := params w;
     pgrads := pgrads w; optim := optim w; log := log w |}.

Definition set_store (s : list tensor) (w : world) : world :=
  {| gen := gen w; store := s; self := self w; params := params w;
     pgrads := pgrads w; optim := optim w; log := log w |}.

Definition set_pgrads (g : Gr) (w : world) : world :=
  {| gen := gen w; store := store w; self := self w; params := params w;
     pgrads := g; optim := optim w; log := log w |}.

Definition set_optim (p : P) (o : Opt) (w : world) : world :=
  {| gen := gen w; store := store w; self := self w; params := p;
     pgrads := pgrads w; optim := o; log := log w |}.

Definition emit (e : event) : M unit :=
  fun w => (Ok tt,
            {| gen := gen w; store := store w; self := self w; params := params w;
               pgrads := pgrads w; optim := optim w; log := log w ++ [e] |}).

(** *** Primitives that touch the state *)

(** [manual_seed(s)] *)
Definition manual_seed (s : Z) : M unit :=
  fun w => (Ok tt, set_gen (seed_state s) w).

Fixpoint draw_row (d : nat) (g : G) : list R * G :=
  match d with
  | O => ([], g)
  | S d' =>
      let (x, g1) := draw g in
      let (r, g2) := draw_row d' g1 in
      (x :: r, g2)
  end.

Fixpoint draw_rows (n d : nat) (g : G) : list (list R) * G :=
  match n with
  | O => ([], g)
  | S n' =>
      let (r, g1) := draw_row d g in
      let (rs, g2) := draw_rows n' d g1 in
      (r :: rs, g2)
  end.

(** [rand(size=(n, d), requires_grad=rg)]: a new tensor object filled, in
    row-major order, with draws of the generator; returns its address. *)
Definition rand (n d : Z) (rg : bool) : M nat :=
  fun w =>
    if ((n <? 0) || (d <? 0))%Z then (Raise (RuntimeError NegativeDimension), w)
    else
      let (rs, g') := draw_rows (Z.to_nat n) (Z.to_nat d) (gen w) in
      (Ok (length (store w)),
       set_store (store w ++ [mkTensor (Z.to_nat d) rs rg]) (set_gen g' w)).

Definition empty_tensor : tensor := mkTensor 0 [] false.

(** Dereference of a tensor object. *)
Definition load (addr : nat) : M tensor :=
  fun w => (Ok (nth addr (store w) empty_tensor), w).

Fixpoint update {A} (i : nat) (x : A) (l : list A) : list A :=
  match l, i with
  | [], _ => []
  | _ :: l', O => x :: l'
  | y :: l', S i' => y :: update i' x l'
  end.

Definition write (addr : nat) (t : tensor) : M unit :=
  fun w => (Ok tt, set_store (update addr t (store w)) w).

(** [t[:, j] = v] on the object at [addr] *)
Definition assign_col (addr j : nat) (v : R) : M unit :=
  t <- load addr ;;
  t' <- lift (set_col j v t) ;;
  write addr t'.

(** [t.requires_grad = True] on the object at [addr]: refused, with the
    object left as it is, for a tensor whose dtype is not a floating-point
    one. *)
Definition set_requires_grad (addr : nat) : M unit :=
  t <- load addr ;;
  if is_floating_point t
  then write addr {| ncols := ncols t; rows := rows t; requires_grad := true;
                     is_floating_point := is_floating_point t |}
  else lift (Raise (RuntimeError NotFloatingPoint)).

(** [self.net(sample)]: the model applied to the tensor at [addr]; the
    result's graph is rooted where the input's is. *)
Definition forward (m : module_t) (theta : P) (x : ttensor) : ttensor :=
  let (sh, es) := m theta (tshape x) (telems x) in
  {| troot := troot x; tshape := sh; telems := es |}.

Definition call_net (addr : nat) : M ttensor :=
  fun w =>
    (Ok (forward (net (self w)) (params w) (view addr (nth addr (store w) empty_tensor))),
     w).

(** [t[:, j]] on a computed tensor of shape [sh] with the values [vals]. *)
Definition tcol (sh : list nat) (vals : list R) (j : nat) : result (list R) :=
  match sh with
  | [n; d] =>
      if (j <? d)%nat
      then Ok (map (fun i => nth (i * d + j) vals 0) (seq 0 n))
      else Raise IndexError
  | _ => Raise IndexError
  end.

Fixpoint zip_add (a b : list R) : list R :=
  match a, b with
  | x :: a', y :: b' => (x + y) :: zip_add a' b'
  | _, _ => []
  end.

(** *** [calc_derivative] (lines 28-41) *)
Definition calc_derivative (outputs : ttensor) (inputs : nat) : M ttensor :=
  x <- load inputs ;;
  (if negb (requires_grad x) then set_requires_grad inputs else ret tt) ;;;
  x' <- load inputs ;;
  lift (grad inputs x' outputs (ones_like outputs)).

(** *** [DomainSampling] (lines 45-75) *)

Definition get_self : M DomainSampling := fun w => (Ok (self w), w).

Definition left_boundary : M loss_tensor :=
  s <- get_self ;;
  sample <- rand (n_colpoints s) (n_inputs s) false ;;
  assign_col sample 0 0 ;;;
  out <- call_net sample ;;
  x <- load sample ;;
  ret {| item := mean (pow2 (tvalues (rows x) out)); saved := [(Left, sample)] |}.

Definition right_boundary : M loss_tensor :=
  s <- get_self ;;
  sample <- rand (n_colpoints s) (n_inputs s) false ;;
  assign_col sample 0 1 ;;;
  out <- call_net sample ;;
  x <- load sample ;;
  ret {| item := mean (pow2 (tvalues (rows x) out)); saved := [(Right, sample)] |}.

Definition top_boundary : M loss_tensor :=
  s <- get_self ;;
  sample <- rand (n_colpoints s) (n_inputs s) false ;;
  assign_col sample 1 1 ;;;
  out <- call_net sample ;;
  x <- load sample ;;
  ret {| item := mean (pow2 (tvalues (rows x) out)); saved := [(Top, sample)] |}.

Definition bottom_boundary : M loss_tensor :=
  s <- get_self ;;
  sample <- rand (n_colpoints s) (n_inputs s) false ;;
  assign_col sample 1 0 ;;;
  out <- call_net sample ;;
  x <- load sample ;;
  xs <- lift (get_col 0 (ncols x) (rows x)) ;;
  diff <- lift (sub_bcast (tshape out) (tvalues (rows x) out)
                          (map (fun v => sin (PI * v)) xs)) ;;
  ret {| item := mean (pow2 diff); saved := [(Bottom, sample)] |}.

Definition interior : M loss_tensor :=
  s <- get_self ;;
  sample <- rand (n_colpoints s) (n_inputs s) true ;;
  out <- call_net sample ;;
  first_both <- calc_derivative out sample ;;
  second_both <- calc_derivative first_both sample ;;
  x <- load sample ;;
  c0 <- lift (tcol (tshape second_both) (tvalues (rows x) second_both) 0) ;;
  c1 <- lift (tcol (tshape second_both) (tvalues (rows x) second_both) 1) ;;
  ret {| item := mean (pow2 (zip_add c0 c1)); saved := [(Interior, sample)] |}.

(** Dispatch on the name of a method. *)
Definition method (k : sampler) : M loss_tensor :=
  match k with
  | Left => left_boundary
  | Right => right_boundary
  | Top => top_boundary
  | Bottom => bottom_boundary
  | Interior => interior
  end.

(** *** The training driver (lines 97-107) *)

(** [opt.zero_grad()] *)
Definition opt_zero_grad : M unit :=
  fun w => emit EvZeroGrad (set_pgrads (zero_grad (pgrads w)) w).

(** [loss.backward()]: gradients of the loss with respect to the parameters
    are accumulated; the graph of the loss refers to the sampled batches. *)
Definition loss_backward (l : loss_tensor) : M unit :=
  fun w =>
    emit (EvBackward (item l))
      (set_pgrads
         (backward (params w)
                   (map (fun a => nth (snd a) (store w) empty_tensor) (saved l))
                   l (pgrads w)) w).

(** [opt.step()] *)
Definition opt_step : M unit :=
  fun w => let (p, o) := step (params w) (pgrads w) (optim w) in
           emit EvStep (set_optim p o w).

(** A method call followed by the record of what it returned. *)
Definition observed (k : sampler) (m : M loss_tensor) : M loss_tensor :=
  l <- m ;; emit (EvLoss k (item l)) ;;; ret l.

(** The body of the [for]: lines 104-107. *)
Definition epoch : M unit :=
  opt_zero_grad ;;;
  l1 <- observed Left left_boundary ;;
  l2 <- observed Right right_boundary ;;
  l3 <- observed Top top_boundary ;;
  l4 <- observed Bottom bottom_boundary ;;
  l5 <- observed Interior interior ;;
  let loss := loss_add (loss_add (loss_add (loss_add l1 l2) l3) l4) l5 in
  loss_backward loss ;;;
  opt_step.

(** [for _ in range(k): body] *)
Fixpoint for_range (k : nat) (body : M unit) : M unit :=
  match k with
  | O => ret tt
  | S k' => body ;;; for_range k' body
  end.

Definition training : M unit := for_range 1000 epoch.

(** Line 99: [sol = DomainSampling(net=model, n_inputs=2, n_colpoints=100)] *)
Definition sol (model : module_t) : DomainSampling :=
  DomainSampling_init model (Some 2%Z) (Some 100%Z).

(** The state in which the script starts, for a model, its parameters and
    the optimizer built on them (lines 84-99). *)
Definition initial (g : G) (model : module_t) (theta : P) (gr : Gr) (o : Opt) : world :=
  {| gen := g; store := []; self := sol model; params := theta;
     pgrads := gr; optim := o; log := [] |}.

(** The script from the seeding (line 23) to the end of the loop (line 107);
    the data of the plot that follows is module [Plot]. *)
Definition script : M unit := manual_seed 42 ;;; training.

End Script.

Arguments net {P} d.
Arguments n_colpoints {P} d.
Arguments n_inputs {P} d.
Arguments gen {G P Gr Opt} w.
Arguments store {G P Gr Opt} w.
Arguments self {G P Gr Opt} w.
Arguments params {G P Gr Opt} w.
Arguments pgrads {G P Gr Opt} w.
Arguments optim {G P Gr Opt} w.
Arguments log {G P Gr Opt} w.
Arguments set_gen {G P Gr Opt} g w.
Arguments set_store {G P Gr Opt} s w.
Arguments set_pgrads {G P Gr Opt} g w.
Arguments set_optim {G P Gr Opt} p o w.
Arguments ret {G P Gr Opt A} a.
Arguments bind {G P Gr Opt A B} m k.
Arguments lift {G P Gr Opt A} r.
Arguments emit {G P Gr Opt} e.
Arguments load {G P Gr Opt} addr.
Arguments write {G P Gr Opt} addr t.
Arguments assign_col {G P Gr Opt} addr j v.
Arguments set_requires_grad {G P Gr Opt} addr.
Arguments call_net {G P Gr Opt} addr.
Arguments get_self {G P Gr Opt}.
Arguments forward {P} m theta x.
Arguments observed {G P Gr Opt} k m.
Arguments for_range {G P Gr Opt} k body.
Arguments DomainSampling_init {P} net n_inputs n_colpoints.
Arguments manual_seed {G} seed_state {P Gr Opt} s.
Arguments draw_row {G} draw d g.
Arguments draw_rows {G} draw n d g.
Arguments rand {G} draw {P Gr Opt} n d rg.
Arguments calc_derivative {G P Gr Opt} outputs inputs.
Arguments left_boundary {G} draw {P Gr Opt}.
Arguments right_boundary {G} draw {P Gr Opt}.
Arguments top_boundary {G} draw {P Gr Opt}.
Arguments bottom_boundary {G} draw {P Gr Opt}.
Arguments interior {G} draw {P Gr Opt}.
Arguments method {G} draw {P Gr Opt} k.
Arguments opt_zero_grad {G P Gr Opt} zero_grad.
Arguments loss_backward {G P Gr Opt} backward l.
Arguments opt_step {G P Gr Opt} step.
Arguments epoch {G} draw {P Gr Opt} zero_grad backward step.
Arguments training {G} draw {P Gr Opt} zero_grad backward step.
Arguments sol {P} model.
Arguments initial {G P Gr Opt} g model theta gr o.
Arguments script {G} draw seed_state {P Gr Opt} zero_grad backward step.

End QadenceTrial.

(* ================================================================== *)
(** ** Notions used to state the properties                             *)
(* ================================================================== *)

Module Meaning.
Import Torch QadenceTrial.

(** *** What each method computes from the rows that [rand] drew

    Pure functions of the sampler's fields, the parameters and the drawn
    rows; [method_run] below shows that the methods compute exactly these. *)

Section Values.

Variable P : Type.

(** Output elements of the model on the batch [b]. *)
Definition net_out (s : DomainSampling P) (theta : P) (b : tensor) : list nat * list expr :=
  net s theta [length (rows b); ncols b] (view_rows (requires_grad b) 0 (rows b)).

Definition net_values (s : DomainSampling P) (theta : P) (b : tensor) : list R :=
  map (eval (rows b)) (snd (net_out s theta b)).

(** Mean squared model output. *)
Definition homogeneous_value (s : DomainSampling P) (theta : P) (b : tensor) : scalar :=
  mean (pow2 (net_values s theta b)).

(** Mean squared difference to sin(pi x), with broadcasting. *)
Definition bottom_value (s : DomainSampling P) (theta : P) (b : tensor) : result scalar :=
  match sub_bcast (fst (net_out s theta b)) (net_values s theta b)
                  (map (fun v => sin (PI * v)) (map (fun r => nth 0 r 0) (rows b))) with
  | Ok diff => Ok (mean (pow2 diff))
  | Raise e => Raise e
  end.

(** One [calc_derivative] on the elements of a tensor recorded from [b]. *)
Definition derivative (b : tensor) (es : list expr) : result (list expr) :=
  if existsb has_leaf es
  then Ok (grad_elems b es (map (fun _ => Const 1) es))
  else Raise (RuntimeError UnusedInGraph).

Definition residual_value (b : tensor) (second_both : list expr) : result scalar :=
  let sh := [length (rows b); ncols b] in
  let vals := map (eval (rows b)) second_both in
  match tcol sh vals 0 with
  | Raise e => Raise e
  | Ok c0 =>
      match tcol sh vals 1 with
      | Raise e => Raise e
      | Ok c1 => Ok (mean (pow2 (zip_add c0 c1)))
      end
  end.

Definition interior_value (s : DomainSampling P) (theta : P) (b : tensor) : result scalar :=
  match derivative b (snd (net_out s theta b)) with
  | Raise e => Raise e
  | Ok first_both =>
      match derivative b first_both with
      | Raise e => Raise e
      | Ok second_both => residual_value b second_both
      end
  end.

(** The residual as the comment of [interior] states it, u_xx + u_yy: for
    the output [e] of row [i], the second derivative along column 0 of the
    first derivative along column 0, plus the same along column 1. *)
Definition second_pure (e : expr) (i j : nat) : expr :=
  or_zero (backprop (Const 1) (or_zero (backprop (Const 1) e i j)) i j).

Definition laplace_residual (b : tensor) (outs : list expr) : list R :=
  map (fun i => eval (rows b) (second_pure (nth i outs (Const 0)) i 0)
                + eval (rows b) (second_pure (nth i outs (Const 0)) i 1))
      (seq 0 (length (rows b))).

Definition interior_stated (s : DomainSampling P) (theta : P) (b : tensor) : scalar :=
  mean (pow2 (laplace_residual b (snd (net_out s theta b)))).

(** The bottom term as the comment of [bottom_boundary] states it,
    u(x, 0) = sin(pi x): the difference is taken point by point. *)
Definition bottom_stated (s : DomainSampling P) (theta : P) (b : tensor) : scalar :=
  mean (pow2 (zip_sub (net_values s theta b)
                      (map (fun v => sin (PI * v)) (map (fun r => nth 0 r 0) (rows b))))).

(** The pinned column and value of a boundary term. *)
Definition pin (k : sampler) : option (nat * R) :=
  match k with
  | Left => Some (0%nat, 0)
  | Right => Some (0%nat, 1)
  | Top => Some (1%nat, 1)
  | Bottom => Some (1%nat, 0)
  | Interior => None
  end.

(** For the rows [rs] drawn at width [d]: the value (or exception) the
    method [k] ends with, and the batch object it leaves in the store. *)
Definition outcome (k : sampler) (s : DomainSampling P) (theta : P)
                   (d : nat) (rs : list (list R)) : result scalar * tensor :=
  match pin k with
  | Some (j, v) =>
      if (j <? d)%nat then
        let b := mkTensor d (map (set_nth j v) rs) false in
        (match k with
         | Bottom => bottom_value s theta b
         | _ => Ok (homogeneous_value s theta b)
         end, b)
      else (Raise IndexError, mkTensor d rs false)
  | None =>
      let b := mkTensor d rs true in (interior_value s theta b, b)
  end.

(** The model returns the constant [c] for every point of every batch. *)
Definition constant_model (c : R) (s : DomainSampling P) : Prop :=
  forall theta b, net_values s theta b = repeat c (length (rows b)).

(** The model returns one scalar per point: its output on a batch of [n]
    rows has [n] elements and the shape [(n,)] or [(n, 1)]. *)
Definition per_point_model (s : DomainSampling P) : Prop :=
  forall theta b,
    length (snd (net_out s theta b)) = length (rows b) /\
    (fst (net_out s theta b) = [length (rows b)] \/
     fst (net_out s theta b) = [length (rows b); 1%nat]).

(** The value a call ended with, without the addresses of its graph. *)
Definition value_of (r : result loss_tensor) : result scalar :=
  match r with
  | Ok l => Ok (item l)
  | Raise e => Raise e
  end.

(** The events of one complete iteration whose five methods returned the
    values [a], [b], [c], [d], [e], in the order they happen. *)
Definition epoch_events (v : scalar * scalar * scalar * scalar * scalar) : list event :=
  let '(a, b, c, d, e) := v in
  [EvZeroGrad;
   EvLoss Left a; EvLoss Right b; EvLoss Top c; EvLoss Bottom d; EvLoss Interior e;
   EvBackward (scalar_add (scalar_add (scalar_add (scalar_add a b) c) d) e);
   EvStep].

Definition tagged (k : sampler) (addr : nat) (r : result scalar) : result loss_tensor :=
  match r with
  | Ok v => Ok {| item := v; saved := [(k, addr)] |}
  | Raise e => Raise e
  end.

(** A tensor with its [requires_grad] attribute set. *)
Definition flagged (t : tensor) : tensor :=
  {| ncols := ncols t; rows := rows t; requires_grad := true;
     is_floating_point := is_floating_point t |}.

(** The leaf data [env] with the element [(i, j)] replaced by [t], and the
    value of a graph as a function of that element. *)
Definition set_entry (env : list (list R)) (i j : nat) (t : R) : list (list R) :=
  update i (set_nth j t (nth i env [])) env.

Definition along (env : list (list R)) (i j : nat) (e : expr) (t : R) : R :=
  eval (set_entry env i j t) e.

End Values.

Arguments net_out {P} s theta b.
Arguments net_values {P} s theta b.
Arguments homogeneous_value {P} s theta b.
Arguments bottom_value {P} s theta b.
Arguments interior_value {P} s theta b.
Arguments interior_stated {P} s theta b.
Arguments bottom_stated {P} s theta b.
Arguments outcome {P} k s theta d rs.
Arguments constant_model {P} c s.
Arguments per_point_model {P} s.

Section Notions.

Variable G : Type.
Variable draw : G -> R * G.
Variable seed_state : Z -> G.
Variable P : Type.
Variable Gr : Type.
Variable Opt : Type.
Variable zero_grad : Gr -> Gr.
Variable backward : P -> list tensor -> loss_tensor -> Gr -> Gr.

Let world : Type := world G P Gr Opt.

(** The rows [rand] draws in the world [w] for the configuration of the
    sampler, the generator state it leaves, and the width of a row. *)
Definition width (w : world) : nat := Z.to_nat (n_inputs (self w)).

Definition drawn (w : world) : list (list R) :=
  fst (draw_rows draw (Z.to_nat (n_colpoints (self w))) (width w) (gen w)).

Definition gen_after (w : world) : G :=
  snd (draw_rows draw (Z.to_nat (n_colpoints (self w))) (width w) (gen w)).

Definition bad_size (w : world) : bool :=
  ((n_colpoints (self w) <? 0) || (n_inputs (self w) <? 0))%Z.

(** The world after [rand] has stored the tensor [b]. *)
Definition allocated (b : tensor) (w : world) : world :=
  set_store (store w ++ [b]) (set_gen (gen_after w) w).

(** Every method, in closed form. *)
Definition method_result (k : sampler) (w : world) : result loss_tensor * world :=
  if bad_size w then (Raise (RuntimeError NegativeDimension), w)
  else
    (tagged k (length (store w))
            (fst (outcome k (self w) (params w) (width w) (drawn w))),
     allocated (snd (outcome k (self w) (params w) (width w) (drawn w))) w).

(** The batch object a method call leaves at the address it allocated. *)
Definition batch_of (k : sampler) (w : world) : tensor :=
  nth (length (store w)) (store (snd (method draw k w))) empty_tensor.

(** The call [m] returns, in the world [w], a loss of value [v]. *)
Definition returns (m : world -> result loss_tensor * world) (w : world) (v : scalar)
  : Prop :=
  exists l w', m w = (Ok l, w') /\ item l = v.

(** [manual_seed(s)] immediately followed by the method [k]. *)
Definition seeded (s : Z) (k : sampler) : world -> result loss_tensor * world :=
  bind (manual_seed seed_state s) (fun _ => method draw k).

(** Nothing but the generator and the fresh end of the store differs. *)
Definition sampled_only (w w' : world) : Prop :=
  params w' = params w /\ self w' = self w /\ pgrads w' = pgrads w /\
  optim w' = optim w /\ log w' = log w /\
  firstn (length (store w)) (store w') = store w.

(** The computation [m] writes neither the parameters, nor the sampler, nor
    the optimizer. *)
Definition keeps (A : Type) (m : world -> result A * world) : Prop :=
  forall w, params (snd (m w)) = params w /\ self (snd (m w)) = self w /\
            optim (snd (m w)) = optim w.

(** For the sampler [s], the computation [m] always returns, and leaves the
    sampler in place. *)
Definition succeeds (s : DomainSampling P) (A : Type) (m : world -> result A * world)
  : Prop :=
  forall w, self w = s -> exists a w', m w = (Ok a, w') /\ self w' = s.

(** The losses of one iteration and their backward pass: lines 104-106,
    that is, [epoch] without its last call. *)
Definition accumulate : world -> result unit * world :=
  bind (opt_zero_grad zero_grad) (fun _ =>
  bind (observed Left (left_boundary draw)) (fun l1 =>
  bind (observed Right (right_boundary draw)) (fun l2 =>
  bind (observed Top (top_boundary draw)) (fun l3 =>
  bind (observed Bottom (bottom_boundary draw)) (fun l4 =>
  bind (observed Interior (interior draw)) (fun l5 =>
  loss_backward backward
    (loss_add (loss_add (loss_add (loss_add l1 l2) l3) l4) l5))))))).

End Notions.

Arguments width {G P Gr Opt} w.
Arguments drawn {G} draw {P Gr Opt} w.
Arguments gen_after {G} draw {P Gr Opt} w.
Arguments bad_size {G P Gr Opt} w.
Arguments allocated {G} draw {P Gr Opt} b w.
Arguments method_result {G} draw {P Gr Opt} k w.
Arguments batch_of {G} draw {P Gr Opt} k w.
Arguments returns {G P Gr Opt} m w v.
Arguments seeded {G} draw seed_state {P Gr Opt} s k.
Arguments sampled_only {G P Gr Opt} w w'.
Arguments keeps {G P Gr Opt} A m.
Arguments succeeds {G P Gr Opt} s A m.
Arguments accumulate {G} draw {P Gr Opt} zero_grad backward.

End Meaning.

(* ================================================================== *)
(** ** Concrete collaborators used in examples                          *)
(* ================================================================== *)

Module Models.
Import Torch QadenceTrial.

(** A generator that replays a script of draws (0 once it is exhausted). *)
Definition scripted_draw (g : list R) : R * list R := (hd 0 g, tl g).

(** A generator whose [k]-th draw is [1 / (k + 2)]. *)
Definition harmonic_draw (k : nat) : R * nat := (/ (INR k + 2), S k).

(** Models without parameters that apply one expression to every row of the
    batch; the output has shape [(n,)] or [(n, 1)]. *)
Definition per_point (u : list expr -> expr) : module_t unit :=
  fun _ sh es => ([hd 0%nat sh], map u (chunks (length es) (nth 1 sh 0%nat) es)).

Definition per_point_column (u : list expr -> expr) : module_t unit :=
  fun _ sh es => ([hd 0%nat sh; 1%nat], map u (chunks (length es) (nth 1 sh 0%nat) es)).

(** A model that ignores its rows: [torch.full((n,), c)]. *)
Definition constant_net (c : R) : module_t unit :=
  fun _ sh _ => ([hd 0%nat sh], repeat (Const c) (hd 0%nat sh)).

Definition coord (k : nat) (r : list expr) : expr := nth k r (Const 0).

(** u(x, y) = exp(-pi x) sin(pi y), the analytic solution of lines 114-115 *)
Definition u_analytic (r : list expr) : expr :=
  Mul (Exp (Neg (Mul (Const PI) (coord 0 r)))) (Sin (Mul (Const PI) (coord 1 r))).

(** u(x, y) = sin(pi x), the prescribed bottom boundary value *)
Definition u_bottom (r : list expr) : expr := Sin (Mul (Const PI) (coord 0 r)).

(** u(x, y) = x y *)
Definition u_product (r : list expr) : expr := Mul (coord 0 r) (coord 1 r).

(** A world with an empty store, no parameters and a trivial optimizer. *)
Definition start {G : Type} (g : G) (m : module_t unit) (n_inputs n_colpoints : Z)
  : world G unit unit unit :=
  {| gen := g; store := [];
     self := DomainSampling_init m (Some n_inputs) (Some n_colpoints);
     params := tt; pgrads := tt; optim := tt; log := [] |}.

(** The same after an earlier call has left one batch in the store. *)
Definition resumed {G : Type} (g : G) (m : module_t unit) (n_inputs n_colpoints : Z)
  : world G unit unit unit :=
  {| gen := g; store := [mkTensor 2 [[0; 0]] false];
     self := DomainSampling_init m (Some n_inputs) (Some n_colpoints);
     params := tt; pgrads := tt; optim := tt; log := [EvZeroGrad] |}.

(** The output of the model u(x, y) = x y on that batch, computed while the
    batch did not require grad. *)
Definition unrecorded : ttensor :=
  forward (per_point u_product) tt (view 0 (mkTensor 2 [[0; 0]] false)).

(** The same world and the same output when the batch had the flag before
    the model ran. *)
Definition resumed_flagged {G : Type} (g : G) (m : module_t unit) (n_inputs n_colpoints : Z)
  : world G unit unit unit :=
  {| gen := g; store := [mkTensor 2 [[0; 0]] true];
     self := DomainSampling_init m (Some n_inputs) (Some n_colpoints);
     params := tt; pgrads := tt; optim := tt; log := [EvZeroGrad] |}.

Definition recorded_early : ttensor :=
  forward (per_point u_product) tt (view 0 (mkTensor 2 [[0; 0]] true)).

(** A world whose store holds one tensor of an integer dtype, as
    [torch.tensor([[0, 1]])] creates it, and the output of the model
    u(x, y) = x y on it. *)
Definition with_integers : world (list R) unit unit unit :=
  {| gen := []; store := [mkTensorOf 2 [[0; 1]] false false];
     self := DomainSampling_init (per_point u_product) (Some 2%Z) (Some 1%Z);
     params := tt; pgrads := tt; optim := tt; log := [EvZeroGrad] |}.

Definition on_integers : ttensor :=
  forward (per_point u_product) tt (view 0 (mkTensorOf 2 [[0; 1]] false false)).

(** [manual_seed] for the generator [harmonic_draw]. *)
Definition seed_index (s : Z) : nat := Z.to_nat s.

End Models.

(* ================================================================== *)
(** ** The reduction [.pow(2).mean()] in machine arithmetic             *)
(* ================================================================== *)

(** The numbers of an IEEE 754 binary format, of precision [prec] and
    maximal exponent [emax], with their correctly rounded operations, as the
    Standard Library specifies them: zeros and infinities with a sign,
    [nan], and the rounding of every result.  [sum] adds the elements in
    index order, and [mean] divides the sum by the number of elements. *)
Module Machine.

Definition float : Type := SpecFloat.spec_float.

Section Format.

Variables prec emax : Z.

Definition mul : float -> float -> float := SpecFloat.SFmul prec emax.
Definition add : float -> float -> float := SpecFloat.SFadd prec emax.
Definition div : float -> float -> float := SpecFloat.SFdiv prec emax.

Definition of_nat (n : nat) : float :=
  SpecFloat.binary_normalize prec emax (Z.of_nat n) 0 false.

Definition pow2 (l : list float) : list float := map (fun x => mul x x) l.

Definition sum (l : list float) : float := fold_left add l (SpecFloat.S754_zero false).

Definition mean (l : list float) : float := div (sum l) (of_nat (length l)).

End Format.

(** [nan], or a zero, a number or an infinity that is not negative. *)
Definition nan_or_nonnegative (x : float) : bool :=
  match x with
  | SpecFloat.S754_nan => true
  | SpecFloat.S754_zero s | SpecFloat.S754_infinity s | SpecFloat.S754_finite s _ _ => negb s
  end.

End Machine.

(** binary64, the format of [float64]. *)
Module Binary64.

Definition prec : Z := 53.
Definition emax : Z := 1024.

Definition mul : Machine.float -> Machine.float -> Machine.float := Machine.mul prec emax.

Definition pow2 : list Machine.float -> list Machine.float := Machine.pow2 prec emax.

Definition mean : list Machine.float -> Machine.float := Machine.mean prec emax.

(** The binary64 number nearest to one tenth, [0.1]. *)
Definition tenth : Machine.float := SpecFloat.S754_finite false 7205759403792794 (-56).

End Binary64.

(* ================================================================== *)
(** ** The feature maps of the circuit (lines 78-87)                    *)
(* ================================================================== *)

(** Plain Python on integers and lists.  Exceptions are [Failed] results;
    the three that the modelled operations of lines 86-87 and 111-117 raise
    are listed, and [Other] stands for whatever a library call raises. *)
Module Python.

Inductive py_exn : Type :=
| ZeroDivisionError   (* [//] or [%] by zero *)
| TooManyIndices      (* IndexError: too many indices for tensor of dimension 1 *)
| InvalidShape        (* RuntimeError: shape '[n, n]' is invalid for input of size k *)
| Other (name : String.string).   (* any other exception, by the name of its class *)

Inductive checked (A : Type) : Type :=
| Done (a : A)
| Failed (e : py_exn).
Arguments Done {A} a.
Arguments Failed {A} e.

(** [a // b] and [a % b] on non-negative integers *)
Definition floordiv (a b : nat) : checked nat :=
  if (b =? 0)%nat then Failed ZeroDivisionError else Done (a / b)%nat.

Definition modulo (a b : nat) : checked nat :=
  if (b =? 0)%nat then Failed ZeroDivisionError else Done (a mod b)%nat.

(** [list(range(n))[i : i + k]] *)
Definition slice (n i k : nat) : list nat := firstn k (skipn i (seq 0 n)).

End Python.

Module Setup.
Import Python.

(** The list comprehension of line 87,
    [[list(list(range(n))[i : i + split]) for i in range(n) if i % split == 0]],
    over the indices [idx] still to visit. *)
Fixpoint supports_from (n split : nat) (idx : list nat) : checked (list (list nat)) :=
  match idx with
  | [] => Done []
  | i :: idx' =>
      match modulo i split with
      | Failed e => Failed e
      | Done r =>
          match supports_from n split idx' with
          | Failed e => Failed e
          | Done l => Done (if (r =? 0)%nat then slice n i split :: l else l)
          end
      end
  end.

Definition supports (n split : nat) : checked (list (list nat)) :=
  supports_from n split (seq 0 n).

(** The keyword arguments of one call of [feature_map]. *)
Record feature_map_call (V : Type) : Type := mkCall {
  fm_n_qubits : nat;
  fm_support : list nat;
  fm_param : V
}.
Arguments mkCall {V}.
Arguments fm_n_qubits {V}.
Arguments fm_support {V}.
Arguments fm_param {V}.

(** Lines 86-87 up to the calls of the library: [split = N_QUBITS //
    len(VARIABLES)] and the keyword arguments of the calls of [feature_map],
    one per pair of [zip(VARIABLES, supports)].  The supports are all
    computed before the first call is made. *)
Definition feature_maps {V : Type} (n_qubits : nat) (variables : list V)
  : checked (list (feature_map_call V)) :=
  match floordiv n_qubits (length variables) with
  | Failed e => Failed e
  | Done split =>
      match supports n_qubits split with
      | Failed e => Failed e
      | Done sups =>
          Done (map (fun ps => mkCall split (snd ps) (fst ps)) (combine variables sups))
      end
  end.

Section Circuit.

Variables V B : Type.

(** qadence's [feature_map] and [kron]: each returns a block or raises. *)
Variable feature_map : feature_map_call V -> checked B.
Variable kron : list B -> checked B.

(** The outer comprehension of line 87: [feature_map] is called once per
    pair, in order, and the first call that raises ends it. *)
Fixpoint call_feature_maps (calls : list (feature_map_call V)) : checked (list B) :=
  match calls with
  | [] => Done []
  | c :: calls' =>
      match feature_map c with
      | Failed e => Failed e
      | Done b =>
          match call_feature_maps calls' with
          | Failed e => Failed e
          | Done bs => Done (b :: bs)
          end
      end
  end.

(** Lines 86-87 as a whole: [kron] applied to the unpacked list of the
    blocks that the calls of [feature_map] returned. *)
Definition kron_feature_maps (n_qubits : nat) (variables : list V) : checked B :=
  match feature_maps n_qubits variables with
  | Failed e => Failed e
  | Done calls =>
      match call_feature_maps calls with
      | Failed e => Failed e
      | Done bs => kron bs
      end
  end.

End Circuit.

Arguments call_feature_maps {V B} feature_map calls.
Arguments kron_feature_maps {V B} feature_map kron n_qubits variables.

Definition N_QUBITS : nat := 5.

Import String.

Definition VARIABLES : list string := ["x"%string; "y"%string].

Definition fm : checked (list (feature_map_call string)) :=
  feature_maps N_QUBITS VARIABLES.

End Setup.

(* ================================================================== *)
(** ** The comparison plot (lines 109-117)                              *)
(* ================================================================== *)

Module Plot.
Import Torch QadenceTrial Python.

Definition N_POINTS : nat := 150.

(** [linspace(start, stop, steps=n)] *)
Definition linspace (start stop : R) (steps : nat) : list R :=
  match steps with
  | 1%nat => [start]
  | _ => map (fun k => start + INR k * ((stop - start) / INR (steps - 1))) (seq 0 steps)
  end.

(** [itertools.product(xs, ys)]: the last factor varies fastest. *)
Definition product (xs ys : list R) : list (list R) :=
  flat_map (fun x => map (fun y => [x; y]) ys) xs.

Definition x_domain (n : nat) : list R := linspace 0 1 n.

Definition y_domain (n : nat) : list R := linspace 0 1 n.

(** [tensor(list(product(x_domain, y_domain)))]: the rows of a tensor of
    shape [(n * n, 2)]; of the empty list, a tensor of shape [(0,)]. *)
Definition domain (n : nat) : list (list R) := product (x_domain n) (y_domain n).

(** [domain[:, j]] *)
Definition column (j : nat) (pts : list (list R)) : checked (list R) :=
  match pts with
  | [] => Failed TooManyIndices
  | _ :: _ => Done (map (fun r => nth j r 0) pts)
  end.

Fixpoint zip_mul (a b : list R) : list R :=
  match a, b with
  | x :: a', y :: b' => (x * y) :: zip_mul a' b'
  | _, _ => []
  end.

(** [t.reshape(n, m)] of the elements [vals], as the list of its rows. *)
Definition reshape (n m : nat) (vals : list R) : checked (list (list R)) :=
  if (length vals =? n * m)%nat
  then Done (map (fun r => map (fun c => nth (r * m + c) vals 0) (seq 0 m)) (seq 0 n))
  else Failed InvalidShape.

(** [t.T] of a matrix with [m] columns. *)
Definition transpose (m : nat) (t : list (list R)) : list (list R) :=
  map (fun c => map (fun r => nth c r 0) t) (seq 0 m).

(** Lines 114-115 *)
Definition analytic_sol (n : nat) : checked (list (list R)) :=
  match column 0 (domain n) with
  | Failed e => Failed e
  | Done xs =>
      match column 1 (domain n) with
      | Failed e => Failed e
      | Done ys =>
          match reshape n n (zip_mul (map (fun x => exp (- PI * x)) xs)
                                     (map (fun y => sin (PI * y)) ys)) with
          | Failed e => Failed e
          | Done t => Done (transpose n t)
          end
      end
  end.

(** The grid as the model sees it: it carries no graph. *)
Definition as_input (pts : list (list R)) : ttensor :=
  {| troot := None;
     tshape := match pts with [] => [0%nat] | _ :: _ => [length pts; 2%nat] end;
     telems := view_rows false 0 pts |}.

(** Line 117; [detach] and [numpy] keep the values. *)
Definition dqc_sol {P : Type} (model : module_t P) (theta : P) (n : nat)
  : checked (list (list R)) :=
  reshape n n (tvalues (domain n) (forward model theta (as_input (domain n)))).

End Plot.

(* ================================================================== *)
(** ** Further notions used to state properties                         *)
(* ================================================================== *)

Module Analysis.
Import Torch QadenceTrial Meaning.

Section Draws.

Variable G : Type.
Variable draw : G -> R * G.

(** The generator state after [k] draws, and the value of the draw that
    follows them. *)
Fixpoint advance (k : nat) (g : G) : G :=
  match k with
  | O => g
  | S k' => advance k' (snd (draw g))
  end.

Definition stream (g : G) (k : nat) : R := fst (draw (advance k g)).

End Draws.

Arguments advance {G} draw k g.
Arguments stream {G} draw g k.

(** The number of draws that one method call consumes. *)
Definition batch_draws {G P Gr Opt : Type} (w : world G P Gr Opt) : nat :=
  (Z.to_nat (n_colpoints (self w)) * width w)%nat.

Section Steps.

Variables P Gr Opt : Type.
Variable step : P -> Gr -> Opt -> P * Opt.

(** The optimizer stepping once per gradient of the list, in order. *)
Definition run_steps (grs : list Gr) (start : P * Opt) : P * Opt :=
  fold_left (fun po gr => step (fst po) gr (snd po)) grs start.

End Steps.

Arguments run_steps {P Gr Opt} step grs start.

(** *** The iteration of the training loop, as a relation on states

    What one iteration and a run of the loop are to do, written down
    without the driver: [iteration] and [interrupted] are compared with
    [epoch], and their repetition with [training]. *)
Section Iterations.

Variable G : Type.
Variable draw : G -> R * G.
Variables P Gr Opt : Type.
Variable zero_grad : Gr -> Gr.
Variable backward : P -> list tensor -> loss_tensor -> Gr -> Gr.
Variable step : P -> Gr -> Opt -> P * Opt.

Let world : Type := world G P Gr Opt.

(** The state [w] with the trace [t]. *)
Definition with_log (t : list event) (w : world) : world :=
  {| gen := gen w; store := store w; self := self w; params := params w;
     pgrads := pgrads w; optim := optim w; log := t |}.

(** The five methods in the order of line 105. *)
Definition order : list sampler := [Left; Right; Top; Bottom; Interior].

(** The methods [ks] called one after the other, each in the state the one
    before it left, up to the first that raises. *)
Fixpoint calls (ks : list sampler) (w : world) : result (list loss_tensor) * world :=
  match ks with
  | [] => (Ok [], w)
  | k :: ks' =>
      match method draw k w with
      | (Ok l, w1) =>
          match calls ks' w1 with
          | (Ok ls, w2) => (Ok (l :: ls), w2)
          | (Raise e, w2) => (Raise e, w2)
          end
      | (Raise e, w1) => (Raise e, w1)
      end
  end.

Definition loss_events (ks : list sampler) (ls : list loss_tensor) : list event :=
  map (fun kl => EvLoss (fst kl) (item (snd kl))) (combine ks ls).

(** [w'] is [w] after one complete iteration: on the cleared gradients the
    five methods are called in order and return [l1] to [l5]; [backward]
    accumulates onto the cleared gradients the gradients of their sum, for
    the parameters the iteration started with and the batches the sum was
    recorded from; the optimizer steps once on these gradients.  Generator
    and store are as the five calls left them. *)
Definition iteration (w w' : world) : Prop :=
  exists l1 l2 l3 l4 l5 w5,
    calls order (set_pgrads (zero_grad (pgrads w)) w) = (Ok [l1; l2; l3; l4; l5], w5) /\
    let loss := loss_add (loss_add (loss_add (loss_add l1 l2) l3) l4) l5 in
    let g := backward (params w)
                      (map (fun a => nth (snd a) (store w5) empty_tensor) (saved loss))
                      loss (zero_grad (pgrads w)) in
    w' = {| gen := gen w5; store := store w5; self := self w;
            params := fst (step (params w) g (optim w));
            pgrads := g;
            optim := snd (step (params w) g (optim w));
            log := log w ++ epoch_events (item l1, item l2, item l3, item l4, item l5) |}.

(** [w'] is [w] after an iteration that the exception [e] ended: on the
    cleared gradients the first [j] methods returned, the next one raised
    [e], and nothing ran after it.  The gradients stay cleared; parameters
    and optimizer are not written. *)
Definition interrupted (w w' : world) (e : exn) : Prop :=
  exists (j : nat) (ls : list loss_tensor) (wj wf : world),
    (j < 5)%nat /\
    calls (firstn j order) (set_pgrads (zero_grad (pgrads w)) w) = (Ok ls, wj) /\
    method draw (nth j order Left) wj = (Raise e, wf) /\
    w' = with_log (log w ++ EvZeroGrad :: loss_events (firstn j order) ls) wf.

(** [m] iterations in a row lead from [w] to [w']. *)
Fixpoint iterations (m : nat) (w w' : world) : Prop :=
  match m with
  | O => w' = w
  | S m' => exists w1, iteration w w1 /\ iterations m' w1 w'
  end.

End Iterations.

Arguments with_log {G P Gr Opt} t w.
Arguments calls {G} draw {P Gr Opt} ks w.
Arguments iteration {G} draw {P Gr Opt} zero_grad backward step w w'.
Arguments interrupted {G} draw {P Gr Opt} zero_grad w w' e.
Arguments iterations {G} draw {P Gr Opt} zero_grad backward step m w w'.

(** Does the graph of [e] reach an element of row [i] of the leaf? *)
Fixpoint reaches (e : expr) (i : nat) : bool :=
  match e with
  | Const _ => false
  | Leaf i' _ => (i =? i')%nat
  | Add a b | Sub a b | Mul a b => reaches a i || reaches b i
  | Neg a | Sin a | Cos a | Exp a => reaches a i
  end.

(** The output for a point depends on that point only. *)
Definition row_local (outs : list expr) : Prop :=
  forall k i, i <> k -> reaches (nth k outs (Const 0)) i = false.

(** The derivative along column [j] of the derivative along column [l] of
    the output [e] of row [i]. *)
Definition second_mixed (e : expr) (i j l : nat) : expr :=
  or_zero (backprop (Const 1) (or_zero (backprop (Const 1) e i l)) i j).

(** The two mixed second derivatives, u_xy + u_yx, point by point. *)
Definition mixed_residual (b : tensor) (outs : list expr) : list R :=
  map (fun i => eval (rows b) (second_mixed (nth i outs (Const 0)) i 0 1)
                + eval (rows b) (second_mixed (nth i outs (Const 0)) i 1 0))
      (seq 0 (length (rows b))).

(** Graphs that are affine in the leaf: no product of two factors that both
    reach the leaf, and no [sin], [cos] or [exp] of one that does. *)
Fixpoint affine (e : expr) : bool :=
  match e with
  | Const _ | Leaf _ _ => true
  | Add a b | Sub a b => affine a && affine b
  | Mul a b => (negb (has_leaf a) && affine b) || (affine a && negb (has_leaf b))
  | Neg a => affine a
  | Sin a | Cos a | Exp a => negb (has_leaf a)
  end.

End Analysis.

Module Examples.
Import Torch QadenceTrial Models.

(** u(x, y) = exp(-pi y) sin(pi x): the reference with its arguments
    exchanged. *)
Definition u_swapped (r : list expr) : expr :=
  Mul (Exp (Neg (Mul (Const PI) (coord 1 r)))) (Sin (Mul (Const PI) (coord 0 r))).

(** u(x, y) = 2 x + 3 y *)
Definition u_linear (r : list expr) : expr :=
  Add (Mul (Const 2) (coord 0 r)) (Mul (Const 3) (coord 1 r)).

(** A model with two output features per point, all zero: shape [(n, 2)]. *)
Definition two_features : module_t unit :=
  fun _ sh _ => ([hd 0%nat sh; 2%nat], repeat (Const 0) (2 * hd 0%nat sh)).

(** A world whose store holds one batch, the point (3, 5), that requires
    grad, and the output of the model u(x, y) = x y recorded from it. *)
Definition tracked : world (list R) unit unit unit :=
  {| gen := []; store := [mkTensor 2 [[3; 5]] true];
     self := DomainSampling_init (per_point u_product) (Some 2%Z) (Some 1%Z);
     params := tt; pgrads := tt; optim := tt; log := [] |}.

Definition recorded : ttensor :=
  forward (per_point u_product) tt (view 0 (mkTensor 2 [[3; 5]] true)).

End Examples.

(* ================================================================== *)
(** ** Properties                                                       *)
(* ================================================================== *)

Import Torch QadenceTrial Meaning.

(** *** Lists and the object store *)

Lemma nth_fresh {A} (l : list A) (x d : A) : nth (length l) (l ++ [x]) d = x.
Proof. rewrite app_nth2 by lia. now rewrite Nat.sub_diag. Qed.

Lemma update_fresh {A} (l : list A) (x y : A) :
  update (length l) y (l ++ [x]) = l ++ [y].
Proof. induction l as [|a l IH]; simpl; [reflexivity | now rewrite IH]. Qed.

Lemma update_length {A} (i : nat) (x : A) (l : list A) :
  length (update i x l) = length l.
Proof.
  revert i; induction l as [|a l IH]; intros [|i]; simpl; auto.
Qed.

Lemma nth_update_same {A} (i : nat) (x d : A) (l : list A) :
  (i < length l)%nat -> nth i (update i x l) d = x.
Proof.
  revert i; induction l as [|a l IH]; intros [|i] H; simpl in *; try lia; auto.
  apply IH; lia.
Qed.

Lemma nth_update_other {A} (i k : nat) (x d : A) (l : list A) :
  k <> i -> nth k (update i x l) d = nth k l d.
Proof.
  revert i k; induction l as [|a l IH]; intros [|i] [|k] H; simpl; auto; try lia.
Qed.

Lemma sum_nonneg (l : list R) : Forall (fun x => 0 <= x) l -> 0 <= sum l.
Proof.
  induction 1 as [|x l Hx _ IH]; simpl; lra.
Qed.

Lemma pow2_nonneg (l : list R) : Forall (fun x => 0 <= x) (pow2 l).
Proof.
  unfold pow2. apply Forall_forall. intros y Hy.
  apply in_map_iff in Hy. destruct Hy as [x [<- _]]. nra.
Qed.

Lemma mean_nonneg (l : list R) (r : R) :
  Forall (fun x => 0 <= x) l -> mean l = Real r -> 0 <= r.
Proof.
  intros Hl. pose proof (sum_nonneg l Hl) as Hs.
  destruct l as [|x l]; [discriminate|].
  unfold mean. intros H. injection H as <-.
  apply Rmult_le_pos; [exact Hs|].
  left. apply Rinv_0_lt_compat.
  change (0 < INR (S (length l))). apply lt_0_INR. lia.
Qed.

Lemma mean_pow2_nonneg (l : list R) (r : R) : mean (pow2 l) = Real r -> 0 <= r.
Proof. apply mean_nonneg, pow2_nonneg. Qed.

Lemma sum_repeat (x : R) (n : nat) : sum (repeat x n) = INR n * x.
Proof.
  induction n as [|n IH]; [simpl; lra|].
  rewrite S_INR. simpl repeat. simpl sum. rewrite IH. lra.
Qed.

Lemma mean_repeat (x : R) (n : nat) : (0 < n)%nat -> mean (repeat x n) = Real x.
Proof.
  intros Hn. destruct n as [|n]; [lia|].
  change (repeat x (S n)) with (x :: repeat x n). unfold mean.
  change (x :: repeat x n) with (repeat x (S n)).
  rewrite sum_repeat, repeat_length. f_equal. field.
  apply not_0_INR. lia.
Qed.

(** *** The graph model of [autograd.grad] computes derivatives *)

Lemma set_nth_length (j : nat) (v : R) (r : list R) :
  length (set_nth j v r) = length r.
Proof.
  revert j; induction r as [|x r IH]; intros [|j]; simpl; auto.
Qed.

Lemma set_nth_same (j : nat) (v : R) (r : list R) :
  (j < length r)%nat -> nth j (set_nth j v r) 0 = v.
Proof.
  revert j; induction r as [|x r IH]; intros [|j] H; simpl in *; try lia; auto.
  apply IH; lia.
Qed.

Lemma set_nth_other (i j : nat) (v : R) (r : list R) :
  i <> j -> nth i (set_nth j v r) 0 = nth i r 0.
Proof.
  revert i j; induction r as [|x r IH]; intros [|i] [|j] H; simpl; auto; try lia.
Qed.

Lemma set_nth_id (j : nat) (r : list R) : set_nth j (nth j r 0) r = r.
Proof.
  revert j; induction r as [|x r IH]; intros [|j]; simpl; auto. now rewrite IH.
Qed.

Lemma update_id {A} (i : nat) (l : list A) (d : A) : update i (nth i l d) l = l.
Proof.
  revert i; induction l as [|x l IH]; intros [|i]; simpl; auto. now rewrite IH.
Qed.

Lemma set_entry_id (env : list (list R)) (i j : nat) :
  set_entry env i j (entry env i j) = env.
Proof.
  unfold set_entry, entry. rewrite set_nth_id. apply update_id.
Qed.

Lemma entry_set_same (env : list (list R)) (i j : nat) (t : R) :
  (i < length env)%nat -> (j < length (nth i env []))%nat ->
  entry (set_entry env i j t) i j = t.
Proof.
  intros Hi Hj. unfold entry, set_entry.
  rewrite nth_update_same by assumption. now apply set_nth_same.
Qed.

Lemma entry_set_other (env : list (list R)) (i j i' j' : nat) (t : R) :
  (i < length env)%nat ->
  (i =? i')%nat && (j =? j')%nat = false ->
  entry (set_entry env i j t) i' j' = entry env i' j'.
Proof.
  intros Hlt H. unfold entry, set_entry.
  destruct (Nat.eq_dec i' i) as [->|Hi].
  - rewrite Nat.eqb_refl in H. cbn [andb] in H. apply Nat.eqb_neq in H.
    rewrite nth_update_same by assumption. apply set_nth_other. congruence.
  - now rewrite nth_update_other.
Qed.

Lemma eval_accum (env : list (list R)) (a b : option expr) :
  eval env (or_zero (accum a b)) = eval env (or_zero a) + eval env (or_zero b).
Proof.
  destruct a, b; cbn; lra.
Qed.

Section Autograd.

Variable env : list (list R).
Variables i j : nat.
Hypothesis row_in_range : (i < length env)%nat.
Hypothesis column_in_range : (j < length (nth i env []))%nat.

Lemma along_here (e : expr) : along env i j e (entry env i j) = eval env e.
Proof. unfold along. now rewrite set_entry_id. Qed.

(** Pushing the gradient [g] through [e] multiplies it by the derivative of
    [e] with respect to the leaf element. *)
Lemma backprop_derivative (e : expr) :
  forall g, exists D,
    derivable_pt_lim (along env i j e) (entry env i j) D /\
    eval env (or_zero (backprop g e i j)) = eval env g * D.
Proof.
  induction e as [c | i' j' | a IHa b IHb | a IHa b IHb | a IHa b IHb
                  | a IHa | a IHa | a IHa | a IHa]; intros g.
  - exists 0. split; [apply derivable_pt_lim_const | cbn; ring].
  - cbn [backprop]. destruct ((i =? i')%nat && (j =? j')%nat) eqn:Hij.
    + exists 1. split; [|cbn; ring].
      apply andb_true_iff in Hij. destruct Hij as [Hi Hj].
      apply Nat.eqb_eq in Hi, Hj. subst i' j'.
      apply (derivable_pt_lim_ext id); [|apply derivable_pt_lim_id].
      intros t. unfold along, id. cbn [eval]. symmetry. now apply entry_set_same.
    + exists 0. split; [|cbn; ring].
      apply (derivable_pt_lim_ext (fct_cte (entry env i' j')));
        [|apply derivable_pt_lim_const].
      intros t. unfold along, fct_cte. cbn [eval]. symmetry.
      now apply entry_set_other.
  - destruct (IHa g) as [Da [Ha Ea]]. destruct (IHb g) as [Db [Hb Eb]].
    exists (Da + Db). split.
    + exact (derivable_pt_lim_plus _ _ _ _ _ Ha Hb).
    + cbn [backprop]. rewrite eval_accum, Ea, Eb. ring.
  - destruct (IHa g) as [Da [Ha Ea]]. destruct (IHb (Neg g)) as [Db [Hb Eb]].
    exists (Da - Db). split.
    + exact (derivable_pt_lim_minus _ _ _ _ _ Ha Hb).
    + cbn [backprop]. rewrite eval_accum, Ea, Eb. cbn [eval]. ring.
  - destruct (IHa (Mul g b)) as [Da [Ha Ea]]. destruct (IHb (Mul g a)) as [Db [Hb Eb]].
    exists (Da * eval env b + eval env a * Db). split.
    + rewrite <- (along_here a), <- (along_here b).
      exact (derivable_pt_lim_mult _ _ _ _ _ Ha Hb).
    + cbn [backprop]. rewrite eval_accum, Ea, Eb. cbn [eval]. ring.
  - destruct (IHa (Neg g)) as [Da [Ha Ea]].
    exists (- Da). split.
    + exact (derivable_pt_lim_opp _ _ _ Ha).
    + cbn [backprop]. rewrite Ea. cbn [eval]. ring.
  - destruct (IHa (Mul g (Cos a))) as [Da [Ha Ea]].
    exists (cos (eval env a) * Da). split.
    + rewrite <- (along_here a).
      exact (derivable_pt_lim_comp _ _ _ _ _ Ha (derivable_pt_lim_sin _)).
    + cbn [backprop]. rewrite Ea. cbn [eval]. ring.
  - destruct (IHa (Mul g (Neg (Sin a)))) as [Da [Ha Ea]].
    exists (- sin (eval env a) * Da). split.
    + rewrite <- (along_here a).
      exact (derivable_pt_lim_comp _ _ _ _ _ Ha (derivable_pt_lim_cos _)).
    + cbn [backprop]. rewrite Ea. cbn [eval]. ring.
  - destruct (IHa (Mul g (Exp a))) as [Da [Ha Ea]].
    exists (exp (eval env a) * Da). split.
    + rewrite <- (along_here a).
      exact (derivable_pt_lim_comp _ _ _ _ _ Ha (derivable_pt_lim_exp _)).
    + cbn [backprop]. rewrite Ea. cbn [eval]. ring.
Qed.

(** With [grad_outputs] all ones, an entry of the result of [grad] is the
    derivative, with respect to that entry of the leaf, of the sum of all
    output elements. *)
Lemma grad_elem_derivative (outs : list expr) :
  derivable_pt_lim (fun t => sum (map (fun e => along env i j e t) outs))
    (entry env i j)
    (eval env (or_zero (grad_elem outs (map (fun _ => Const 1) outs) i j))).
Proof.
  induction outs as [|o outs IH].
  - cbn. apply (derivable_pt_lim_const 0).
  - cbn [map grad_elem sum fold_right]. rewrite eval_accum.
    destruct (backprop_derivative o (Const 1)) as [D [HD ED]].
    rewrite ED. cbn [eval]. rewrite Rmult_1_l.
    exact (derivable_pt_lim_plus _ _ _ _ _ HD IH).
Qed.

End Autograd.

(** *** The mean of squares in machine arithmetic *)

Section MachineArithmetic.

Variables prec emax : Z.

Lemma round_aux_sign (m e : Z) (l : SpecFloat.location) :
  Machine.nan_or_nonnegative (SpecFloat.binary_round_aux prec emax false m e l) = true.
Proof.
  unfold SpecFloat.binary_round_aux.
  destruct (SpecFloat.shr_fexp prec emax m e l) as [mrs' e'].
  destruct (SpecFloat.shr_fexp prec emax _ e' SpecFloat.loc_Exact) as [mrs'' e''].
  destruct (SpecFloat.shr_m mrs''); [reflexivity | | reflexivity].
  destruct (_ <=? _)%Z; reflexivity.
Qed.

Lemma round_sign (m : positive) (e : Z) :
  Machine.nan_or_nonnegative (SpecFloat.binary_round prec emax false m e) = true.
Proof.
  unfold SpecFloat.binary_round.
  destruct (SpecFloat.shl_align m e _) as [mz ez]. apply round_aux_sign.
Qed.

(** A square is [nan] or not negative, whatever is squared. *)
Lemma mul_self_sign (x : Machine.float) :
  Machine.nan_or_nonnegative (Machine.mul prec emax x x) = true.
Proof.
  destruct x as [s | s | | s m e]; cbn [Machine.mul SpecFloat.SFmul Machine.nan_or_nonnegative].
  - now destruct s.
  - now destruct s.
  - reflexivity.
  - replace (xorb s s) with false by (now destruct s). apply round_aux_sign.
Qed.

Lemma add_sign (x y : Machine.float) :
  Machine.nan_or_nonnegative x = true -> Machine.nan_or_nonnegative y = true ->
  Machine.nan_or_nonnegative (Machine.add prec emax x y) = true.
Proof.
  destruct x as [[|] | [|] | | [|] mx ex]; try discriminate;
    destruct y as [[|] | [|] | | [|] my ey]; try discriminate; intros _ _; try reflexivity.
  cbn [Machine.add SpecFloat.SFadd SpecFloat.cond_Zopp Z.add SpecFloat.binary_normalize].
  apply round_sign.
Qed.

Lemma sum_sign (l : list Machine.float) (a : Machine.float) :
  Machine.nan_or_nonnegative a = true ->
  Forall (fun x => Machine.nan_or_nonnegative x = true) l ->
  Machine.nan_or_nonnegative (fold_left (Machine.add prec emax) l a) = true.
Proof.
  intros Ha Hl. revert a Ha. induction Hl as [|x l Hx _ IH]; intros a Ha; [exact Ha|].
  cbn [fold_left]. apply IH. now apply add_sign.
Qed.

Lemma of_nat_sign (n : nat) :
  Machine.nan_or_nonnegative (Machine.of_nat prec emax n) = true.
Proof.
  unfold Machine.of_nat, SpecFloat.binary_normalize.
  destruct (Z.of_nat n) eqn:E; [reflexivity | apply round_sign | lia].
Qed.

Lemma div_sign (x y : Machine.float) :
  Machine.nan_or_nonnegative x = true -> Machine.nan_or_nonnegative y = true ->
  Machine.nan_or_nonnegative (Machine.div prec emax x y) = true.
Proof.
  destruct x as [[|] | [|] | | [|] mx ex]; try discriminate;
    destruct y as [[|] | [|] | | [|] my ey]; try discriminate; intros _ _; try reflexivity.
  cbn [Machine.div SpecFloat.SFdiv xorb].
  destruct (SpecFloat.SFdiv_core_binary _ _ _ _ _ _) as [[mz ez] lz].
  apply round_aux_sign.
Qed.

(** In every binary format and for every tensor of floats, infinities and
    [nan] included, [.pow(2).mean()] is [nan] or not negative. *)
Lemma mean_of_squares_sign (l : list Machine.float) :
  Machine.nan_or_nonnegative (Machine.mean prec emax (Machine.pow2 prec emax l)) = true.
Proof.
  unfold Machine.mean, Machine.sum. apply div_sign; [|apply of_nat_sign].
  apply sum_sign; [reflexivity|].
  unfold Machine.pow2. apply Forall_forall. intros y Hy.
  apply in_map_iff in Hy. destruct Hy as [x [<- _]]. apply mul_self_sign.
Qed.

End MachineArithmetic.

Section Proofs.

Variable G : Type.
Variable draw : G -> R * G.
Variable seed_state : Z -> G.
Variable P : Type.
Variable Gr : Type.
Variable Opt : Type.
Variable zero_grad : Gr -> Gr.
Variable backward : P -> list tensor -> loss_tensor -> Gr -> Gr.
Variable step : P -> Gr -> Opt -> P * Opt.

Local Abbreviation world := (QadenceTrial.world G P Gr Opt).
Local Abbreviation left_boundary := (@QadenceTrial.left_boundary G draw P Gr Opt).
Local Abbreviation right_boundary := (@QadenceTrial.right_boundary G draw P Gr Opt).
Local Abbreviation top_boundary := (@QadenceTrial.top_boundary G draw P Gr Opt).
Local Abbreviation bottom_boundary := (@QadenceTrial.bottom_boundary G draw P Gr Opt).
Local Abbreviation interior := (@QadenceTrial.interior G draw P Gr Opt).
Local Abbreviation method := (@QadenceTrial.method G draw P Gr Opt).
Local Abbreviation calc_derivative := (@QadenceTrial.calc_derivative G P Gr Opt).
Local Abbreviation epoch := (@QadenceTrial.epoch G draw P Gr Opt zero_grad backward step).
Local Abbreviation training := (@QadenceTrial.training G draw P Gr Opt zero_grad backward step).
Local Abbreviation opt_zero_grad := (@QadenceTrial.opt_zero_grad G P Gr Opt zero_grad).
Local Abbreviation loss_backward := (@QadenceTrial.loss_backward G P Gr Opt backward).
Local Abbreviation opt_step := (@QadenceTrial.opt_step G P Gr Opt step).
Local Abbreviation draw_rows := (@QadenceTrial.draw_rows G draw).
Local Abbreviation draw_row := (@QadenceTrial.draw_row G draw).
Local Abbreviation drawn := (@Meaning.drawn G draw P Gr Opt).
Local Abbreviation keeps := (@Meaning.keeps G P Gr Opt).
Local Abbreviation succeeds := (@Meaning.succeeds G P Gr Opt).
Local Abbreviation returns := (@Meaning.returns G P Gr Opt).
Local Abbreviation sampled_only := (@Meaning.sampled_only G P Gr Opt).
Local Abbreviation gen_after := (@Meaning.gen_after G draw P Gr Opt).
Local Abbreviation allocated := (@Meaning.allocated G draw P Gr Opt).
Local Abbreviation method_result := (@Meaning.method_result G draw P Gr Opt).
Local Abbreviation batch_of := (@Meaning.batch_of G draw P Gr Opt).
Local Abbreviation seeded := (@Meaning.seeded G draw seed_state P Gr Opt).
Local Abbreviation accumulate := (@Meaning.accumulate G draw P Gr Opt zero_grad backward).

Ltac run_method :=
  intros w;
  unfold Meaning.method_result, bad_size, Meaning.allocated, Meaning.drawn, Meaning.gen_after, width, outcome, pin,
    homogeneous_value, bottom_value, interior_value, residual_value, derivative,
    net_values, net_out;
  cbv [QadenceTrial.method QadenceTrial.left_boundary QadenceTrial.right_boundary
       QadenceTrial.top_boundary QadenceTrial.bottom_boundary QadenceTrial.interior
       QadenceTrial.calc_derivative set_requires_grad
       bind get_self QadenceTrial.rand
       assign_col load lift write call_net ret set_col get_col grad forward view];
  destruct (((n_colpoints (self w) <? 0) || (n_inputs (self w) <? 0))%Z);
  [reflexivity|];
  destruct (QadenceTrial.draw_rows draw (Z.to_nat (n_colpoints (self w)))
              (Z.to_nat (n_inputs (self w))) (gen w)) as [rs g'];
  cbn [fst snd store set_store set_gen gen self params ncols rows requires_grad];
  rewrite !nth_fresh; cbn [ncols rows requires_grad negb].

Lemma left_boundary_run : forall w, left_boundary w = method_result Left w.
Proof.
  run_method.
  destruct (0 <? Z.to_nat (n_inputs (self w)))%nat;
  cbn [fst snd store set_store set_gen gen self params ncols rows requires_grad];
  rewrite ?update_fresh, ?nth_fresh; cbn [ncols rows requires_grad tagged].
  2: reflexivity.
  destruct (net (self w) (params w) _ _) as [sh es]. reflexivity.
Qed.

Lemma right_boundary_run : forall w, right_boundary w = method_result Right w.
Proof.
  run_method.
  destruct (0 <? Z.to_nat (n_inputs (self w)))%nat;
  cbn [fst snd store set_store set_gen gen self params ncols rows requires_grad];
  rewrite ?update_fresh, ?nth_fresh; cbn [ncols rows requires_grad tagged].
  2: reflexivity.
  destruct (net (self w) (params w) _ _) as [sh es]. reflexivity.
Qed.

Lemma top_boundary_run : forall w, top_boundary w = method_result Top w.
Proof.
  run_method.
  destruct (1 <? Z.to_nat (n_inputs (self w)))%nat;
  cbn [fst snd store set_store set_gen gen self params ncols rows requires_grad];
  rewrite ?update_fresh, ?nth_fresh; cbn [ncols rows requires_grad tagged].
  2: reflexivity.
  destruct (net (self w) (params w) _ _) as [sh es]. reflexivity.
Qed.

Lemma bottom_boundary_run : forall w, bottom_boundary w = method_result Bottom w.
Proof.
  run_method.
  destruct (1 <? Z.to_nat (n_inputs (self w)))%nat eqn:Hd;
  cbn [fst snd store set_store set_gen gen self params ncols rows requires_grad];
  rewrite ?update_fresh, ?nth_fresh; cbn [ncols rows requires_grad tagged].
  2: reflexivity.
  assert (H0 : (0 <? Z.to_nat (n_inputs (self w)))%nat = true).
  { apply Nat.ltb_lt. apply Nat.ltb_lt in Hd. lia. }
  rewrite H0.
  destruct (net (self w) (params w) _ _) as [sh es].
  cbn [fst snd tshape telems tvalues].
  unfold tvalues; cbn [telems].
  destruct (sub_bcast sh _ _); reflexivity.
Qed.

Lemma interior_run : forall w, interior w = method_result Interior w.
Proof.
  run_method.
  destruct (net (self w) (params w) _ _) as [sh es].
  unfold ones_like, tvalues.
  repeat (cbn [fst snd store set_store set_gen gen self params ncols rows
                 requires_grad negb troot telems tshape andb];
          rewrite ?nth_fresh, ?Nat.eqb_refl).
  destruct (existsb has_leaf es); [|reflexivity].
  repeat (cbn [fst snd store set_store set_gen gen self params ncols rows
                 requires_grad negb troot telems tshape andb];
          rewrite ?nth_fresh, ?Nat.eqb_refl).
  destruct (existsb has_leaf (grad_elems _ es _)); [|reflexivity].
  repeat (cbn [fst snd store set_store set_gen gen self params ncols rows
                 requires_grad negb troot telems tshape andb];
          rewrite ?nth_fresh, ?Nat.eqb_refl).
  destruct (tcol _ _ 0); [|reflexivity].
  cbn [fst snd store set_store set_gen gen self params].
  destruct (tcol _ _ 1); reflexivity.
Qed.

(** Every method draws one batch, stores it, and ends with the value or
    exception that [outcome] computes from the drawn rows. *)
Lemma method_run (k : sampler) (w : world) : method k w = method_result k w.
Proof.
  destruct k.
  - apply left_boundary_run.
  - apply right_boundary_run.
  - apply top_boundary_run.
  - apply bottom_boundary_run.
  - apply interior_run.
Qed.

Lemma batch_of_run (k : sampler) (w : world) :
  bad_size w = false ->
  batch_of k w = snd (outcome k (self w) (params w) (width w) (drawn w)).
Proof.
  intros Hs. unfold batch_of. rewrite method_run. unfold method_result.
  rewrite Hs. cbn [snd allocated set_store store]. unfold allocated.
  cbn [store set_store]. apply nth_fresh.
Qed.

Lemma draw_row_length (d : nat) (g : G) : length (fst (draw_row d g)) = d.
Proof.
  revert g; induction d as [|d IH]; intros g; simpl; [reflexivity|].
  destruct (draw g) as [x g1]. specialize (IH g1).
  destruct (QadenceTrial.draw_row draw d g1) as [r g2]. simpl in *. now rewrite IH.
Qed.

Lemma draw_rows_length (n d : nat) (g : G) : length (fst (draw_rows n d g)) = n.
Proof.
  revert g; induction n as [|n IH]; intros g; simpl; [reflexivity|].
  destruct (QadenceTrial.draw_row draw d g) as [r g1]. specialize (IH g1).
  destruct (QadenceTrial.draw_rows draw n d g1) as [rs g2]. simpl in *. now rewrite IH.
Qed.

Lemma draw_rows_width (n d : nat) (g : G) :
  Forall (fun r => length r = d) (fst (draw_rows n d g)).
Proof.
  revert g; induction n as [|n IH]; intros g; simpl; [constructor|].
  pose proof (draw_row_length d g) as Hr.
  destruct (QadenceTrial.draw_row draw d g) as [r g1]. specialize (IH g1).
  destruct (QadenceTrial.draw_rows draw n d g1) as [rs g2]. simpl in *.
  constructor; assumption.
Qed.

Lemma drawn_length (w : world) : length (drawn w) = Z.to_nat (n_colpoints (self w)).
Proof. unfold drawn. apply draw_rows_length. Qed.

Lemma pow2_repeat (c : R) (n : nat) : pow2 (repeat c n) = repeat (c * c) n.
Proof. induction n as [|n IH]; simpl; [reflexivity | now rewrite IH]. Qed.

Lemma homogeneous_constant (c : R) (k : sampler) (j : nat) (v : R) (w : world) :
  constant_model c (self w) ->
  (0 <= n_colpoints (self w))%Z ->
  (0 <= n_inputs (self w))%Z ->
  pin k = Some (j, v) -> k <> Bottom ->
  (j < width w)%nat ->
  returns (method k) w (mean (pow2 (repeat c (Z.to_nat (n_colpoints (self w)))))).
Proof.
  intros Hc Hn Hd Hpin Hk Hj.
  unfold returns. rewrite method_run. unfold method_result.
  assert (Hs : bad_size w = false).
  { unfold bad_size. apply orb_false_iff. split; apply Z.ltb_ge; lia. }
  rewrite Hs. unfold outcome. rewrite Hpin.
  apply Nat.ltb_lt in Hj. rewrite Hj. cbn [fst snd].
  eexists. eexists. split.
  - destruct k; try discriminate; try congruence; cbn [tagged]; reflexivity.
  - cbn [item]. unfold homogeneous_value. rewrite Hc. cbn [rows].
    now rewrite length_map, drawn_length.
Qed.

(** C4 (amended). For a model that returns the constant [c] at every point
    and a sampler with enough input columns for the pinned one,
    [left_boundary], [right_boundary] and [top_boundary] return the mean of
    the squares of [n_colpoints] copies of [c]: a value that is computed
    from [c] and [n_colpoints] alone, the same in every state [g] of the
    generator, that is, whatever batch is drawn.  It is [nan] when
    [n_colpoints] is 0. *)
Theorem constant_model_boundaries (c : R) (w : world) :
  constant_model c (self w) ->
  (0 <= n_colpoints (self w))%Z ->
  forall g : G,
    let v := mean (pow2 (repeat c (Z.to_nat (n_colpoints (self w))))) in
    ((1 <= n_inputs (self w))%Z ->
       returns left_boundary (set_gen g w) v /\
       returns right_boundary (set_gen g w) v) /\
    ((2 <= n_inputs (self w))%Z ->
       returns top_boundary (set_gen g w) v).
Proof.
  intros Hc Hn g v. unfold v.
  assert (Hd0 : forall d, (d <= n_inputs (self w))%Z -> (0 <= d)%Z ->
                          (0 <= n_inputs (self (set_gen g w)))%Z) by (cbn; lia).
  assert (Hw : forall j d, (d <= n_inputs (self w))%Z -> (Z.of_nat j < d)%Z ->
                           (j < width (set_gen g w))%nat).
  { intros j d H1 H2. unfold width. cbn [set_gen self]. lia. }
  split; [intros Hd; split | intros Hd].
  - apply (homogeneous_constant c Left 0 0 (set_gen g w) Hc Hn (Hd0 _ Hd ltac:(lia)) eq_refl);
      [discriminate | apply (Hw _ _ Hd); lia].
  - apply (homogeneous_constant c Right 0 1 (set_gen g w) Hc Hn (Hd0 _ Hd ltac:(lia)) eq_refl);
      [discriminate | apply (Hw _ _ Hd); lia].
  - apply (homogeneous_constant c Top 1 1 (set_gen g w) Hc Hn (Hd0 _ Hd ltac:(lia)) eq_refl);
      [discriminate | apply (Hw _ _ Hd); lia].
Qed.

(** In exact arithmetic the mean of at least one copy of [c * c] is
    [c * c]; the mean the machine computes is that number up to the
    rounding of the sum and of the division (module [Machine]). *)
Lemma mean_of_equal_squares (c : R) (n : nat) :
  (0 < n)%nat -> mean (pow2 (repeat c n)) = Real (c * c).
Proof. intros Hn. rewrite pow2_repeat. now apply mean_repeat. Qed.

Lemma mean_pow2_real (l : list R) :
  l <> [] -> exists r, mean (pow2 l) = Real r /\ 0 <= r.
Proof.
  intros Hl. destruct l as [|x l]; [congruence|].
  eexists. split; [reflexivity|].
  apply (mean_pow2_nonneg (x :: l)). reflexivity.
Qed.

Lemma zip_add_nonempty (a b : list R) : a <> [] -> b <> [] -> zip_add a b <> [].
Proof. destruct a, b; simpl; congruence. Qed.

Lemma zip_sub_nonempty (a b : list R) : a <> [] -> b <> [] -> zip_sub a b <> [].
Proof. destruct a, b; simpl; congruence. Qed.

Lemma nonempty_length {A} (l : list A) : (1 <= length l)%nat -> l <> [].
Proof. destruct l; simpl; [lia | congruence]. Qed.

(** Broadcasting against a per-point output never fails, and the difference
    has at least one element as soon as the batch has one row. *)
Lemma sub_bcast_per_point (sh : list nat) (a v : list R) :
  length a = length v ->
  (1 <= length v)%nat ->
  sh = [length v] \/ sh = [length v; 1%nat] ->
  exists diff, sub_bcast sh a v = Ok diff /\ diff <> [].
Proof.
  intros Ha Hv Hsh. unfold sub_bcast.
  assert (Hq : last_dim sh = length v \/ last_dim sh = 1%nat)
    by (destruct Hsh as [-> | ->]; unfold last_dim; simpl; auto).
  assert (Hcond : ((last_dim sh =? length v)%nat || (last_dim sh =? 1)%nat
                   || (length v =? 1)%nat) = true).
  { destruct Hq as [-> | ->]; rewrite Nat.eqb_refl;
      [reflexivity | now rewrite orb_true_r]. }
  rewrite Hcond. eexists. split; [reflexivity|].
  destruct a as [|x a]; [simpl in Ha; lia|].
  destruct v as [|y v]; [simpl in Hv; lia|].
  cbn [length chunks flat_map].
  intros Habs. apply app_eq_nil in Habs. destruct Habs as [Habs _].
  revert Habs. unfold sub_row.
  destruct Hq as [Hq | Hq]; rewrite Hq.
  - rewrite Nat.eqb_refl. simpl. intros H; discriminate H.
  - simpl. destruct (length v); intros H; discriminate H.
Qed.

Lemma tcol_length (sh : list nat) (vals c : list R) (n d j : nat) :
  sh = [n; d] -> tcol sh vals j = Ok c -> length c = n.
Proof.
  intros -> H. unfold tcol in H. destruct (j <? d)%nat; [|discriminate].
  injection H as <-. now rewrite length_map, length_seq.
Qed.

(** With at least one collocation point, the boundary methods of a model
    that returns one scalar per point return a loss when the batch has at
    least two columns. *)
Lemma boundary_methods_return (k : sampler) (w : world) :
  per_point_model (self w) ->
  (1 <= n_colpoints (self w))%Z ->
  (2 <= n_inputs (self w))%Z ->
  k <> Interior ->
  exists l w', method k w = (Ok l, w').
Proof.
  intros Hpp Hn Hd Hk.
  rewrite method_run. unfold method_result.
  assert (Hrows : forall f : list R -> list R, (1 <= length (map f (drawn w)))%nat).
  { intros. rewrite length_map, drawn_length. lia. }
  assert (Hbot : forall b, (1 <= length (rows b))%nat ->
            exists v, bottom_value (self w) (params w) b = Ok v).
  { intros b Hb. unfold bottom_value.
    destruct (Hpp (params w) b) as [Hlen Hsh].
    destruct (sub_bcast_per_point (fst (net_out (self w) (params w) b))
                (net_values (self w) (params w) b)
                (map (fun v => sin (PI * v)) (map (fun r => nth 0 r 0) (rows b))))
      as [diff [-> Hdiff]].
    - unfold net_values. now rewrite !length_map.
    - now rewrite !length_map.
    - now rewrite !length_map.
    - eauto. }
  assert (Hs : bad_size w = false).
  { unfold bad_size. apply orb_false_iff. split; apply Z.ltb_ge; lia. }
  rewrite Hs. unfold outcome.
  assert (H0 : (0 <? width w)%nat = true) by (apply Nat.ltb_lt; unfold width; lia).
  assert (H1 : (1 <? width w)%nat = true) by (apply Nat.ltb_lt; unfold width; lia).
  destruct k; cbn [pin]; rewrite ?H0, ?H1; cbn [fst snd tagged]; try congruence; eauto.
  destruct (Hbot (mkTensor (width w) (map (set_nth 1 0) (drawn w)) false))
      as [v ->]; [apply Hrows|].
  cbn [tagged]. eauto.
Qed.

(** Every method ends with [.pow(2).mean()]: the value of a loss it returns
    is the mean of the squares of the elements of some tensor. *)
Lemma loss_is_mean_of_squares (k : sampler) (w w' : world) (l : loss_tensor) :
  method k w = (Ok l, w') -> exists vals, item l = mean (pow2 vals).
Proof.
  rewrite method_run. unfold method_result.
  destruct (bad_size w); [discriminate|].
  unfold outcome.
  destruct k; cbn [pin];
    try (destruct (_ <? width w)%nat; cbn [fst snd tagged]; [|discriminate]).
  - intros H; injection H as <- _. cbn [item]. unfold homogeneous_value. eauto.
  - intros H; injection H as <- _. cbn [item]. unfold homogeneous_value. eauto.
  - intros H; injection H as <- _. cbn [item]. unfold homogeneous_value. eauto.
  - unfold bottom_value. destruct (sub_bcast _ _ _) as [diff|]; [|discriminate].
    cbn [tagged]. intros H; injection H as <- _. cbn [item]. eauto.
  - cbn [fst snd]. unfold interior_value.
    destruct (derivative _ _) as [fb|]; [|discriminate].
    destruct (derivative _ fb) as [sb|]; [|discriminate].
    unfold residual_value.
    destruct (tcol _ _ 0) as [c0|]; [|discriminate].
    destruct (tcol _ _ 1) as [c1|]; [|discriminate].
    cbn [tagged]. intros H; injection H as <- _. cbn [item]. eauto.
Qed.


(** *** The bottom term for a model with a one-dimensional output *)

Lemma chunks_whole {A} (a : list A) : a <> [] -> chunks (length a) (length a) a = [a].
Proof.
  destruct a as [|x a]; [congruence | intros _].
  cbn [length chunks]. rewrite firstn_all2 by (cbn [length]; lia).
  rewrite skipn_all2 by (cbn [length]; lia).
  destruct (length a); reflexivity.
Qed.

Lemma sub_bcast_flat (a v : list R) :
  length a = length v -> sub_bcast [length v] a v = Ok (zip_sub a v).
Proof.
  intros Ha. unfold sub_bcast, last_dim. cbn [last].
  rewrite Nat.eqb_refl. cbn [orb]. f_equal.
  destruct a as [|x a].
  - destruct v; [reflexivity | discriminate].
  - rewrite <- Ha, chunks_whole by discriminate.
    cbn [flat_map]. unfold sub_row. rewrite Nat.eqb_refl. apply app_nil_r.
Qed.

(** For a model whose output on [n] rows has the shape [(n,)], the bottom
    term is the mean, over the points, of the squared difference between the
    output at the point and sin(pi x) at the same point. *)
Lemma bottom_boundary_flat_output (w : world) :
  (forall theta b,
     fst (net_out (self w) theta b) = [length (rows b)] /\
     length (snd (net_out (self w) theta b)) = length (rows b)) ->
  (0 <= n_colpoints (self w))%Z ->
  (2 <= n_inputs (self w))%Z ->
  returns bottom_boundary w (bottom_stated (self w) (params w) (batch_of Bottom w)).
Proof.
  intros Hflat Hn Hd.
  assert (Hs : bad_size w = false).
  { unfold bad_size. apply orb_false_iff. split; apply Z.ltb_ge; lia. }
  rewrite (batch_of_run Bottom w Hs).
  unfold returns. rewrite bottom_boundary_run.
  unfold Meaning.method_result. rewrite Hs.
  unfold outcome. cbn [pin].
  assert (H1 : (1 <? width w)%nat = true) by (apply Nat.ltb_lt; unfold width; lia).
  rewrite H1. cbn [fst snd].
  set (b := {| ncols := width w; rows := map (set_nth 1 0) (drawn w);
               requires_grad := false; is_floating_point := true |}).
  destruct (Hflat (params w) b) as [Hsh Hlen].
  assert (Hv : bottom_value (self w) (params w) b
               = Ok (bottom_stated (self w) (params w) b)).
  { unfold bottom_value, bottom_stated. rewrite Hsh.
    replace (length (rows b))
      with (length (map (fun v => sin (PI * v)) (map (fun r => nth 0 r 0) (rows b))))
      by (now rewrite !length_map).
    rewrite sub_bcast_flat; [reflexivity|].
    unfold net_values. now rewrite !length_map. }
  rewrite Hv. cbn [tagged]. eexists. eexists. split; reflexivity.
Qed.

Lemma pow2_zero_minus (v : list R) :
  pow2 (zip_sub (repeat 0 (length v)) v) = pow2 v.
Proof.
  induction v as [|y v IH]; [reflexivity|].
  cbn [length repeat zip_sub pow2 map]. fold (pow2 (zip_sub (repeat 0 (length v)) v)).
  fold (pow2 v). rewrite IH. f_equal. ring.
Qed.

(** With the zero model (output of shape [(n,)]), the bottom term is the
    mean of sin(pi x)^2 over the sampled points. *)
Lemma bottom_boundary_zero_model (w : world) :
  constant_model 0 (self w) ->
  (forall theta b, fst (net_out (self w) theta b) = [length (rows b)]) ->
  (0 <= n_colpoints (self w))%Z ->
  (2 <= n_inputs (self w))%Z ->
  returns bottom_boundary w
    (mean (pow2 (map (fun v => sin (PI * v))
                     (map (fun r => nth 0 r 0) (rows (batch_of Bottom w)))))).
Proof.
  intros Hzero Hshape Hn Hd.
  destruct (bottom_boundary_flat_output w) as [l [w' [Hrun Hitem]]]; auto.
  { intros theta b. split; [apply Hshape|].
    pose proof (Hzero theta b) as Hv. unfold net_values in Hv.
    apply (f_equal (@length R)) in Hv. now rewrite length_map, repeat_length in Hv. }
  exists l, w'. split; [exact Hrun|]. rewrite Hitem.
  unfold bottom_stated. rewrite Hzero.
  replace (length (rows (batch_of Bottom w)))
    with (length (map (fun v => sin (PI * v))
                      (map (fun r => nth 0 r 0) (rows (batch_of Bottom w)))))
    by (now rewrite !length_map).
  now rewrite pow2_zero_minus.
Qed.

(** *** [calc_derivative] and the [requires_grad] attribute *)

(** [calc_derivative] in closed form.  On a tensor that has the flag the
    derivative is requested and the state is left as it is; on a
    floating-point tensor without it the flag is set in place and the
    derivative of the flagged tensor is requested; on any other tensor
    without it the assignment of line 34 raises and nothing is written. *)
Lemma calc_derivative_run (outputs : ttensor) (inputs : nat) (w : world) :
  (inputs < length (store w))%nat ->
  calc_derivative outputs inputs w =
    if requires_grad (nth inputs (store w) empty_tensor)
    then (grad inputs (nth inputs (store w) empty_tensor) outputs (ones_like outputs), w)
    else if is_floating_point (nth inputs (store w) empty_tensor)
    then (grad inputs (flagged (nth inputs (store w) empty_tensor)) outputs
               (ones_like outputs),
          set_store (update inputs (flagged (nth inputs (store w) empty_tensor)) (store w)) w)
    else (Raise (RuntimeError NotFloatingPoint), w).
Proof.
  intros Hin.
  cbv [QadenceTrial.calc_derivative bind load set_requires_grad write lift ret].
  destruct (nth inputs (store w) empty_tensor) as [nc rs rg fl] eqn:Hx.
  destruct rg; cbn [negb requires_grad ncols rows flagged is_floating_point].
  - rewrite Hx. reflexivity.
  - rewrite ?Hx. cbn [is_floating_point ncols rows requires_grad].
    destruct fl; [|reflexivity].
    cbn [store set_store]. rewrite nth_update_same by assumption. reflexivity.
Qed.

Lemma flagged_id (x : tensor) : requires_grad x = true -> flagged x = x.
Proof. destruct x as [nc rs rg fl]; simpl; intros ->; reflexivity. Qed.

(** The same for the tensors on which the flag can be set. *)
Lemma calc_derivative_floating (outputs : ttensor) (inputs : nat) (w : world) :
  (inputs < length (store w))%nat ->
  requires_grad (nth inputs (store w) empty_tensor) = true \/
  is_floating_point (nth inputs (store w) empty_tensor) = true ->
  calc_derivative outputs inputs w =
    (grad inputs (flagged (nth inputs (store w) empty_tensor)) outputs (ones_like outputs),
     if requires_grad (nth inputs (store w) empty_tensor) then w
     else set_store (update inputs (flagged (nth inputs (store w) empty_tensor)) (store w)) w).
Proof.
  intros Hin Hx. rewrite calc_derivative_run by assumption.
  destruct (requires_grad (nth inputs (store w) empty_tensor)) eqn:Hrg.
  - now rewrite flagged_id.
  - destruct Hx as [Hx | ->]; [discriminate | reflexivity].
Qed.

(** The request for the derivative of a flagged tensor returns exactly when
    the graph of the outputs was recorded from that tensor and reaches it. *)
Lemma grad_flagged_returns (a : nat) (x : tensor) (o : ttensor) (gos : list expr) :
  (exists t, grad a (flagged x) o gos = Ok t) <->
  troot o = Some a /\ existsb has_leaf (telems o) = true.
Proof.
  unfold grad. cbn [flagged requires_grad negb].
  destruct (troot o) as [r|].
  - destruct (Nat.eqb_spec r a) as [->|Hne]; cbn [andb].
    + destruct (existsb has_leaf (telems o)).
      * split; [auto | intros _; eexists; reflexivity].
      * split; [intros [t H]; discriminate H | intros [_ H]; discriminate H].
    + split; [intros [t H]; discriminate H | intros [H _]; congruence].
  - split; [intros [t H]; discriminate H | intros [H _]; discriminate H].
Qed.

(** An output computed from a tensor that did not have the flag carries no
    graph. *)
Lemma forward_unflagged_root (m : module_t P) (theta : P) (a : nat) (x : tensor) :
  requires_grad x = false -> troot (forward m theta (view a x)) = None.
Proof.
  intros Hx. unfold forward, view. rewrite Hx.
  cbn [tshape telems troot]. destruct (m theta _ _). reflexivity.
Qed.



(** *** Determinism under a fixed seed *)

Lemma outcome_batch (k : sampler) (s s' : DomainSampling P) (theta theta' : P)
      (d : nat) (rs : list (list R)) :
  snd (outcome k s theta d rs) = snd (outcome k s' theta' d rs).
Proof.
  unfold outcome. destruct (pin k) as [[j v]|]; [|reflexivity].
  destruct (j <? d)%nat; reflexivity.
Qed.

Lemma outcome_value (k : sampler) (s s' : DomainSampling P) (theta : P)
      (d : nat) (rs : list (list R)) :
  net s = net s' ->
  fst (outcome k s theta d rs) = fst (outcome k s' theta d rs).
Proof.
  intros Hnet.
  unfold outcome, homogeneous_value, bottom_value, interior_value, net_values, net_out.
  rewrite Hnet. reflexivity.
Qed.

Lemma value_of_tagged (k : sampler) (a : nat) (r : result scalar) :
  value_of (tagged k a r) = r.
Proof. destruct r; reflexivity. Qed.

(** C7. Sampling is a function of the generator state: two calls of the
    same method, each made right after [manual_seed(s)] with the same [s] by
    samplers of the same [n_colpoints] and [n_inputs], store identical
    batches and leave the generator in the same state, whatever the two
    worlds were before; with the same model and parameters they also end
    with the same loss value (or the same exception). *)
Theorem seeded_sampling_deterministic (s : Z) (k : sampler) (w1 w2 : world) :
  n_colpoints (self w1) = n_colpoints (self w2) ->
  n_inputs (self w1) = n_inputs (self w2) ->
  nth (length (store w1)) (store (snd (seeded s k w1))) empty_tensor
    = nth (length (store w2)) (store (snd (seeded s k w2))) empty_tensor /\
  gen (snd (seeded s k w1)) = gen (snd (seeded s k w2)) /\
  (net (self w1) = net (self w2) -> params w1 = params w2 ->
   value_of (fst (seeded s k w1)) = value_of (fst (seeded s k w2))).
Proof.
  intros Hn Hd.
  assert (Hrun : forall w, seeded s k w = method_result k (set_gen (seed_state s) w)).
  { intros w. unfold seeded, bind, QadenceTrial.manual_seed. apply method_run. }
  rewrite !Hrun. unfold method_result, bad_size, allocated, drawn, gen_after, width.
  cbn [self set_gen gen store params]. rewrite <- Hn, <- Hd.
  destruct ((n_colpoints (self w1) <? 0) || (n_inputs (self w1) <? 0))%Z.
  - cbn [fst snd store set_gen gen value_of].
    rewrite !nth_overflow by lia. auto.
  - cbn [fst snd store set_store set_gen gen]. rewrite !nth_fresh.
    split; [apply outcome_batch|]. split; [reflexivity|].
    intros Hnet Hp. rewrite !value_of_tagged, <- Hp. now apply outcome_value.
Qed.

(** *** What the methods and the training driver leave unchanged *)

Lemma method_sampled_only (k : sampler) (w : world) : sampled_only w (snd (method k w)).
Proof.
  rewrite method_run. unfold method_result, sampled_only.
  destruct (bad_size w); cbn [snd allocated set_store set_gen params self pgrads optim log store].
  - repeat split; auto. apply firstn_all.
  - unfold allocated. cbn [set_store set_gen params self pgrads optim log store].
    repeat split; auto.
    rewrite firstn_app, Nat.sub_diag, firstn_all. cbn [firstn]. apply app_nil_r.
Qed.

Create HintDb frame.

Lemma keeps_bind (A B : Type) (m : world -> result A * world)
      (f : A -> world -> result B * world) :
  keeps A m -> (forall a, keeps B (f a)) -> keeps B (bind m f).
Proof.
  intros Hm Hf w. unfold bind. specialize (Hm w).
  destruct (m w) as [[a|e] w1]; cbn [snd] in *.
  - destruct (Hf a w1) as [H1 [H2 H3]]. destruct Hm as [H4 [H5 H6]].
    repeat split; congruence.
  - exact Hm.
Qed.

Lemma keeps_method (k : sampler) : keeps loss_tensor (method k).
Proof.
  intros w. destruct (method_sampled_only k w) as [H1 [H2 [_ [H3 _]]]]. auto.
Qed.

Lemma keeps_emit (e : event) : keeps unit (emit e).
Proof. intros w. cbn. auto. Qed.

Lemma keeps_ret (A : Type) (a : A) : keeps A (ret a).
Proof. intros w. cbn. auto. Qed.

Lemma keeps_observed (k : sampler) : keeps loss_tensor (observed k (method k)).
Proof.
  unfold observed. apply keeps_bind; [apply keeps_method|]. intros l.
  apply keeps_bind; [apply keeps_emit|]. intros _. apply keeps_ret.
Qed.

Lemma keeps_zero_grad : keeps unit opt_zero_grad.
Proof. intros w. cbn. auto. Qed.

Lemma keeps_backward (l : loss_tensor) : keeps unit (loss_backward l).
Proof. intros w. cbn. auto. Qed.

Lemma bind_assoc (A B C : Type) (m : world -> result A * world)
      (f : A -> world -> result B * world) (g : B -> world -> result C * world) (w : world) :
  bind (bind m f) g w = bind m (fun a => bind (f a) g) w.
Proof.
  unfold bind. destruct (m w) as [[a|e] w1]; reflexivity.
Qed.

Lemma epoch_split (w : world) :
  epoch w = bind accumulate (fun _ => opt_step) w.
Proof.
  unfold accumulate, QadenceTrial.epoch, bind.
  destruct (opt_zero_grad w) as [[u|e] w0]; [|reflexivity].
  destruct (observed Left left_boundary w0) as [[l1|e] w1]; [|reflexivity].
  destruct (observed Right right_boundary w1) as [[l2|e] w2]; [|reflexivity].
  destruct (observed Top top_boundary w2) as [[l3|e] w3]; [|reflexivity].
  destruct (observed Bottom bottom_boundary w3) as [[l4|e] w4]; [|reflexivity].
  destruct (observed Interior interior w4) as [[l5|e] w5]; [|reflexivity].
  destruct (loss_backward _ w5) as [[u'|e] w6]; reflexivity.
Qed.

#[local] Hint Resolve keeps_bind keeps_observed keeps_zero_grad keeps_backward : frame.

Lemma keeps_accumulate : keeps unit accumulate.
Proof. unfold Meaning.accumulate. auto 20 with frame. Qed.

(** C8. No method of the sampler writes the parameters of the model or a
    field of the sampler (nor the gradients, the optimizer, the trace or an
    object that was in the store before the call).  In an iteration of the
    training loop the parameters are those of its start until [opt.step()]
    runs: an iteration that raises leaves them as they were, and one that
    completes leaves what the step function makes of them. *)
Theorem parameters_written_by_step_only (w : world) :
  (forall k,
     params (snd (method k w)) = params w /\
     net (self (snd (method k w))) = net (self w) /\
     n_colpoints (self (snd (method k w))) = n_colpoints (self w) /\
     n_inputs (self (snd (method k w))) = n_inputs (self w) /\
     pgrads (snd (method k w)) = pgrads w /\
     optim (snd (method k w)) = optim w /\
     log (snd (method k w)) = log w /\
     firstn (length (store w)) (store (snd (method k w))) = store w) /\
  params (snd (accumulate w)) = params w /\
  self (snd (epoch w)) = self w /\
  (forall e, fst (epoch w) = Raise e -> params (snd (epoch w)) = params w) /\
  (fst (epoch w) = Ok tt ->
     params (snd (epoch w))
       = fst (step (params w) (pgrads (snd (accumulate w))) (optim w))).
Proof.
  split.
  { intros k. destruct (method_sampled_only k w) as [H1 [H2 [H3 [H4 [H5 H6]]]]].
    rewrite H2. repeat split; assumption. }
  destruct (keeps_accumulate w) as [Hp [Hs Ho]].
  split; [exact Hp|].
  rewrite epoch_split. unfold bind.
  destruct (accumulate w) as [[u|e] w1]; cbn [fst snd] in *.
  - unfold opt_step. rewrite Hp, Ho.
    destruct (step (params w) (pgrads w1) (optim w)) as [p o].
    cbn [emit fst snd set_optim params self].
    split; [exact Hs|]. split; [discriminate|]. reflexivity.
  - split; [exact Hs|]. split; [intros ? _; exact Hp|]. discriminate.
Qed.

(** *** The trace of the training loop *)

Lemma observed_log (k : sampler) (w : world) :
  match fst (observed k (method k) w) with
  | Ok l => log (snd (observed k (method k) w)) = log w ++ [EvLoss k (item l)]
  | Raise _ => log (snd (observed k (method k) w)) = log w
  end.
Proof.
  unfold observed, bind.
  destruct (method_sampled_only k w) as [_ [_ [_ [_ [Hlog _]]]]].
  destruct (method k w) as [[l|e] w1]; cbn [fst snd emit ret log] in *.
  - now rewrite Hlog.
  - exact Hlog.
Qed.

(** An iteration either completes, having recorded the eight events of
    [epoch_events] in order, or raises in one of the five methods, having
    recorded a proper prefix of them that ends before the backward pass. *)
Lemma epoch_log (w : world) :
  match fst (epoch w) with
  | Ok _ => exists v, log (snd (epoch w)) = log w ++ epoch_events v
  | Raise _ =>
      exists v n, (1 <= n <= 5)%nat /\
                  log (snd (epoch w)) = log w ++ firstn n (epoch_events v)
  end.
Proof.
  unfold QadenceTrial.epoch, bind.
  destruct (opt_zero_grad w) as [r0 w0] eqn:Hz.
  assert (H0 : r0 = Ok tt /\ log w0 = log w ++ [EvZeroGrad]).
  { unfold opt_zero_grad, emit in Hz. injection Hz as <- <-. auto. }
  destruct H0 as [-> H0].
  pose proof (observed_log Left w0) as H1.
  change (QadenceTrial.method draw Left) with left_boundary in H1.
  destruct (observed Left left_boundary w0) as [[l1|e1] w1]; cbn [fst snd] in *.
  2: { exists (NaN, NaN, NaN, NaN, NaN), 1%nat. split; [lia|]. rewrite H1, H0. reflexivity. }
  pose proof (observed_log Right w1) as H2.
  change (QadenceTrial.method draw Right) with right_boundary in H2.
  destruct (observed Right right_boundary w1) as [[l2|e2] w2]; cbn [fst snd] in *.
  2: { exists (item l1, NaN, NaN, NaN, NaN), 2%nat. split; [lia|].
       rewrite H2, H1, H0, <- app_assoc. reflexivity. }
  pose proof (observed_log Top w2) as H3.
  change (QadenceTrial.method draw Top) with top_boundary in H3.
  destruct (observed Top top_boundary w2) as [[l3|e3] w3]; cbn [fst snd] in *.
  2: { exists (item l1, item l2, NaN, NaN, NaN), 3%nat. split; [lia|].
       rewrite H3, H2, H1, H0, <- !app_assoc. reflexivity. }
  pose proof (observed_log Bottom w3) as H4.
  change (QadenceTrial.method draw Bottom) with bottom_boundary in H4.
  destruct (observed Bottom bottom_boundary w3) as [[l4|e4] w4]; cbn [fst snd] in *.
  2: { exists (item l1, item l2, item l3, NaN, NaN), 4%nat. split; [lia|].
       rewrite H4, H3, H2, H1, H0, <- !app_assoc. reflexivity. }
  pose proof (observed_log Interior w4) as H5.
  change (QadenceTrial.method draw Interior) with interior in H5.
  destruct (observed Interior interior w4) as [[l5|e5] w5]; cbn [fst snd] in *.
  2: { exists (item l1, item l2, item l3, item l4, NaN), 5%nat. split; [lia|].
       rewrite H5, H4, H3, H2, H1, H0, <- !app_assoc. reflexivity. }
  destruct (loss_backward _ w5) as [r6 w6] eqn:Hb.
  assert (H6 : r6 = Ok tt /\ log w6 = log w5 ++
            [EvBackward (item (loss_add (loss_add (loss_add (loss_add l1 l2) l3) l4) l5))]).
  { unfold loss_backward, emit in Hb. injection Hb as <- <-. auto. }
  destruct H6 as [-> H6].
  destruct (opt_step w6) as [r7 w7] eqn:Hs.
  assert (H7 : r7 = Ok tt /\ log w7 = log w6 ++ [EvStep]).
  { unfold opt_step in Hs. destruct (step _ _ _) as [p o].
    unfold emit in Hs. injection Hs as <- <-. auto. }
  destruct H7 as [-> H7]. cbn [fst snd].
  exists (item l1, item l2, item l3, item l4, item l5).
  rewrite H7, H6, H5, H4, H3, H2, H1, H0, <- !app_assoc. reflexivity.
Qed.

Lemma for_range_log (k : nat) (w : world) :
  exists vs tail,
    log (snd (for_range k epoch w)) = log w ++ flat_map epoch_events vs ++ tail /\
    match fst (for_range k epoch w) with
    | Ok _ => length vs = k /\ tail = []
    | Raise _ =>
        (length vs < k)%nat /\
        exists v n, (1 <= n <= 5)%nat /\ tail = firstn n (epoch_events v)
    end.
Proof.
  revert w; induction k as [|k IH]; intros w.
  - exists [], []. cbn. rewrite app_nil_r. auto.
  - cbn [for_range]. unfold bind.
    pose proof (epoch_log w) as He.
    destruct (epoch w) as [[u|e] w1]; cbn [fst snd] in *.
    + destruct He as [v Hv]. destruct (IH w1) as [vs [tail [Hlog Hres]]].
      exists (v :: vs), tail. split.
      * rewrite Hlog, Hv. cbn [flat_map]. now rewrite <- !app_assoc.
      * destruct (fst (for_range k epoch w1)).
        -- destruct Hres as [Hlen ->]. cbn [length]. split; [now rewrite Hlen | reflexivity].
        -- destruct Hres as [Hlen Htail]. cbn [length]. split; [lia | exact Htail].
    + destruct He as [v [n [Hn Hv]]].
      exists [], (firstn n (epoch_events v)). split.
      * rewrite Hv. reflexivity.
      * cbn [length]. split; [lia|]. eauto.
Qed.

(** The trace of the training loop is a sequence of complete iterations,
    each consisting, in this order, of the clearing of the gradients, the
    calls of [left_boundary], [right_boundary], [top_boundary],
    [bottom_boundary] and [interior], the backward pass of the sum of the
    five returned values, and one optimizer step.  What these calls do to
    the state is section [Driver]. *)
Lemma training_trace (w : world) :
  exists vs tail,
    log (snd (training w)) = log w ++ flat_map epoch_events vs ++ tail /\
    match fst (training w) with
    | Ok _ => length vs = 1000%nat /\ tail = []
    | Raise _ =>
        (length vs < 1000)%nat /\
        exists v n, (1 <= n <= 5)%nat /\ tail = firstn n (epoch_events v)
    end.
Proof. apply for_range_log. Qed.

(** *** Runs in which no method raises *)

Lemma succeeds_bind (s : DomainSampling P) (A B : Type)
      (m : world -> result A * world) (f : A -> world -> result B * world) :
  succeeds s A m -> (forall a, succeeds s B (f a)) -> succeeds s B (bind m f).
Proof.
  intros Hm Hf w Hs. unfold bind.
  destruct (Hm w Hs) as [a [w1 [E1 H1]]]. rewrite E1. now apply Hf.
Qed.

Lemma succeeds_ret (s : DomainSampling P) (A : Type) (a : A) : succeeds s A (ret a).
Proof. intros w Hs. exists a, w. auto. Qed.

Lemma succeeds_emit (s : DomainSampling P) (e : event) : succeeds s unit (emit e).
Proof. intros w Hs. unfold emit. eexists. eexists. split; [reflexivity | exact Hs]. Qed.

Lemma succeeds_zero_grad (s : DomainSampling P) : succeeds s unit opt_zero_grad.
Proof.
  intros w Hs. unfold QadenceTrial.opt_zero_grad, emit.
  eexists. eexists. split; [reflexivity | exact Hs].
Qed.

Lemma succeeds_backward (s : DomainSampling P) (l : loss_tensor) :
  succeeds s unit (loss_backward l).
Proof.
  intros w Hs. unfold QadenceTrial.loss_backward, emit.
  eexists. eexists. split; [reflexivity | exact Hs].
Qed.

Lemma succeeds_step (s : DomainSampling P) : succeeds s unit opt_step.
Proof.
  intros w Hs. unfold QadenceTrial.opt_step, emit.
  destruct (step (params w) (pgrads w) (optim w)) as [p o].
  eexists. eexists. split; [reflexivity | exact Hs].
Qed.

Lemma succeeds_observed (s : DomainSampling P) (k : sampler) :
  succeeds s loss_tensor (method k) -> succeeds s loss_tensor (observed k (method k)).
Proof.
  intros Hk. unfold observed.
  apply succeeds_bind; [exact Hk | intros l].
  apply succeeds_bind; [apply succeeds_emit | intros _]. apply succeeds_ret.
Qed.

Lemma succeeds_epoch (s : DomainSampling P) :
  (forall k, succeeds s loss_tensor (method k)) -> succeeds s unit epoch.
Proof.
  intros Hk. unfold QadenceTrial.epoch.
  apply succeeds_bind; [apply succeeds_zero_grad | intros _].
  apply succeeds_bind; [apply (succeeds_observed s Left), Hk | intros l1].
  apply succeeds_bind; [apply (succeeds_observed s Right), Hk | intros l2].
  apply succeeds_bind; [apply (succeeds_observed s Top), Hk | intros l3].
  apply succeeds_bind; [apply (succeeds_observed s Bottom), Hk | intros l4].
  apply succeeds_bind; [apply (succeeds_observed s Interior), Hk | intros l5].
  apply succeeds_bind; [apply succeeds_backward | intros _].
  apply succeeds_step.
Qed.

Lemma succeeds_for_range (s : DomainSampling P) (k : nat) (body : world -> result unit * world) :
  succeeds s unit body -> succeeds s unit (for_range k body).
Proof.
  intros Hb. induction k as [|k IH]; cbn [for_range].
  - apply succeeds_ret.
  - apply succeeds_bind; [exact Hb | intros _; exact IH].
Qed.

(** When no method of the sampler raises, the training loop returns. *)
Lemma training_returns (s : DomainSampling P) (w : world) :
  (forall k, succeeds s loss_tensor (method k)) ->
  self w = s ->
  fst (training w) = Ok tt.
Proof.
  intros Hk Hs.
  destruct (succeeds_for_range s 1000 epoch (succeeds_epoch s Hk) w Hs) as [[] [w' [E _]]].
  unfold QadenceTrial.training. now rewrite E.
Qed.

(** The script as a whole: its trace is that of the loop. *)
Lemma script_trace (g : G) (model : module_t P) (theta : P) (gr : Gr) (o : Opt) :
  exists vs tail,
    log (snd (script draw seed_state zero_grad backward step
                     (initial g model theta gr o)))
      = flat_map epoch_events vs ++ tail /\
    match fst (script draw seed_state zero_grad backward step
                      (initial g model theta gr o)) with
    | Ok _ => length vs = 1000%nat /\ tail = []
    | Raise _ =>
        (length vs < 1000)%nat /\
        exists v n, (1 <= n <= 5)%nat /\ tail = firstn n (epoch_events v)
    end.
Proof.
  unfold script, bind, manual_seed.
  destruct (for_range_log 1000 (set_gen (seed_state 42) (initial g model theta gr o)))
    as [vs [tail [Hlog Hres]]].
  exists vs, tail. split; [exact Hlog | exact Hres].
Qed.

Section Uniform.

(** [rand] draws from the uniform distribution on the interval [0, 1). *)
Hypothesis draw_range : forall g, 0 <= fst (draw g) < 1.

Lemma draw_row_range (d : nat) (g : G) :
  Forall (fun x => 0 <= x < 1) (fst (draw_row d g)).
Proof.
  revert g; induction d as [|d IH]; intros g; simpl; [constructor|].
  pose proof (draw_range g) as Hx.
  destruct (draw g) as [x g1]. specialize (IH g1).
  destruct (QadenceTrial.draw_row draw d g1) as [r g2]. simpl in *.
  constructor; assumption.
Qed.

Lemma draw_rows_range (n d : nat) (g : G) :
  Forall (Forall (fun x => 0 <= x < 1)) (fst (draw_rows n d g)).
Proof.
  revert g; induction n as [|n IH]; intros g; simpl; [constructor|].
  pose proof (draw_row_range d g) as Hr.
  destruct (QadenceTrial.draw_row draw d g) as [r g1]. specialize (IH g1).
  destruct (QadenceTrial.draw_rows draw n d g1) as [rs g2]. simpl in *.
  constructor; assumption.
Qed.

(** C3. The batch that [left_boundary], [right_boundary], [top_boundary] or
    [bottom_boundary] stores is the drawn batch with the pinned column
    overwritten and nothing else changed: it has [n_colpoints] rows of
    [n_inputs] entries, in every row the pinned coordinate (left: column 0
    is 0; right: column 0 is 1; top: column 1 is 1; bottom: column 1 is 0)
    has exactly the pinned value, and every other coordinate is the drawn
    one and lies in [0, 1). *)
Theorem boundary_batch_pinned (k : sampler) (j : nat) (v : R) (w : world) :
  pin k = Some (j, v) ->
  bad_size w = false ->
  (j < width w)%nat ->
  let b := batch_of k w in
  (v = 0 \/ v = 1) /\
  (k = Left /\ j = 0%nat /\ v = 0 \/ k = Right /\ j = 0%nat /\ v = 1 \/
   k = Top /\ j = 1%nat /\ v = 1 \/ k = Bottom /\ j = 1%nat /\ v = 0) /\
  rows b = map (set_nth j v) (drawn w) /\
  length (rows b) = Z.to_nat (n_colpoints (self w)) /\
  forall i r, nth_error (rows b) i = Some r ->
    length r = width w /\
    nth j r 0 = v /\
    forall c, (c < width w)%nat -> c <> j ->
      nth c r 0 = entry (drawn w) i c /\ 0 <= nth c r 0 < 1.
Proof.
  intros Hpin Hsize Hj b.
  assert (Hb : rows b = map (set_nth j v) (drawn w)).
  { unfold b. rewrite batch_of_run by assumption. unfold outcome. rewrite Hpin.
    apply Nat.ltb_lt in Hj. rewrite Hj. reflexivity. }
  split; [|split; [|split; [exact Hb|split]]].
  - destruct k; inversion Hpin; auto.
  - destruct k; inversion Hpin; auto 10.
  - rewrite Hb, length_map. unfold drawn. apply draw_rows_length.
  - intros i r Hr. rewrite Hb in Hr.
    rewrite nth_error_map in Hr.
    destruct (nth_error (drawn w) i) as [r0|] eqn:Hr0; [|discriminate].
    injection Hr as <-.
    assert (Hin : In r0 (drawn w)) by (eapply nth_error_In; eauto).
    assert (Hlen : length r0 = width w).
    { pose proof (draw_rows_width (Z.to_nat (n_colpoints (self w))) (width w) (gen w)) as Hw.
      rewrite Forall_forall in Hw. now apply Hw. }
    assert (Hrange : Forall (fun x => 0 <= x < 1) r0).
    { pose proof (draw_rows_range (Z.to_nat (n_colpoints (self w))) (width w) (gen w)) as Hw.
      rewrite Forall_forall in Hw. now apply Hw. }
    split; [now rewrite set_nth_length|].
    split; [apply set_nth_same; lia|].
    intros c Hc Hne. rewrite set_nth_other by assumption.
    assert (Hentry : entry (drawn w) i c = nth c r0 0).
    { unfold entry. now rewrite (nth_error_nth _ _ _ Hr0). }
    rewrite Hentry. split; [reflexivity|].
    rewrite Forall_forall in Hrange. apply Hrange. apply nth_In. lia.
Qed.

End Uniform.

End Proofs.


(** *** A run of the training loop that returns *)

Section ReturningRun.
Import Torch QadenceTrial Meaning Models.

Variable G : Type.
Variable draw : G -> R * G.
Variable seed_state : Z -> G.
Variable Gr : Type.
Variable Opt : Type.
Variable zero_grad : Gr -> Gr.
Variable backward : unit -> list tensor -> loss_tensor -> Gr -> Gr.
Variable step : unit -> Gr -> Opt -> unit * Opt.

Lemma drawn_first_point (m : module_t unit) (n : Z) (w : world G unit Gr Opt) :
  self w = DomainSampling_init m (Some 2%Z) (Some n) ->
  (1 <= n)%Z ->
  exists x y rs, drawn draw w = [x; y] :: rs.
Proof.
  intros Hs Hn.
  pose proof (drawn_length G draw unit Gr Opt w) as Hlen.
  pose proof (draw_rows_width G draw (Z.to_nat (n_colpoints (self w))) (width w) (gen w)) as Hw.
  fold (drawn draw w) in Hw. unfold width in Hw. rewrite Hs in Hlen, Hw.
  cbn [DomainSampling_init n_colpoints n_inputs] in Hlen, Hw.
  destruct (drawn draw w) as [|r rs]; [cbn in Hlen; lia|].
  inversion Hw as [|? ? Hr _]; subst.
  change (Z.to_nat 2) with 2%nat in Hr.
  destruct r as [|x [|y [|z r]]]; try discriminate. eauto.
Qed.

(** With two inputs, at least one collocation point and the model
    u(x, y) = x y, no method raises. *)
Lemma product_model_succeeds (n : Z) (k : sampler) :
  (1 <= n)%Z ->
  succeeds (DomainSampling_init (per_point u_product) (Some 2%Z) (Some n))
           loss_tensor (method (Gr := Gr) (Opt := Opt) draw k).
Proof.
  intros Hn w Hs. rewrite method_run. unfold method_result.
  assert (Hsize : bad_size w = false).
  { unfold bad_size. rewrite Hs. cbn [DomainSampling_init n_colpoints n_inputs].
    apply orb_false_iff. split; apply Z.ltb_ge; lia. }
  rewrite Hsize.
  destruct (drawn_first_point _ n w Hs Hn) as [x [y [rs Hd]]].
  assert (Hw : width w = 2%nat) by (unfold width; now rewrite Hs).
  unfold allocated. rewrite Hd, Hw. unfold outcome.
  destruct k; cbn [pin Nat.ltb Nat.leb fst snd tagged].
  - eexists. eexists. split; [reflexivity | exact Hs].
  - eexists. eexists. split; [reflexivity | exact Hs].
  - eexists. eexists. split; [reflexivity | exact Hs].
  - assert (Hb : exists v, bottom_value (self w) (params w)
                   (mkTensor 2 (map (set_nth 1 0) ([x; y] :: rs)) false) = Ok v).
    { unfold bottom_value, net_out. rewrite Hs.
      cbn [DomainSampling_init net per_point fst snd hd rows ncols].
      unfold sub_bcast, last_dim. cbn [last]. rewrite !length_map.
      rewrite Nat.eqb_refl. cbn [orb]. eexists. reflexivity. }
    destruct Hb as [v ->]. cbn [tagged].
    eexists. eexists. split; [reflexivity | exact Hs].
  - assert (Hi : exists v, interior_value (self w) (params w)
                   (mkTensor 2 ([x; y] :: rs) true) = Ok v).
    { unfold interior_value, net_out, derivative. rewrite Hs.
      cbn [DomainSampling_init net rows ncols requires_grad view_rows view_row
           length seq map app].
      set (rest := view_rows true 1 rs).
      unfold per_point. cbn [snd nth length chunks firstn skipn map].
      match goal with
      | |- context [u_product [Leaf 0 0; Leaf 0 1] :: ?t] => set (others := t)
      end.
      cbn [u_product coord nth existsb has_leaf orb].
      unfold grad_elems.
      cbn [rows ncols length seq flat_map grad_row map app grad_elem backprop
           Nat.eqb andb accum].
      destruct (grad_elem others _ 0 0) as [e00|];
        cbn [accum or_zero existsb has_leaf orb];
        unfold residual_value; cbn [rows ncols tcol Nat.ltb Nat.leb];
        eexists; reflexivity. }
    destruct Hi as [v ->]. cbn [tagged].
    eexists. eexists. split; [reflexivity | exact Hs].
Qed.

(** The training loop returns for such a sampler, whatever the generator
    and the optimizer; in particular the script does, with its sampler of
    100 points: runs of 1000 complete iterations exist. *)
Lemma training_returns_product_model (n : Z) (w : world G unit Gr Opt) :
  (1 <= n)%Z ->
  self w = DomainSampling_init (per_point u_product) (Some 2%Z) (Some n) ->
  fst (training draw zero_grad backward step w) = Ok tt.
Proof.
  intros Hn Hs.
  apply (training_returns G draw unit Gr Opt zero_grad backward step _ w
           (fun k => product_model_succeeds n k Hn) Hs).
Qed.

Lemma script_returns_product_model (g : G) (gr : Gr) (o : Opt) :
  fst (script draw seed_state zero_grad backward step
         (initial g (per_point u_product) tt gr o)) = Ok tt.
Proof.
  unfold script, bind, manual_seed.
  apply (training_returns_product_model 100); [lia | reflexivity].
Qed.

End ReturningRun.
(* ================================================================== *)
(** ** Instances: witnesses, counterexamples and failing inputs         *)
(* ================================================================== *)

Section Instances.
Import Torch QadenceTrial Meaning Models.


Lemma harmonic_draw_range (k : nat) : 0 <= fst (harmonic_draw k) < 1.
Proof.
  unfold harmonic_draw. cbn [fst].
  assert (H := pos_INR k).
  assert (Hpos : 0 < INR k + 2) by lra.
  split.
  - left. now apply Rinv_0_lt_compat.
  - rewrite <- Rinv_1. apply Rinv_lt_contravar; lra.
Qed.

Lemma constant_net_constant (c : R) (n d : option Z) :
  constant_model c (DomainSampling_init (constant_net c) n d).
Proof.
  intros theta b. unfold net_values, net_out, DomainSampling_init, constant_net.
  cbn [net snd hd]. induction (length (rows b)) as [|m IH]; simpl; [reflexivity|].
  now rewrite IH.
Qed.

Lemma constant_net_per_point (c : R) (n d : option Z) :
  per_point_model (DomainSampling_init (constant_net c) n d).
Proof.
  intros theta b. unfold net_out, DomainSampling_init, constant_net.
  cbn [net fst snd hd]. rewrite repeat_length. auto.
Qed.

(** C3, at a sampler with three points of two coordinates and the generator
    [harmonic_draw]: the stored batch of [top_boundary]. *)
Lemma boundary_batch_pinned_witness :
  rows (batch_of harmonic_draw Top
          (start 0%nat (constant_net 0) 2 3))
    = map (set_nth 1 1)
          (drawn harmonic_draw (start 0%nat (constant_net 0) 2 3)) /\
  length (rows (batch_of harmonic_draw Top
                  (start 0%nat (constant_net 0) 2 3))) = 3%nat.
Proof.
  pose proof (boundary_batch_pinned nat harmonic_draw unit unit unit
                harmonic_draw_range Top 1 1 (start 0%nat (constant_net 0) 2 3)
                eq_refl eq_refl) as H.
  cbv zeta in H.
  destruct H as (_ & _ & H1 & H2 & _).
  - unfold width. simpl. lia.
  - split; [exact H1 | exact H2].
Defined.

(** C4, at the constant 5 with three points of two coordinates, in a state
    of the generator in which it draws 1/2 first. *)
Lemma constant_model_boundaries_witness :
  returns (left_boundary scripted_draw)
    (set_gen [1 / 2] (start [] (constant_net 5) 2 3)) (mean (pow2 [5; 5; 5])) /\
  returns (right_boundary scripted_draw)
    (set_gen [1 / 2] (start [] (constant_net 5) 2 3)) (mean (pow2 [5; 5; 5])) /\
  returns (top_boundary scripted_draw)
    (set_gen [1 / 2] (start [] (constant_net 5) 2 3)) (mean (pow2 [5; 5; 5])).
Proof.
  destruct (constant_model_boundaries (list R) scripted_draw unit unit unit 5
              (start [] (constant_net 5) 2 3)
              (constant_net_constant 5 _ _) ltac:(simpl; lia) [1 / 2]) as [H1 H2].
  destruct H1 as [Hl Hr]; [simpl; lia|].
  split; [exact Hl|]. split; [exact Hr|].
  apply H2. simpl. lia.
Defined.

(** C4, counterexample: with [n_colpoints = 0] the batch is empty and
    [left_boundary] returns the mean of no element, [nan], for the model
    that returns the nonzero constant 1 at every point; the claim promises
    1 squared. *)
Lemma constant_model_empty_batch :
  1 <> 0 /\
  constant_model 1 (self (start ([] : list R) (constant_net 1) 2 0)) /\
  returns (left_boundary scripted_draw) (start [] (constant_net 1) 2 0) NaN /\
  ~ returns (left_boundary scripted_draw) (start [] (constant_net 1) 2 0)
      (Real (1 * 1)).
Proof.
  split; [lra|].
  split; [apply constant_net_constant|].
  split.
  - unfold returns. eexists. eexists. split; reflexivity.
  - intros [l [w' [Hrun Hitem]]].
    assert (Hl : item l = NaN).
    { change (item l) with (item (match (Ok l, w') with (Ok x, _) => x | _ => l end)).
      rewrite <- Hrun. reflexivity. }
    rewrite Hl in Hitem. discriminate Hitem.
Qed.

(** The mean of equal squares in machine arithmetic.  In binary64 the
    square of 0.1 is 5764607523034236 * 2^-59 (0.010000000000000002), and
    the mean of seven copies of it, added in index order, is
    5764607523034235 * 2^-59 (0.01): the mean of equal numbers need not be
    that number.  A square that is [nan] makes the mean [nan], as does the
    product of zero and infinity; the mean of no element is [nan]. *)
Lemma mean_of_squares_rounds :
  Binary64.mul Binary64.tenth Binary64.tenth
    = SpecFloat.S754_finite false 5764607523034236 (-59) /\
  Binary64.mean (Binary64.pow2 (repeat Binary64.tenth 7))
    = SpecFloat.S754_finite false 5764607523034235 (-59) /\
  Binary64.mean (Binary64.pow2 [Binary64.tenth; SpecFloat.S754_nan]) = SpecFloat.S754_nan /\
  Binary64.mul (SpecFloat.S754_zero false) (SpecFloat.S754_infinity false)
    = SpecFloat.S754_nan /\
  Binary64.mean (Binary64.pow2 []) = SpecFloat.S754_nan.
Proof. repeat split; vm_compute; reflexivity. Qed.







(** C7, at the seed 42 and [interior], from a fresh world and from one
    that has already sampled. *)
Lemma seeded_sampling_deterministic_witness :
  nth 0 (store (snd (seeded harmonic_draw seed_index 42 Interior
                       (start 7%nat (per_point u_product) 2 3)))) empty_tensor
    = nth 1 (store (snd (seeded harmonic_draw seed_index 42 Interior
                           (resumed 99%nat (per_point u_product) 2 3)))) empty_tensor /\
  value_of (fst (seeded harmonic_draw seed_index 42 Interior
                   (start 7%nat (per_point u_product) 2 3)))
    = value_of (fst (seeded harmonic_draw seed_index 42 Interior
                       (resumed 99%nat (per_point u_product) 2 3))).
Proof.
  destruct (seeded_sampling_deterministic nat harmonic_draw seed_index unit unit unit
              42 Interior (start 7%nat (per_point u_product) 2 3)
              (resumed 99%nat (per_point u_product) 2 3) eq_refl eq_refl)
    as (H1 & _ & H3).
  split; [exact H1 | exact (H3 eq_refl eq_refl)].
Defined.

(** *** The interior term against the residual it is meant to compute *)

(** u(x, y) = exp(-pi x) sin(pi y) is harmonic: at every point the two pure
    second derivatives cancel. *)
Lemma u_analytic_harmonic (x y : R) :
  eval [[x; y]] (second_pure (u_analytic [Leaf 0 0; Leaf 0 1]) 0 0)
  + eval [[x; y]] (second_pure (u_analytic [Leaf 0 0; Leaf 0 1]) 0 1) = 0.
Proof.
  cbn. unfold entry. cbn. ring.
Qed.

Lemma four_pi4_positive : 0 < 4 * PI ^ 4.
Proof.
  assert (H := PI_RGT_0).
  apply Rmult_lt_0_compat; [lra|]. apply pow_lt. exact H.
Qed.

(** C1, failing input: the model u(x, y) = exp(-pi x) sin(pi y), one
    collocation point, two inputs, the generator drawing 0 and 0.  The
    stated residual u_xx + u_yy vanishes, so the stated loss is 0;
    [interior] returns 4 pi^4: the second [calc_derivative] differentiates
    the sum u_x + u_y, which adds the mixed derivative twice. *)
Theorem interior_adds_mixed_derivatives :
  returns (interior scripted_draw)
    (start [0; 0] (per_point u_analytic) 2 1) (Real (4 * PI ^ 4)) /\
  0 < 4 * PI ^ 4 /\
  interior_stated (self (start [0; 0] (per_point u_analytic) 2 1)) tt
    (mkTensor 2 [[0; 0]] true) = Real 0.
Proof.
  split; [|split; [exact four_pi4_positive|]].
  - unfold returns. eexists. eexists. split; [reflexivity|].
    simpl. unfold entry. simpl.
    rewrite Rmult_0_r, Ropp_0, ?exp_0, ?sin_0, ?cos_0. f_equal. field.
  - unfold interior_stated, laplace_residual. simpl. unfold entry. simpl.
    rewrite Rmult_0_r, Ropp_0, ?exp_0, ?sin_0, ?cos_0. f_equal. field.
Qed.

(** At every point (x, y) the generator can draw, the stated loss of that
    model is 0 and [interior] returns the square of twice its mixed
    derivative, -pi^2 exp(-pi x) cos(pi y). *)
Lemma interior_analytic_model (x y : R) :
  returns (interior scripted_draw) (start [x; y] (per_point u_analytic) 2 1)
    (Real ((2 * PI * PI * exp (- (PI * x)) * cos (PI * y)) ^ 2)) /\
  interior_stated (self (start [x; y] (per_point u_analytic) 2 1)) tt
    (mkTensor 2 [[x; y]] true) = Real 0.
Proof.
  split.
  - unfold returns. eexists. eexists. split; [reflexivity|].
    simpl. unfold entry. simpl. f_equal. field.
  - unfold interior_stated, laplace_residual. simpl. unfold entry. simpl.
    f_equal. field.
Qed.

(** The same on the harmonic polynomial u(x, y) = x y, for every point the
    generator can draw: the stated loss is 0, [interior] returns 4. *)
Lemma interior_product_model (x y : R) :
  returns (interior scripted_draw)
    (start [x; y] (per_point u_product) 2 1) (Real 4) /\
  interior_stated (self (start [x; y] (per_point u_product) 2 1)) tt
    (mkTensor 2 [[x; y]] true) = Real 0.
Proof.
  split.
  - unfold returns. eexists. eexists. split; [reflexivity|].
    simpl. unfold entry. simpl. f_equal. field.
  - unfold interior_stated, laplace_residual. simpl. unfold entry. simpl. f_equal. field.
Qed.

(** *** The bottom term and the shape of the model's output *)

(** C2, failing input: a model that returns exactly sin(pi x) in a column,
    shape (n, 1), as a module with one output feature does; two collocation
    points, two inputs, the generator drawing x = 0 and x = 1/2.  Point by
    point the model matches the boundary value, so the stated loss is 0;
    [bottom_boundary] subtracts a tensor of shape (2,) from one of shape
    (2, 1), which broadcasts to all four pairs, and returns 1/2. *)
Theorem bottom_broadcasts_column_output :
  returns (bottom_boundary scripted_draw)
    (start [0; 0; 1 / 2; 0] (per_point_column u_bottom) 2 2) (Real (1 / 2)) /\
  bottom_stated (self (start [0; 0; 1 / 2; 0] (per_point_column u_bottom) 2 2)) tt
    (mkTensor 2 [[0; 0]; [1 / 2; 0]] false) = Real 0.
Proof.
  assert (Hhalf : sin (PI * (1 / 2)) = 1).
  { replace (PI * (1 / 2)) with (PI / 2) by field. apply sin_PI2. }
  split.
  - unfold returns. eexists. eexists. split; [reflexivity|].
    simpl. rewrite Rmult_0_r, sin_0, Hhalf. f_equal. field.
  - unfold bottom_stated. simpl. rewrite Rmult_0_r, sin_0, Hhalf. f_equal. field.
Qed.

(** The scenario of the specification: the zero model, one collocation
    point, the generator drawing x = 0.3. *)
Lemma bottom_zero_model_one_point :
  returns (bottom_boundary scripted_draw)
    (start [3 / 10; 0] (constant_net 0) 2 1)
    (Real (sin (PI * (3 / 10)) * sin (PI * (3 / 10)))).
Proof.
  unfold returns. eexists. eexists. split; [reflexivity|].
  simpl. f_equal. field.
Qed.

End Instances.

(* ================================================================== *)
(** ** Further properties of the code                                   *)
(* ================================================================== *)

Import Python Setup Plot Analysis.

(** *** Lists laid out as grids *)

Lemma nth_map_seq {A} (F : nat -> A) (n r : nat) (d : A) :
  (r < n)%nat -> nth r (map F (seq 0 n)) d = F r.
Proof.
  intros Hr. rewrite (nth_indep _ d (F 0%nat)) by (now rewrite length_map, length_seq).
  rewrite (map_nth F (seq 0 n) 0%nat r). now rewrite seq_nth.
Qed.

Lemma length_grid {A B C} (g : A -> B -> C) (xs : list A) (ys : list B) :
  length (flat_map (fun x => map (g x) ys) xs) = (length xs * length ys)%nat.
Proof.
  induction xs as [|x xs IH]; [reflexivity|].
  cbn [flat_map length]. rewrite length_app, length_map, IH. lia.
Qed.

Lemma nth_grid {A B C} (g : A -> B -> C) (xs : list A) (ys : list B)
      (i j : nat) (da : A) (db : B) (dc : C) :
  (i < length xs)%nat -> (j < length ys)%nat ->
  nth (i * length ys + j) (flat_map (fun x => map (g x) ys) xs) dc
  = g (nth i xs da) (nth j ys db).
Proof.
  revert i; induction xs as [|x xs IH]; intros i Hi Hj; [cbn in Hi; lia|].
  cbn [flat_map]. destruct i as [|i].
  - cbn [Nat.mul Nat.add nth]. rewrite app_nth1 by (now rewrite length_map).
    rewrite (nth_indep _ dc (g x db)) by (now rewrite length_map).
    apply (map_nth (g x)).
  - rewrite app_nth2 by (rewrite length_map; lia).
    rewrite length_map.
    replace (S i * length ys + j - length ys)%nat with (i * length ys + j)%nat by lia.
    cbn [nth]. apply IH; [cbn in Hi; lia | assumption].
Qed.

Lemma firstn_length_app {A} (l r : list A) : firstn (length l) (l ++ r) = l.
Proof. induction l as [|x l IH]; [now destruct r | cbn; now rewrite IH]. Qed.

Lemma skipn_length_app {A} (l r : list A) : skipn (length l) (l ++ r) = r.
Proof. induction l as [|x l IH]; [reflexivity | exact IH]. Qed.

(** Cutting the concatenation of rows of equal width back into rows. *)
Lemma chunks_concat {A} (d : nat) (ls : list (list A)) (fuel : nat) :
  (1 <= d)%nat -> Forall (fun l => length l = d) ls -> (length ls <= fuel)%nat ->
  chunks fuel d (concat ls) = ls.
Proof.
  intros Hd Hls. revert fuel. induction Hls as [|l ls Hl Hls IH]; intros fuel Hf.
  - destruct fuel; reflexivity.
  - destruct fuel as [|fuel]; [cbn in Hf; lia|].
    cbn [concat]. destruct l as [|x l]; [cbn in Hl; lia|].
    cbn [app chunks]. change (x :: l ++ concat ls) with ((x :: l) ++ concat ls).
    rewrite <- Hl at 1 3. rewrite firstn_length_app, skipn_length_app. f_equal.
    apply IH. cbn in Hf. lia.
Qed.

Lemma chunks_singletons {A} (a : list A) : chunks (length a) 1 a = map (fun x => [x]) a.
Proof.
  assert (H : a = concat (map (fun x => [x]) a)).
  { induction a as [|x a IH]; [reflexivity|]. cbn. now rewrite <- IH. }
  rewrite H at 2. apply chunks_concat; [lia | | now rewrite length_map].
  apply Forall_forall. intros l Hl. apply in_map_iff in Hl. now destruct Hl as [x [<- _]].
Qed.

Lemma concat_length_rows {A} (d : nat) (ls : list (list A)) :
  Forall (fun l => length l = d) ls -> length (concat ls) = (length ls * d)%nat.
Proof.
  induction 1 as [|l ls Hl _ IH]; [reflexivity|].
  cbn [concat length]. rewrite length_app, IH, Hl. lia.
Qed.

Lemma view_rows_constants (k : nat) (rs : list (list R)) :
  view_rows false k rs = concat (map (map Const) rs).
Proof.
  revert k; induction rs as [|r rs IH]; intros k; [reflexivity|].
  cbn [view_rows view_row map concat]. now rewrite IH.
Qed.

Lemma view_rows_leaves (d k : nat) (rs : list (list R)) :
  Forall (fun r => length r = d) rs ->
  view_rows true k rs
  = concat (map (fun i => map (fun j => Leaf i j) (seq 0 d)) (seq k (length rs))).
Proof.
  intros Hrs. revert k. induction Hrs as [|r rs Hr Hrs IH]; intros k; [reflexivity|].
  cbn [view_rows view_row length seq map concat]. now rewrite IH, Hr.
Qed.

(** A model that applies [u] to every row sees the rows of the batch. *)
Lemma per_point_rows_constants (u : list expr -> expr) (d : nat) (rs : list (list R)) :
  (1 <= d)%nat -> Forall (fun r => length r = d) rs ->
  map u (chunks (length (view_rows false 0 rs)) d (view_rows false 0 rs))
  = map (fun r => u (map Const r)) rs.
Proof.
  intros Hd Hrs. rewrite view_rows_constants.
  assert (Hw : Forall (fun l : list expr => length l = d) (map (map Const) rs)).
  { apply Forall_forall. intros l Hl. apply in_map_iff in Hl.
    destruct Hl as [r [<- Hr]]. rewrite length_map.
    rewrite Forall_forall in Hrs. now apply Hrs. }
  rewrite chunks_concat; [now rewrite map_map | assumption | assumption |].
  rewrite (concat_length_rows d) by assumption. rewrite length_map. nia.
Qed.

Lemma per_point_rows_leaves (u : list expr -> expr) (d : nat) (rs : list (list R)) :
  (1 <= d)%nat -> Forall (fun r => length r = d) rs ->
  map u (chunks (length (view_rows true 0 rs)) d (view_rows true 0 rs))
  = map (fun i => u (map (fun j => Leaf i j) (seq 0 d))) (seq 0 (length rs)).
Proof.
  intros Hd Hrs. rewrite (view_rows_leaves d) by assumption.
  assert (Hw : Forall (fun l : list expr => length l = d)
                 (map (fun i => map (fun j => Leaf i j) (seq 0 d)) (seq 0 (length rs)))).
  { apply Forall_forall. intros l Hl. apply in_map_iff in Hl.
    destruct Hl as [i [<- _]]. now rewrite length_map, length_seq. }
  rewrite chunks_concat; [now rewrite map_map | assumption | assumption |].
  rewrite (concat_length_rows d) by assumption. rewrite length_map, length_seq. nia.
Qed.

Lemma sum_app (a b : list R) : sum (a ++ b) = sum a + sum b.
Proof.
  unfold sum. induction a as [|x a IH]; cbn [app fold_right]; [lra | rewrite IH; lra].
Qed.

Lemma sum_zero {A} (F : A -> R) (l : list A) :
  (forall x, In x l -> F x = 0) -> sum (map F l) = 0.
Proof.
  unfold sum. induction l as [|x l IH]; intros H; [reflexivity|].
  cbn [map fold_right]. rewrite IH, (H x) by (cbn; auto; intros; apply H; cbn; auto). lra.
Qed.

Lemma sum_single (F : nat -> R) (n i : nat) :
  (i < n)%nat -> (forall k, k <> i -> F k = 0) -> sum (map F (seq 0 n)) = F i.
Proof.
  intros Hi Hz.
  replace n with (i + S (n - S i))%nat by lia.
  rewrite seq_app, map_app, sum_app. cbn [seq map Nat.add].
  change (F i :: map F (seq (S i) (n - S i))) with ([F i] ++ map F (seq (S i) (n - S i))).
  rewrite sum_app, !sum_zero.
  - cbn. lra.
  - intros k Hk. apply in_seq in Hk. apply Hz. lia.
  - intros k Hk. apply in_seq in Hk. apply Hz. lia.
Qed.

Lemma sum_pairs {A} (f : expr -> R) (D : A -> nat -> expr) (l : list A) :
  sum (map f (flat_map (fun k => map (D k) (seq 0 2)) l))
  = sum (map (fun k => f (D k 0%nat) + f (D k 1%nat)) l).
Proof.
  induction l as [|k l IH]; [reflexivity|].
  cbn [flat_map seq map]. cbn [app map sum fold_right].
  fold (sum (map f (flat_map (fun k => [D k 0%nat; D k 1%nat]) l))).
  change (flat_map (fun k0 => [D k0 0%nat; D k0 1%nat]) l)
    with (flat_map (fun k => map (D k) (seq 0 2)) l).
  rewrite IH. fold (sum (map (fun k => f (D k 0%nat) + f (D k 1%nat)) l)). lra.
Qed.

Lemma zip_add_maps {A} (f g : A -> R) (l : list A) :
  zip_add (map f l) (map g l) = map (fun x => f x + g x) l.
Proof. induction l as [|x l IH]; [reflexivity|]. cbn. now rewrite IH. Qed.

Lemma map_rows_by_index {A} (h : list R -> A) (rs : list (list R)) :
  map (fun i => h (nth i rs [])) (seq 0 (length rs)) = map h rs.
Proof.
  induction rs as [|r rs IH]; [reflexivity|].
  cbn [length seq map nth]. f_equal. rewrite <- seq_shift, map_map. exact IH.
Qed.

Lemma map_zero_repeat {A} (F : A -> R) (l : list A) :
  (forall x, In x l -> F x = 0) -> map F l = repeat 0 (length l).
Proof.
  induction l as [|x l IH]; intros H; [reflexivity|].
  cbn [map length repeat]. rewrite (H x) by (now left). f_equal.
  apply IH. intros y Hy. apply H. now right.
Qed.

Lemma nth_app_offset {A} (l l' : list A) (m : nat) (d : A) :
  nth (length l + m) (l ++ l') d = nth m l' d.
Proof. rewrite app_nth2 by lia. f_equal. lia. Qed.

(** *** The supports of the feature maps *)

Section FeatureMap.

Lemma filter_none {A} (p : A -> bool) (l : list A) :
  (forall x, In x l -> p x = false) -> filter p l = [].
Proof.
  induction l as [|a l IH]; intros H; [reflexivity|].
  cbn [filter]. rewrite (H a (or_introl eq_refl)). apply IH.
  intros x Hx. apply H. now right.
Qed.

Lemma multiple_in_block (s k : nat) :
  (1 <= s)%nat ->
  filter (fun i => (i mod s =? 0)%nat) (seq (k * s) s) = [(k * s)%nat].
Proof.
  intros Hs. destruct s as [|s]; [lia|].
  cbn [seq filter]. rewrite Nat.Div0.mod_mul. cbn [Nat.eqb]. f_equal.
  apply filter_none. intros i Hi. apply in_seq in Hi.
  apply Nat.eqb_neq. intros Hmod.
  pose proof (Nat.div_mod_eq i (S s)) as Hdiv. rewrite Hmod in Hdiv.
  set (q := (i / S s)%nat) in *. clearbody q.
  assert (k < q)%nat by nia. assert (q < k + 1)%nat by nia. lia.
Qed.

Lemma multiples_below (s v : nat) :
  (1 <= s)%nat ->
  filter (fun i => (i mod s =? 0)%nat) (seq 0 (v * s)) = map (fun k => (k * s)%nat) (seq 0 v).
Proof.
  intros Hs. induction v as [|v IH]; [reflexivity|].
  replace (S v * s)%nat with (v * s + s)%nat by lia.
  rewrite seq_app, filter_app, IH. cbn [Nat.add].
  rewrite multiple_in_block by assumption.
  rewrite seq_S, map_app. reflexivity.
Qed.

Lemma multiples_prefix (s v n : nat) :
  (1 <= s)%nat -> (v * s <= n)%nat ->
  exists rest,
    filter (fun i => (i mod s =? 0)%nat) (seq 0 n)
    = map (fun k => (k * s)%nat) (seq 0 v) ++ rest.
Proof.
  intros Hs Hn. replace n with (v * s + (n - v * s))%nat by lia.
  rewrite seq_app, filter_app, multiples_below by assumption. eauto.
Qed.

Lemma supports_from_filter (n s : nat) (idx : list nat) :
  (1 <= s)%nat ->
  supports_from n s idx
  = Done (map (fun i => slice n i s) (filter (fun i => (i mod s =? 0)%nat) idx)).
Proof.
  intros Hs. induction idx as [|i idx IH]; [reflexivity|].
  cbn [supports_from filter]. unfold modulo.
  destruct (s =? 0)%nat eqn:E; [apply Nat.eqb_eq in E; lia|].
  rewrite IH. destruct (i mod s =? 0)%nat; reflexivity.
Qed.

Lemma firstn_seq_le (k a m : nat) : (k <= m)%nat -> firstn k (seq a m) = seq a k.
Proof.
  revert a m; induction k as [|k IH]; intros a [|m] H; cbn; try reflexivity; try lia.
  f_equal. apply IH. lia.
Qed.

Lemma slice_block (n s k : nat) :
  (k * s + s <= n)%nat -> slice n (k * s) s = seq (k * s) s.
Proof.
  intros H. unfold slice. rewrite skipn_seq, firstn_seq_le by lia. reflexivity.
Qed.

Lemma combine_app_r {A B} (l : list A) (a b : list B) :
  length l = length a -> combine l (a ++ b) = combine l a.
Proof.
  revert a; induction l as [|x l IH]; intros [|y a] H; try discriminate; cbn.
  - reflexivity.
  - f_equal. apply IH. now injection H.
Qed.

Variable V : Type.

(** The calls of [feature_map], in closed form. *)
Lemma feature_maps_run (n_qubits : nat) (variables : list V) :
  (1 <= length variables <= n_qubits)%nat ->
  feature_maps n_qubits variables
  = Done (map (fun kv => mkCall (n_qubits / length variables)
                                (seq (fst kv * (n_qubits / length variables))
                                     (n_qubits / length variables))
                                (snd kv))
              (combine (seq 0 (length variables)) variables)).
Proof.
  intros Hv. set (split := (n_qubits / length variables)%nat).
  unfold feature_maps, floordiv.
  destruct (length variables =? 0)%nat eqn:E; [apply Nat.eqb_eq in E; lia|].
  fold split.
  assert (Hs : (1 <= split)%nat).
  { unfold split. apply Nat.div_str_pos. lia. }
  assert (Hle : (length variables * split <= n_qubits)%nat).
  { unfold split. apply Nat.Div0.mul_div_le. }
  unfold supports. rewrite supports_from_filter by assumption.
  f_equal.
  destruct (multiples_prefix split (length variables) n_qubits Hs Hle) as [rest ->].
  rewrite map_app, map_map.
  rewrite combine_app_r by (now rewrite length_map, length_seq).
  assert (Hgen : forall (vs : list V) k0,
            (k0 * split + length vs * split <= n_qubits)%nat ->
            map (fun ps => mkCall split (snd ps) (fst ps))
                (combine vs (map (fun x => slice n_qubits (x * split) split) (seq k0 (length vs))))
            = map (fun kv => mkCall split (seq (fst kv * split) split) (snd kv))
                  (combine (seq k0 (length vs)) vs)).
  { induction vs as [|x vs IH]; intros k0 Hk; [reflexivity|].
    cbn [length seq map combine fst snd].
    rewrite slice_block by (cbn [length] in Hk; lia).
    f_equal. apply IH. cbn [length] in Hk. lia. }
  apply Hgen. lia.
Qed.

Lemma blocks_concat (s : nat) (vs : list V) (k0 : nat) :
  flat_map (@fm_support V)
    (map (fun kv => mkCall s (seq (fst kv * s) s) (snd kv))
         (combine (seq k0 (length vs)) vs))
  = seq (k0 * s) (length vs * s).
Proof.
  revert k0; induction vs as [|x vs IH]; intros k0; [reflexivity|].
  cbn [length seq combine map flat_map fm_support fst].
  rewrite IH. replace (S k0 * s)%nat with (k0 * s + s)%nat by lia.
  rewrite <- seq_app. reflexivity.
Qed.

Lemma blocks_params (s : nat) (vs : list V) (k0 : nat) :
  map (@fm_param V)
    (map (fun kv => mkCall s (seq (fst kv * s) s) (snd kv))
         (combine (seq k0 (length vs)) vs))
  = vs.
Proof.
  revert k0; induction vs as [|x vs IH]; intros k0; [reflexivity|].
  cbn [length seq combine map fm_param snd]. now rewrite IH.
Qed.

(** X1. With at least one variable and at least as many qubits as
    variables, [zip] pairs the [k]-th variable with the block of
    [split = n // v] consecutive qubits that starts at [k * split]; the
    shorter last slice and every slice beyond the [v]-th are dropped.  So
    every variable gets a feature map, on exactly as many qubits as its
    [n_qubits] argument says; the supports are disjoint; and the last
    [n mod v] qubits of the register carry no feature map. *)
Theorem feature_maps_blocks (n_qubits : nat) (variables : list V) :
  (1 <= length variables <= n_qubits)%nat ->
  let split := (n_qubits / length variables)%nat in
  exists calls,
    feature_maps n_qubits variables = Done calls /\
    calls = map (fun kv => mkCall split (seq (fst kv * split) split) (snd kv))
                (combine (seq 0 (length variables)) variables) /\
    map (@fm_param V) calls = variables /\
    Forall (fun c => fm_n_qubits c = split /\ length (fm_support c) = split) calls /\
    NoDup (flat_map (@fm_support V) calls) /\
    forall q, In q (flat_map (@fm_support V) calls)
              <-> (q < n_qubits - n_qubits mod length variables)%nat.
Proof.
  intros Hv split. eexists. split; [exact (feature_maps_run n_qubits variables Hv)|].
  fold split. split; [reflexivity|].
  split; [apply blocks_params|].
  split.
  { apply Forall_forall. intros c Hc. apply in_map_iff in Hc.
    destruct Hc as [kv [<- _]]. cbn [fm_n_qubits fm_support].
    now rewrite length_seq. }
  rewrite blocks_concat. cbn [Nat.mul].
  split; [apply seq_NoDup|].
  intros q. rewrite in_seq.
  pose proof (Nat.div_mod_eq n_qubits (length variables)) as Hdm.
  fold split in Hdm. nia.
Qed.


End FeatureMap.

(** *** The grid and the two images of the plot *)

Section Visualisation.

Lemma linspace_length (a b : R) (n : nat) : length (linspace a b n) = n.
Proof.
  unfold linspace. destruct n as [|[|n]]; [reflexivity | reflexivity |].
  now rewrite length_map, length_seq.
Qed.

Lemma linspace_nth (n k : nat) :
  (k < n)%nat -> (2 <= n)%nat ->
  nth k (linspace 0 1 n) 0 = INR k / INR (n - 1).
Proof.
  intros Hk Hn. unfold linspace. destruct n as [|[|n]]; try lia.
  rewrite (nth_map_seq (fun k => 0 + INR k * ((1 - 0) / INR (S (S n) - 1)))) by assumption.
  assert (INR (S (S n) - 1) <> 0) by (apply not_0_INR; lia).
  field. assumption.
Qed.

Lemma linspace_unit (n k : nat) :
  (k < n)%nat -> 0 <= nth k (linspace 0 1 n) 0 <= 1.
Proof.
  intros Hk. destruct (le_lt_dec 2 n) as [Hn | Hn].
  - rewrite linspace_nth by assumption.
    assert (H1 : 0 < INR (n - 1)) by (apply lt_0_INR; lia).
    assert (H2 : INR k <= INR (n - 1)) by (apply le_INR; lia).
    assert (H3 : 0 <= INR k) by apply pos_INR.
    split.
    + apply Rmult_le_pos; [assumption | left; now apply Rinv_0_lt_compat].
    + apply (Rmult_le_reg_r (INR (n - 1))); [assumption|].
      unfold Rdiv. rewrite Rmult_assoc, Rinv_l by lra. lra.
  - assert (n = 1%nat) by lia. subst n. assert (k = 0%nat) by lia. subst k.
    cbn. lra.
Qed.

Lemma domain_length (n : nat) : length (domain n) = (n * n)%nat.
Proof.
  unfold domain, product. rewrite length_grid. unfold x_domain, y_domain.
  now rewrite !linspace_length.
Qed.

Lemma domain_point (n i j : nat) :
  (i < n)%nat -> (j < n)%nat ->
  nth (i * n + j) (domain n) [] = [nth i (x_domain n) 0; nth j (y_domain n) 0].
Proof.
  intros Hi Hj. unfold domain, product.
  rewrite <- (linspace_length 0 1 n) at 1. fold (y_domain n).
  apply (nth_grid (fun x y => [x; y])); unfold x_domain, y_domain;
    now rewrite linspace_length.
Qed.

Lemma domain_rows (n : nat) : Forall (fun r => length r = 2%nat) (domain n).
Proof.
  apply Forall_forall. intros r Hr. unfold domain, product in Hr.
  apply in_flat_map in Hr. destruct Hr as [x [_ Hr]].
  apply in_map_iff in Hr. destruct Hr as [y [<- _]]. reflexivity.
Qed.

Lemma domain_nonempty (n : nat) : (1 <= n)%nat -> exists p pts, domain n = p :: pts.
Proof.
  intros Hn. pose proof (domain_length n) as Hlen.
  destruct (domain n) as [|p pts]; [cbn in Hlen; nia | eauto].
Qed.

(** X3. The grid of the plot: [n * n] points of the closed unit square, the
    point of index [i * n + j] being [(x_i, y_j)] with [x_i = i / (n - 1)]
    and [y_j = j / (n - 1)]; it starts at the corner (0, 0) and ends at the
    corner (1, 1). *)
Theorem domain_grid (n : nat) :
  length (domain n) = (n * n)%nat /\
  (forall i j, (i < n)%nat -> (j < n)%nat ->
     nth (i * n + j) (domain n) [] = [nth i (x_domain n) 0; nth j (y_domain n) 0] /\
     0 <= nth i (x_domain n) 0 <= 1 /\ 0 <= nth j (y_domain n) 0 <= 1) /\
  (forall k, (k < n)%nat -> (2 <= n)%nat ->
     nth k (x_domain n) 0 = INR k / INR (n - 1) /\
     nth k (y_domain n) 0 = INR k / INR (n - 1)) /\
  ((2 <= n)%nat -> nth 0 (domain n) [] = [0; 0] /\ nth (n * n - 1) (domain n) [] = [1; 1]).
Proof.
  split; [apply domain_length|]. split; [|split].
  - intros i j Hi Hj. split; [now apply domain_point|].
    split; now apply linspace_unit.
  - intros k Hk Hn. split; now apply linspace_nth.
  - intros Hn. split.
    + change 0%nat with (0 * n + 0)%nat at 1.
      rewrite (domain_point n 0%nat 0%nat) by lia. unfold x_domain, y_domain.
      rewrite !linspace_nth by lia. cbn [INR]. f_equal; [|f_equal]; unfold Rdiv; ring.
    + replace (n * n - 1)%nat with ((n - 1) * n + (n - 1))%nat by nia.
      rewrite domain_point by lia. unfold x_domain, y_domain.
      rewrite !linspace_nth by lia.
      assert (INR (n - 1) <> 0) by (apply not_0_INR; lia).
      f_equal; [|f_equal]; now field.
Qed.

Lemma zip_mul_columns (f g : R -> R) (pts : list (list R)) :
  zip_mul (map f (map (fun r => nth 0 r 0) pts)) (map g (map (fun r => nth 1 r 0) pts))
  = map (fun r => f (nth 0 r 0) * g (nth 1 r 0)) pts.
Proof.
  induction pts as [|p pts IH]; [reflexivity|]. cbn [map zip_mul]. now rewrite IH.
Qed.

Lemma field_on_grid (h : R -> R -> R) (n i j : nat) :
  (i < n)%nat -> (j < n)%nat ->
  nth (i * n + j) (map (fun r => h (nth 0 r 0) (nth 1 r 0)) (domain n)) 0
  = h (nth i (x_domain n) 0) (nth j (y_domain n) 0).
Proof.
  intros Hi Hj.
  rewrite (nth_indep _ 0 ((fun r => h (nth 0 r 0) (nth 1 r 0)) []))
    by (rewrite length_map, domain_length; nia).
  rewrite (map_nth (fun r => h (nth 0 r 0) (nth 1 r 0))).
  now rewrite domain_point.
Qed.

Lemma reshape_square (n : nat) (vals : list R) :
  length vals = (n * n)%nat ->
  exists img,
    reshape n n vals = Done img /\ length img = n /\
    forall r c, (r < n)%nat -> (c < n)%nat ->
      length (nth r img []) = n /\ nth c (nth r img []) 0 = nth (r * n + c) vals 0.
Proof.
  intros Hlen. unfold reshape. rewrite Hlen, Nat.eqb_refl.
  eexists. split; [reflexivity|]. split; [now rewrite length_map, length_seq|].
  intros r c Hr Hc.
  rewrite (nth_map_seq (fun r => map (fun c => nth (r * n + c) vals 0) (seq 0 n)))
    by assumption.
  split; [now rewrite length_map, length_seq|].
  now apply (nth_map_seq (fun c => nth (r * n + c) vals 0)).
Qed.

Lemma nth_transpose (n : nat) (t : list (list R)) (r c : nat) :
  (r < n)%nat -> (c < length t)%nat ->
  nth c (nth r (transpose n t) []) 0 = nth r (nth c t []) 0.
Proof.
  intros Hr Hc. unfold transpose.
  rewrite (nth_map_seq (fun c => map (fun row => nth c row 0) t)) by assumption.
  rewrite (nth_indep _ 0 ((fun row => nth r row 0) [])) by (now rewrite length_map).
  rewrite (map_nth (fun row => nth r row 0)). reflexivity.
Qed.

Lemma analytic_sol_entries (n : nat) :
  (1 <= n)%nat ->
  exists img,
    analytic_sol n = Done img /\ length img = n /\
    forall r c, (r < n)%nat -> (c < n)%nat ->
      length (nth r img []) = n /\
      nth c (nth r img []) 0
      = exp (- PI * nth c (x_domain n) 0) * sin (PI * nth r (y_domain n) 0).
Proof.
  intros Hn. unfold analytic_sol.
  destruct (domain_nonempty n Hn) as [p [pts Hd]].
  assert (Hcol : forall j, column j (domain n) = Done (map (fun r => nth j r 0) (domain n))).
  { intros j. rewrite Hd. reflexivity. }
  rewrite !Hcol, zip_mul_columns.
  destruct (reshape_square n
              (map (fun r => exp (- PI * nth 0 r 0) * sin (PI * nth 1 r 0)) (domain n)))
    as [t [-> [Ht Hentry]]].
  { rewrite length_map. apply domain_length. }
  eexists. split; [reflexivity|].
  split; [unfold transpose; now rewrite length_map, length_seq|].
  intros r c Hr Hc. split.
  - unfold transpose.
    rewrite (nth_map_seq (fun c => map (fun row => nth c row 0) t)) by assumption.
    now rewrite length_map.
  - rewrite nth_transpose by (rewrite ?Ht; assumption).
    destruct (Hentry c r Hc Hr) as [_ ->].
    apply (field_on_grid (fun x y => exp (- PI * x) * sin (PI * y))); assumption.
Qed.

Variable P : Type.

Lemma dqc_sol_entries (model : module_t P) (theta : P) (m : R -> R -> R) (n : nat) :
  tvalues (domain n) (forward model theta (as_input (domain n)))
    = map (fun r => m (nth 0 r 0) (nth 1 r 0)) (domain n) ->
  exists img,
    dqc_sol model theta n = Done img /\ length img = n /\
    forall r c, (r < n)%nat -> (c < n)%nat ->
      length (nth r img []) = n /\
      nth c (nth r img []) 0 = m (nth r (x_domain n) 0) (nth c (y_domain n) 0).
Proof.
  intros Hm. unfold dqc_sol. rewrite Hm.
  destruct (reshape_square n (map (fun r => m (nth 0 r 0) (nth 1 r 0)) (domain n)))
    as [t [-> [Ht Hentry]]].
  { rewrite length_map. apply domain_length. }
  exists t. split; [reflexivity|]. split; [exact Ht|].
  intros r c Hr Hc. destruct (Hentry r c Hr Hc) as [Hl ->].
  split; [exact Hl|]. now apply field_on_grid.
Qed.

(** X4. The image of the reference solution.  Entry [(r, c)] is the formula
    of line 115 at [x_c] and [y_r]: after the transposition, rows run along
    [y] and columns along [x].  Without a single grid point the column read
    of line 115 fails. *)
Theorem analytic_sol_layout (n : nat) :
  (n = 0%nat -> analytic_sol n = Failed TooManyIndices) /\
  ((1 <= n)%nat ->
   exists img,
     analytic_sol n = Done img /\ length img = n /\
     forall r c, (r < n)%nat -> (c < n)%nat ->
       length (nth r img []) = n /\
       nth c (nth r img []) 0
       = exp (- PI * nth c (x_domain n) 0) * sin (PI * nth r (y_domain n) 0)).
Proof.
  split; [intros ->; reflexivity | apply analytic_sol_entries].
Qed.

(** X5. The image of the trained model.  When the model returns one value
    per grid point, in the order of the points, entry [(r, c)] of the image
    is the model at [x_r] and [y_c]: rows run along [x], columns along [y].
    When it returns another number of values, the [reshape] of line 117
    fails. *)
Theorem dqc_sol_layout (model : module_t P) (theta : P) (n : nat) :
  (forall m : R -> R -> R,
     tvalues (domain n) (forward model theta (as_input (domain n)))
       = map (fun r => m (nth 0 r 0) (nth 1 r 0)) (domain n) ->
     exists img,
       dqc_sol model theta n = Done img /\ length img = n /\
       forall r c, (r < n)%nat -> (c < n)%nat ->
         length (nth r img []) = n /\
         nth c (nth r img []) 0 = m (nth r (x_domain n) 0) (nth c (y_domain n) 0)) /\
  (length (telems (forward model theta (as_input (domain n)))) <> (n * n)%nat ->
   dqc_sol model theta n = Failed InvalidShape).
Proof.
  split; [intros m; apply dqc_sol_entries|].
  intros Hlen. unfold dqc_sol, reshape, tvalues. rewrite length_map.
  destruct (_ =? _)%nat eqn:E; [apply Nat.eqb_eq in E; contradiction | reflexivity].
Qed.

(** X6. What the model is compared with.  The two images agree entry by
    entry exactly for the field exp(-pi y) sin(pi x), the formula of
    line 115 with its arguments exchanged: a model that returns this field
    on the grid is drawn as the reference image is. *)
Theorem reference_image_is_swapped_field (model : module_t P) (theta : P) (n : nat) :
  (1 <= n)%nat ->
  tvalues (domain n) (forward model theta (as_input (domain n)))
    = map (fun r => exp (- PI * nth 1 r 0) * sin (PI * nth 0 r 0)) (domain n) ->
  exists reference image,
    analytic_sol n = Done reference /\
    dqc_sol model theta n = Done image /\
    length image = length reference /\
    forall r c, (r < n)%nat -> (c < n)%nat ->
      length (nth r image []) = length (nth r reference []) /\
      nth c (nth r image []) 0 = nth c (nth r reference []) 0.
Proof.
  intros Hn Hm.
  destruct (analytic_sol_entries n Hn) as [A [HA [HlA HAe]]].
  destruct (dqc_sol_entries model theta (fun x y => exp (- PI * y) * sin (PI * x)) n Hm)
    as [D [HD [HlD HDe]]].
  exists A, D. split; [exact HA|]. split; [exact HD|]. split; [congruence|].
  intros r c Hr Hc.
  destruct (HDe r c Hr Hc) as [-> ->]. destruct (HAe r c Hr Hc) as [-> ->].
  split; reflexivity.
Qed.

(** X7. A model that returns the formula of line 115 itself is drawn
    transposed: line 115 transposes the reference image, line 117 does not
    transpose the model's.  Entry [(r, c)] of the model's image is entry
    [(c, r)] of the reference image, and from three grid points per axis on
    the two images differ, at entry (1, 0). *)
Theorem exact_model_plotted_transposed (model : module_t P) (theta : P) (n : nat) :
  (1 <= n)%nat ->
  tvalues (domain n) (forward model theta (as_input (domain n)))
    = map (fun r => exp (- PI * nth 0 r 0) * sin (PI * nth 1 r 0)) (domain n) ->
  exists reference image,
    analytic_sol n = Done reference /\
    dqc_sol model theta n = Done image /\
    (forall r c, (r < n)%nat -> (c < n)%nat ->
       nth c (nth r image []) 0 = nth r (nth c reference []) 0) /\
    ((3 <= n)%nat ->
       nth 0 (nth 1 image []) 0 = 0 /\ 0 < nth 0 (nth 1 reference []) 0).
Proof.
  intros Hn Hm.
  destruct (analytic_sol_entries n Hn) as [A [HA [_ HAe]]].
  destruct (dqc_sol_entries model theta (fun x y => exp (- PI * x) * sin (PI * y)) n Hm)
    as [D [HD [_ HDe]]].
  exists A, D. split; [exact HA|]. split; [exact HD|]. split.
  - intros r c Hr Hc. destruct (HDe r c Hr Hc) as [_ ->].
    destruct (HAe c r Hc Hr) as [_ ->]. reflexivity.
  - intros H3.
    destruct (HDe 1%nat 0%nat ltac:(lia) ltac:(lia)) as [_ ->].
    destruct (HAe 1%nat 0%nat ltac:(lia) ltac:(lia)) as [_ ->].
    unfold x_domain, y_domain. rewrite !linspace_nth by lia.
    change (INR 0) with 0. change (INR 1) with 1.
    replace (0 / INR (n - 1)) with 0 by (unfold Rdiv; ring).
    rewrite !Rmult_0_r, sin_0, exp_0.
    split; [ring|]. rewrite Rmult_1_l.
    assert (Hpos : 0 < INR (n - 1)) by (apply lt_0_INR; lia).
    assert (H2 : 2 <= INR (n - 1)).
    { change 2 with (INR 2). apply le_INR. lia. }
    assert (HPI := PI_RGT_0).
    apply sin_gt_0.
    + apply Rmult_lt_0_compat; [assumption|].
      unfold Rdiv. rewrite Rmult_1_l. now apply Rinv_0_lt_compat.
    + unfold Rdiv. rewrite Rmult_1_l.
      rewrite <- (Rmult_1_r PI) at 2. apply Rmult_lt_compat_l; [assumption|].
      rewrite <- Rinv_1. apply Rinv_lt_contravar; lra.
Qed.

End Visualisation.

(** *** Sampling: the draws a batch is made of, and the ways to fail *)

Section Sampling.

Variable G : Type.
Variable draw : G -> R * G.
Variable P : Type.
Variable Gr : Type.
Variable Opt : Type.

Local Abbreviation world := (QadenceTrial.world G P Gr Opt).
Local Abbreviation method := (@QadenceTrial.method G draw P Gr Opt).
Local Abbreviation bottom_boundary := (@QadenceTrial.bottom_boundary G draw P Gr Opt).
Local Abbreviation drawn := (@Meaning.drawn G draw P Gr Opt).
Local Abbreviation gen_after := (@Meaning.gen_after G draw P Gr Opt).
Local Abbreviation batch_of := (@Meaning.batch_of G draw P Gr Opt).
Local Abbreviation returns := (@Meaning.returns G P Gr Opt).

Lemma advance_add (a b : nat) (g : G) :
  advance draw (a + b) g = advance draw b (advance draw a g).
Proof.
  revert g; induction a as [|a IH]; intros g; [reflexivity|]. cbn. apply IH.
Qed.

Lemma stream_advance (a b : nat) (g : G) :
  stream draw (advance draw a g) b = stream draw g (a + b).
Proof. unfold stream. now rewrite advance_add. Qed.

Lemma draw_row_stream (d : nat) (g : G) :
  draw_row draw d g = (map (stream draw g) (seq 0 d), advance draw d g).
Proof.
  revert g; induction d as [|d IH]; intros g; [reflexivity|].
  cbn [draw_row]. destruct (draw g) as [x g1] eqn:E. rewrite IH.
  cbn [seq map advance]. rewrite E. cbn [snd]. f_equal. f_equal.
  - unfold stream. cbn. now rewrite E.
  - rewrite <- seq_shift, map_map. apply map_ext. intros k.
    unfold stream. cbn. now rewrite E.
Qed.

Lemma draw_rows_stream (n d : nat) (g : G) :
  draw_rows draw n d g
  = (map (fun i => map (fun j => stream draw g (i * d + j)) (seq 0 d)) (seq 0 n),
     advance draw (n * d) g).
Proof.
  revert g; induction n as [|n IH]; intros g; [reflexivity|].
  cbn [draw_rows]. rewrite draw_row_stream, IH.
  cbn [seq map]. f_equal.
  - f_equal. rewrite <- seq_shift, map_map. apply map_ext. intros i.
    apply map_ext. intros j. rewrite stream_advance. f_equal. lia.
  - rewrite <- advance_add. f_equal.
Qed.

Lemma good_size (w : world) :
  bad_size w = false <-> (0 <= n_colpoints (self w) /\ 0 <= n_inputs (self w))%Z.
Proof.
  unfold bad_size. rewrite orb_false_iff, !Z.ltb_ge. tauto.
Qed.

(** The state a method leaves when the sizes are not negative. *)
Lemma method_gen_store (k : sampler) (w : world) :
  bad_size w = false ->
  gen (snd (method k w)) = advance draw (batch_draws w) (gen w) /\
  store (snd (method k w)) = store w ++ [batch_of k w].
Proof.
  intros Hs. split.
  - rewrite (method_run G draw P Gr Opt). unfold method_result. rewrite Hs.
    cbn [snd]. unfold allocated, Meaning.gen_after, batch_draws. cbn [gen set_store set_gen].
    now rewrite draw_rows_stream.
  - unfold Meaning.batch_of. rewrite (method_run G draw P Gr Opt). unfold method_result. rewrite Hs.
    cbn [snd]. unfold allocated. cbn [store set_store]. now rewrite nth_fresh.
Qed.

(** X8. Every method fills its batch, row by row, with the next
    [n_colpoints * n_inputs] draws of the generator and leaves the generator
    right after them; apart from the pinned column, the batch it stores
    holds exactly these draws. *)
Theorem batch_from_stream (k : sampler) (w : world) :
  bad_size w = false ->
  let n := Z.to_nat (n_colpoints (self w)) in
  let d := width w in
  gen (snd (method k w)) = advance draw (n * d) (gen w) /\
  store (snd (method k w)) = store w ++ [batch_of k w] /\
  forall i c, (i < n)%nat -> (c < d)%nat ->
    (forall v, pin k <> Some (c, v)) ->
    entry (rows (batch_of k w)) i c = stream draw (gen w) (i * d + c).
Proof.
  intros Hs n d.
  assert (Hdrawn : drawn w
            = map (fun i => map (fun j => stream draw (gen w) (i * d + j)) (seq 0 d)) (seq 0 n)).
  { unfold Meaning.drawn. fold n. fold d. now rewrite draw_rows_stream. }
  assert (Hentry : forall i c, (i < n)%nat -> (c < d)%nat ->
            entry (drawn w) i c = stream draw (gen w) (i * d + c)).
  { intros i c Hi Hc. rewrite Hdrawn. unfold entry.
    rewrite (nth_map_seq (fun i => map (fun j => stream draw (gen w) (i * d + j)) (seq 0 d)))
      by assumption.
    now apply (nth_map_seq (fun j => stream draw (gen w) (i * d + j))). }
  destruct (method_gen_store k w Hs) as [Hgen Hstore].
  split; [exact Hgen|]. split; [exact Hstore|].
  intros i c Hi Hc Hpin. rewrite (batch_of_run G draw P Gr Opt) by assumption.
  unfold outcome. destruct (pin k) as [[j v]|] eqn:Hk.
  - destruct (j <? width w)%nat; cbn [snd rows]; [|now apply Hentry].
    assert (Hcj : c <> j) by (intros ->; now apply (Hpin v)).
    unfold entry.
    rewrite (nth_indep _ [] (set_nth j v [])) by (rewrite length_map, (drawn_length G draw P Gr Opt); exact Hi).
    rewrite (map_nth (set_nth j v)). rewrite set_nth_other by assumption.
    now apply Hentry.
  - cbn [snd rows]. now apply Hentry.
Qed.

Lemma bottom_value_error (s : DomainSampling P) (theta : P) (b : tensor) (e : exn) :
  bottom_value s theta b = Raise e -> e = RuntimeError SizeMismatch.
Proof.
  unfold bottom_value. destruct (sub_bcast _ _ _) as [x|e'] eqn:E; [discriminate|].
  intros H. injection H as <-. unfold sub_bcast in E.
  destruct (_ || _ || _); [discriminate|]. now injection E.
Qed.

(** X9. How a boundary method can fail before the model is called.  A
    negative size makes [rand] raise, with nothing drawn and nothing stored.
    A pinned column that the batch does not have makes the column assignment
    raise [IndexError]: by then the batch is drawn, so the generator has
    advanced and the batch, not pinned, stays behind.  These are the only
    ways for [left_boundary], [right_boundary] and [top_boundary] not to
    return. *)
Theorem boundary_failure_modes (k : sampler) (j : nat) (v : R) (w : world) :
  pin k = Some (j, v) ->
  (fst (method k w) = Raise (RuntimeError NegativeDimension)
     <-> (n_colpoints (self w) < 0 \/ n_inputs (self w) < 0)%Z) /\
  ((n_colpoints (self w) < 0 \/ n_inputs (self w) < 0)%Z -> snd (method k w) = w) /\
  (fst (method k w) = Raise IndexError
     <-> (0 <= n_colpoints (self w) /\ 0 <= n_inputs (self w) <= Z.of_nat j)%Z) /\
  (fst (method k w) = Raise IndexError ->
     gen (snd (method k w)) = gen_after w /\
     store (snd (method k w)) = store w ++ [mkTensor (width w) (drawn w) false]) /\
  (k <> Bottom ->
     ((exists l, fst (method k w) = Ok l)
        <-> (0 <= n_colpoints (self w) /\ Z.of_nat j < n_inputs (self w))%Z)).
Proof.
  intros Hpin. rewrite (method_run G draw P Gr Opt). unfold method_result.
  pose proof (good_size w) as Hgood.
  destruct (bad_size w) eqn:Hs.
  - assert (Hneg : (n_colpoints (self w) < 0 \/ n_inputs (self w) < 0)%Z).
    { unfold bad_size in Hs. apply orb_true_iff in Hs.
      destruct Hs as [H | H]; apply Z.ltb_lt in H; auto. }
    cbn [fst snd].
    split; [tauto|]. split; [reflexivity|].
    split; [split; [intros H; discriminate H | lia]|].
    split; [intros H; discriminate H|].
    intros _. split; [intros [l Hl]; discriminate Hl | lia].
  - destruct (proj1 Hgood eq_refl) as [Hn Hd].
    unfold outcome. rewrite Hpin. unfold width.
    destruct (j <? Z.to_nat (n_inputs (self w)))%nat eqn:Hj.
    + apply Nat.ltb_lt in Hj. cbn [fst snd].
      set (b := {| ncols := Z.to_nat (n_inputs (self w));
                   rows := map (set_nth j v) (drawn w); requires_grad := false |}).
      assert (Hcase : exists r,
                 match k with
                 | Bottom => bottom_value (self w) (params w) b
                 | _ => Ok (homogeneous_value (self w) (params w) b)
                 end = r /\
                 (r = Raise (RuntimeError SizeMismatch) /\ k = Bottom \/ exists x, r = Ok x)).
      { eexists. split; [reflexivity|].
        destruct k; try (right; eexists; reflexivity).
        destruct (bottom_value (self w) (params w) b) as [x|e] eqn:E; [right; eauto|].
        left. split; [|reflexivity]. f_equal. now apply (bottom_value_error _ _ _ _ E). }
      destruct Hcase as [r [-> Hr]].
      destruct Hr as [[-> Hk] | [x ->]]; cbn [tagged].
      * split; [split; [intros H; discriminate H | lia]|].
        split; [lia|].
        split; [split; [intros H; discriminate H | lia]|].
        split; [intros H; discriminate H|].
        intros Hne. congruence.
      * split; [split; [intros H; discriminate H | lia]|].
        split; [lia|].
        split; [split; [intros H; discriminate H | lia]|].
        split; [intros H; discriminate H|].
        intros _. split; [lia | intros _; eexists; reflexivity].
    + apply Nat.ltb_ge in Hj. cbn [fst snd tagged].
      unfold allocated. cbn [gen store set_store set_gen].
      split; [split; [intros H; discriminate H | lia]|].
      split; [lia|].
      split; [split; [lia | reflexivity]|].
      split; [intros _; split; reflexivity|].
      intros _. split; [intros [l Hl]; discriminate Hl | lia].
Qed.

(** *** The bottom term and the shape of the model's output, in general *)

Lemma sub_row_one (n : nat) (x : R) (v : list R) :
  length v = n -> sub_row 1 n [x] v = map (fun y => x - y) v.
Proof.
  intros <-. unfold sub_row. destruct v as [|y [|z v]]; reflexivity.
Qed.

Lemma sub_bcast_column (a v : list R) :
  sub_bcast [length v; 1%nat] a v = Ok (flat_map (fun x => map (fun y => x - y) v) a).
Proof.
  unfold sub_bcast, last_dim. cbn [last]. rewrite Nat.eqb_refl, orb_true_r. cbn [orb].
  f_equal. rewrite chunks_singletons, flat_map_concat_map, map_map, <- flat_map_concat_map.
  apply flat_map_ext. intros x. now apply sub_row_one.
Qed.

Lemma bottom_run (w : world) :
  (0 <= n_colpoints (self w))%Z -> (2 <= n_inputs (self w))%Z ->
  batch_of Bottom w = mkTensor (width w) (map (set_nth 1 0) (drawn w)) false /\
  bottom_boundary w
  = (tagged Bottom (length (store w))
       (bottom_value (self w) (params w) (batch_of Bottom w)),
     allocated draw (batch_of Bottom w) w).
Proof.
  intros Hn Hd.
  assert (Hs : bad_size w = false) by (apply good_size; lia).
  assert (H1 : (1 <? width w)%nat = true) by (apply Nat.ltb_lt; unfold width; lia).
  assert (Hb : batch_of Bottom w = mkTensor (width w) (map (set_nth 1 0) (drawn w)) false).
  { rewrite (batch_of_run G draw P Gr Opt) by assumption. unfold outcome. cbn [pin]. now rewrite H1. }
  split; [exact Hb|].
  rewrite Hb. change bottom_boundary with (method Bottom).
  rewrite (method_run G draw P Gr Opt). unfold method_result. rewrite Hs. unfold outcome. cbn [pin].
  now rewrite H1.
Qed.

(** X10. What [bottom_boundary] returns depends on the shape of the model's
    output.  For the shape [(n,)] it is the mean, over the [n] points, of
    the squared difference between the output at a point and sin(pi x) at
    the same point.  For the shape [(n, 1)], as a module with one output
    feature returns it, the subtraction broadcasts and it is the mean over
    all [n * n] pairs of an output and a boundary value: every output is
    compared with sin(pi x) at every sampled point. *)
Theorem bottom_boundary_by_output_shape (w : world) :
  (0 <= n_colpoints (self w))%Z ->
  (2 <= n_inputs (self w))%Z ->
  let b := batch_of Bottom w in
  let values := net_values (self w) (params w) b in
  let shape := fst (net_out (self w) (params w) b) in
  (shape = [length (rows b)] -> length values = length (rows b) ->
   returns bottom_boundary w
     (mean (pow2 (zip_sub values (map (fun x => sin (PI * nth 0 x 0)) (rows b)))))) /\
  (shape = [length (rows b); 1%nat] ->
   returns bottom_boundary w
     (mean (pow2 (flat_map (fun u => map (fun x => u - sin (PI * nth 0 x 0)) (rows b))
                           values)))).
Proof.
  intros Hn Hd b values shape.
  destruct (bottom_run w Hn Hd) as [Hb Hrun]. fold b in Hrun.
  unfold returns, Meaning.returns. rewrite Hrun.
  unfold bottom_value. fold shape. fold values.
  assert (Hlen : length (rows b)
                 = length (map (fun v => sin (PI * v)) (map (fun r => nth 0 r 0) (rows b))))
    by (now rewrite !length_map).
  split.
  - intros Hsh Hvals. rewrite Hsh, Hlen.
    rewrite sub_bcast_flat by (now rewrite <- Hlen).
    cbn [tagged]. eexists. eexists. split; [reflexivity|]. cbn [item].
    now rewrite map_map.
  - intros Hsh. rewrite Hsh, Hlen, sub_bcast_column. cbn [tagged].
    eexists. eexists. split; [reflexivity|]. cbn [item]. f_equal. f_equal.
    apply flat_map_ext. intros u. now rewrite !map_map.
Qed.

(** X11. When the last dimension of the model's output is neither 1 nor
    the number of collocation points, and there is more than one point, the
    subtraction of line 70 cannot broadcast: [bottom_boundary] raises
    [RuntimeError], after the batch was drawn and stored. *)
Theorem bottom_boundary_size_mismatch (w : world) :
  (0 <= n_colpoints (self w))%Z ->
  (2 <= n_inputs (self w))%Z ->
  let b := batch_of Bottom w in
  let q := last_dim (fst (net_out (self w) (params w) b)) in
  q <> Z.to_nat (n_colpoints (self w)) -> q <> 1%nat ->
  n_colpoints (self w) <> 1%Z ->
  bottom_boundary w = (Raise (RuntimeError SizeMismatch), allocated draw b w).
Proof.
  intros Hn Hd b q Hq Hq1 Hn1.
  destruct (bottom_run w Hn Hd) as [Hb Hrun]. fold b in Hrun. rewrite Hrun.
  unfold bottom_value, sub_bcast. fold q.
  rewrite !length_map.
  assert (Hlen : length (rows b) = Z.to_nat (n_colpoints (self w))).
  { unfold b. rewrite Hb. cbn [rows]. rewrite length_map. apply (drawn_length G draw P Gr Opt). }
  rewrite Hlen.
  destruct (q =? Z.to_nat (n_colpoints (self w)))%nat eqn:E1;
    [apply Nat.eqb_eq in E1; contradiction|].
  destruct (q =? 1)%nat eqn:E2; [apply Nat.eqb_eq in E2; contradiction|].
  destruct (Z.to_nat (n_colpoints (self w)) =? 1)%nat eqn:E3;
    [apply Nat.eqb_eq in E3; lia|].
  reflexivity.
Qed.

(** X12. With [n_colpoints = 0] every boundary method returns [nan] for a
    model that returns one scalar per point: the batch is empty, and so is
    the tensor whose mean is taken. *)
Theorem boundary_empty_batch_nan (k : sampler) (w : world) :
  per_point_model (self w) ->
  n_colpoints (self w) = 0%Z ->
  (2 <= n_inputs (self w))%Z ->
  k <> Interior ->
  returns (method k) w NaN.
Proof.
  intros Hpp Hn Hd Hk.
  assert (Hs : bad_size w = false) by (apply good_size; lia).
  assert (Hdrawn : drawn w = []).
  { pose proof (drawn_length G draw P Gr Opt w) as Hl. rewrite Hn in Hl.
    now destruct (drawn w). }
  assert (H0 : (0 <? width w)%nat = true) by (apply Nat.ltb_lt; unfold width; lia).
  assert (H1 : (1 <? width w)%nat = true) by (apply Nat.ltb_lt; unfold width; lia).
  assert (Hvals : forall b, rows b = [] -> net_values (self w) (params w) b = []).
  { intros b Hb. destruct (Hpp (params w) b) as [Hlen _]. rewrite Hb in Hlen.
    unfold net_values. destruct (snd (net_out (self w) (params w) b)); [reflexivity | discriminate]. }
  unfold returns, Meaning.returns. rewrite (method_run G draw P Gr Opt). unfold method_result.
  rewrite Hs, Hdrawn. unfold outcome.
  destruct k; try congruence; cbn [pin]; rewrite ?H0, ?H1; cbn [fst snd map tagged].
  - eexists. eexists. split; [reflexivity|]. cbn [item]. unfold homogeneous_value.
    now rewrite Hvals.
  - eexists. eexists. split; [reflexivity|]. cbn [item]. unfold homogeneous_value.
    now rewrite Hvals.
  - eexists. eexists. split; [reflexivity|]. cbn [item]. unfold homogeneous_value.
    now rewrite Hvals.
  - unfold bottom_value. rewrite Hvals by reflexivity. cbn [rows map].
    destruct (Hpp (params w) (mkTensor (width w) [] false)) as [_ [-> | ->]];
      cbn [rows length]; unfold sub_bcast, last_dim; cbn;
      eexists; eexists; split; reflexivity.
Qed.

End Sampling.

(** *** The residual that [interior] squares *)

Section InteriorTerm.

Lemma accum_none_r (a : option expr) : accum a None = a.
Proof. now destruct a. Qed.

Lemma backprop_absent (e : expr) (i : nat) :
  reaches e i = false -> forall g j, backprop g e i j = None.
Proof.
  induction e as [c | i' j' | a IHa b IHb | a IHa b IHb | a IHa b IHb
                  | a IHa | a IHa | a IHa | a IHa]; cbn [reaches backprop]; intros H g j;
    try (apply orb_false_iff in H; destruct H as [Ha Hb]; now rewrite IHa, IHb);
    try (now apply IHa).
  - reflexivity.
  - now rewrite H.
Qed.

Lemma reaches_accum (a b : option expr) (r : nat) :
  reaches (or_zero a) r = false -> reaches (or_zero b) r = false ->
  reaches (or_zero (accum a b)) r = false.
Proof.
  destruct a, b; cbn; intros Ha Hb; rewrite ?Ha, ?Hb; auto.
Qed.

Lemma reaches_backprop (e : expr) (r : nat) :
  reaches e r = false ->
  forall g i j, reaches g r = false -> reaches (or_zero (backprop g e i j)) r = false.
Proof.
  induction e as [c | i' j' | a IHa b IHb | a IHa b IHb | a IHa b IHb
                  | a IHa | a IHa | a IHa | a IHa]; cbn [reaches backprop]; intros H g i j Hg.
  - reflexivity.
  - destruct (_ && _); [exact Hg | reflexivity].
  - apply orb_false_iff in H. destruct H as [Ha Hb].
    apply reaches_accum; [now apply IHa | now apply IHb].
  - apply orb_false_iff in H. destruct H as [Ha Hb].
    apply reaches_accum; [now apply IHa | now apply IHb].
  - apply orb_false_iff in H. destruct H as [Ha Hb].
    apply reaches_accum; [apply IHa | apply IHb]; auto; cbn; now rewrite Hg, ?Ha, ?Hb.
  - now apply IHa.
  - apply IHa; auto. cbn. now rewrite Hg, H.
  - apply IHa; auto. cbn. now rewrite Hg, H.
  - apply IHa; auto. cbn. now rewrite Hg, H.
Qed.

Lemma grad_elem_none (outs gos : list expr) (i j : nat) :
  (forall k, reaches (nth k outs (Const 0)) i = false) ->
  grad_elem outs gos i j = None.
Proof.
  revert gos; induction outs as [|o outs IH]; intros gos H; [reflexivity|].
  destruct gos as [|g gos]; [reflexivity|]. cbn [grad_elem].
  rewrite (backprop_absent o i (H 0%nat)). cbn [accum].
  apply IH. intros k. apply (H (S k)).
Qed.

(** When the output of a row depends on that row only, the entry [(i, j)]
    of the gradient is the derivative of the output of row [i] alone. *)
Lemma grad_elem_pick (outs : list expr) (p i j : nat) :
  (forall k, k <> p -> reaches (nth k outs (Const 0)) i = false) ->
  grad_elem outs (map (fun _ => Const 1) outs) i j
  = backprop (Const 1) (nth p outs (Const 0)) i j.
Proof.
  revert p; induction outs as [|o outs IH]; intros p H.
  - destruct p; reflexivity.
  - cbn [map grad_elem]. destruct p as [|p].
    + rewrite grad_elem_none; [apply accum_none_r|].
      intros k. apply (H (S k)). discriminate.
    + rewrite (backprop_absent o i (H 0%nat ltac:(discriminate))). cbn [accum nth].
      apply IH. intros k Hk. apply (H (S k)). congruence.
Qed.

Lemma eval_grad_elem (env : list (list R)) (outs : list expr) (i j : nat) :
  eval env (or_zero (grad_elem outs (map (fun _ => Const 1) outs) i j))
  = sum (map (fun e => eval env (or_zero (backprop (Const 1) e i j))) outs).
Proof.
  induction outs as [|o outs IH]; [reflexivity|].
  cbn [map grad_elem sum fold_right]. rewrite eval_accum.
  fold (sum (map (fun e => eval env (or_zero (backprop (Const 1) e i j))) outs)).
  now rewrite IH.
Qed.

Section Batch.

Variable rs : list (list R).
Variable outs : list expr.
Hypothesis local : row_local outs.

Let b : tensor := mkTensor 2 rs true.
Let ones (es : list expr) : list expr := map (fun _ => Const 1) es.
Let first_both : list expr := grad_elems b outs (ones outs).
Let second_both : list expr := grad_elems b first_both (ones first_both).

Lemma first_both_rows :
  first_both
  = flat_map (fun k => map (fun l => or_zero (backprop (Const 1) (nth k outs (Const 0)) k l))
                           (seq 0 2))
             (seq 0 (length rs)).
Proof.
  unfold first_both, grad_elems, grad_row, b, ones. cbn [rows ncols].
  apply flat_map_ext. intros k. apply map_ext. intros l.
  rewrite (grad_elem_pick outs k k l); [reflexivity|].
  intros k' Hk'. now apply local.
Qed.

Lemma second_both_entry (i j : nat) :
  (i < length rs)%nat ->
  eval rs (or_zero (grad_elem first_both (ones first_both) i j))
  = eval rs (second_mixed (nth i outs (Const 0)) i j 0)
    + eval rs (second_mixed (nth i outs (Const 0)) i j 1).
Proof.
  intros Hi. unfold ones. rewrite eval_grad_elem, first_both_rows.
  rewrite (sum_pairs (fun e => eval rs (or_zero (backprop (Const 1) e i j)))
             (fun k l => or_zero (backprop (Const 1) (nth k outs (Const 0)) k l))).
  rewrite (sum_single _ (length rs) i Hi); [reflexivity|].
  intros k Hk.
  assert (Hnone : forall l,
            backprop (Const 1) (or_zero (backprop (Const 1) (nth k outs (Const 0)) k l)) i j
            = None).
  { intros l. apply backprop_absent. apply reaches_backprop; [|reflexivity].
    apply local. congruence. }
  cbv beta. rewrite !Hnone. cbn [or_zero eval]. lra.
Qed.

Lemma second_both_columns (j : nat) :
  (j < 2)%nat ->
  tcol [length rs; 2%nat] (map (eval rs) second_both) j
  = Ok (map (fun i => eval rs (second_mixed (nth i outs (Const 0)) i j 0)
                      + eval rs (second_mixed (nth i outs (Const 0)) i j 1))
            (seq 0 (length rs))).
Proof.
  intros Hj. unfold tcol.
  replace (j <? 2)%nat with true by (symmetry; now apply Nat.ltb_lt).
  f_equal. apply map_ext_in. intros i Hi. apply in_seq in Hi.
  change 0 with (eval rs (Const 0)). rewrite (map_nth (eval rs)).
  unfold second_both, grad_elems, grad_row, b. cbn [rows ncols].
  replace (i * 2 + j)%nat with (i * length (seq 0 2) + j)%nat by reflexivity.
  rewrite (nth_grid (fun i j => or_zero (grad_elem first_both (ones first_both) i j))
             (seq 0 (length rs)) (seq 0 2) i j 0%nat 0%nat (Const 0))
    by (rewrite length_seq; lia).
  rewrite !seq_nth by lia. cbn [Nat.add].
  apply second_both_entry. lia.
Qed.

Lemma residual_value_local :
  residual_value b second_both
  = Ok (mean (pow2 (zip_add (laplace_residual b outs) (mixed_residual b outs)))).
Proof.
  unfold residual_value. cbn [rows ncols b].
  rewrite !second_both_columns by lia. f_equal. f_equal. f_equal.
  unfold laplace_residual, mixed_residual, second_pure, second_mixed. cbn [rows].
  rewrite !zip_add_maps. apply map_ext. intros i. unfold b. cbn [rows]. lra.
Qed.

Lemma interior_value_local (P : Type) (s : DomainSampling P) (theta : P) :
  snd (net_out s theta b) = outs ->
  interior_value s theta b
  = match derivative b outs with
    | Raise e => Raise e
    | Ok fb =>
        match derivative b fb with
        | Raise e => Raise e
        | Ok _ => Ok (mean (pow2 (zip_add (laplace_residual b outs)
                                          (mixed_residual b outs))))
        end
    end.
Proof.
  intros Hout. unfold interior_value. rewrite Hout. unfold derivative.
  destruct (existsb has_leaf outs); [|reflexivity].
  fold (ones outs). fold first_both.
  destruct (existsb has_leaf first_both); [|reflexivity].
  fold (ones first_both). fold second_both. apply residual_value_local.
Qed.

End Batch.

End InteriorTerm.

Section InteriorMethod.

Variable G : Type.
Variable draw : G -> R * G.
Variable P : Type.
Variable Gr : Type.
Variable Opt : Type.

Local Abbreviation world := (QadenceTrial.world G P Gr Opt).
Local Abbreviation interior := (@QadenceTrial.interior G draw P Gr Opt).
Local Abbreviation calc_derivative := (@QadenceTrial.calc_derivative G P Gr Opt).
Local Abbreviation batch_of := (@Meaning.batch_of G draw P Gr Opt).
Local Abbreviation drawn := (@Meaning.drawn G draw P Gr Opt).

Lemma interior_batch (w : world) :
  (0 <= n_colpoints (self w))%Z -> n_inputs (self w) = 2%Z ->
  batch_of Interior w = mkTensor 2 (drawn w) true /\
  value_of (fst (interior w))
  = interior_value (self w) (params w) (batch_of Interior w).
Proof.
  intros Hn Hd.
  assert (Hs : bad_size w = false) by (apply good_size; lia).
  assert (Hw : width w = 2%nat) by (unfold width; now rewrite Hd).
  assert (Hb : batch_of Interior w = mkTensor 2 (drawn w) true).
  { rewrite (batch_of_run G draw P Gr Opt) by assumption.
    unfold outcome. cbn [pin snd]. now rewrite Hw. }
  split; [exact Hb|].
  change interior with (@QadenceTrial.method G draw P Gr Opt Interior).
  rewrite (method_run G draw P Gr Opt). unfold method_result. rewrite Hs. cbn [fst].
  rewrite value_of_tagged. unfold outcome. cbn [pin fst]. now rewrite Hb, Hw.
Qed.

(** X13. What [interior] returns for a model whose output at a point
    depends on that point only, with two inputs and at least one
    collocation point.  Both calls of
    [calc_derivative] differentiate the sum of all entries of the tensor
    they are given, so the second returns, in column 0, u_xx + u_yx and, in
    column 1, u_xy + u_yy: the residual that is squared is the Laplacian
    plus the two mixed second derivatives.  The two derivative requests can
    fail, as [derivative] says: when no output reaches the batch, or no
    first derivative does. *)
Theorem interior_residual_has_mixed_terms (w : world) :
  (1 <= n_colpoints (self w))%Z ->
  n_inputs (self w) = 2%Z ->
  let b := batch_of Interior w in
  let outs := snd (net_out (self w) (params w) b) in
  row_local outs ->
  value_of (fst (interior w))
  = match derivative b outs with
    | Raise e => Raise e
    | Ok first_both =>
        match derivative b first_both with
        | Raise e => Raise e
        | Ok _ => Ok (mean (pow2 (zip_add (laplace_residual b outs)
                                          (mixed_residual b outs))))
        end
    end.
Proof.
  intros Hn Hd b outs Hlocal.
  assert (Hn0 : (0 <= n_colpoints (self w))%Z) by lia.
  destruct (interior_batch w Hn0 Hd) as [Hb ->]. fold b.
  unfold outs in *. clear outs. revert Hlocal. unfold b. rewrite Hb. intros Hlocal.
  now apply interior_value_local.
Qed.

(** *** [calc_derivative]: what it computes, and when it cannot *)

(** X14. What [calc_derivative] returns when it returns: a tensor of the
    shape of [inputs] whose entry [(i, j)] is the derivative, with respect
    to the entry [(i, j)] of [inputs], of the sum of all elements of
    [outputs] (a vector-Jacobian product with a vector of ones, not a
    Jacobian). *)
Theorem calc_derivative_sums_outputs (outputs : ttensor) (inputs : nat)
        (w w' : world) (t : ttensor) :
  (inputs < length (store w))%nat ->
  calc_derivative outputs inputs w = (Ok t, w') ->
  let x := nth inputs (store w) empty_tensor in
  tshape t = [length (rows x); ncols x] /\
  troot t = Some inputs /\
  length (telems t) = (length (rows x) * ncols x)%nat /\
  forall i j, (i < length (rows x))%nat -> (j < ncols x)%nat ->
    (j < length (nth i (rows x) []))%nat ->
    derivable_pt_lim
      (fun v => sum (map (fun e => along (rows x) i j e v) (telems outputs)))
      (entry (rows x) i j)
      (eval (rows x) (nth (i * ncols x + j) (telems t) (Const 0))).
Proof.
  intros Hin Hrun x.
  assert (Hx : requires_grad x = true \/ is_floating_point x = true).
  { rewrite (calc_derivative_run G P Gr Opt outputs inputs w Hin) in Hrun. fold x in Hrun.
    destruct (requires_grad x); [now left|].
    destruct (is_floating_point x); [now right | discriminate Hrun]. }
  rewrite (calc_derivative_floating G P Gr Opt outputs inputs w Hin Hx) in Hrun.
  fold x in Hrun.
  injection Hrun as Hgrad _. unfold grad in Hgrad.
  destruct (troot outputs) as [a|]; [|discriminate].
  cbn [flagged requires_grad negb rows ncols] in Hgrad.
  destruct ((a =? inputs)%nat && existsb has_leaf (telems outputs)); [|discriminate].
  injection Hgrad as <-. cbn [tshape troot telems].
  split; [reflexivity|]. split; [reflexivity|].
  unfold grad_elems, grad_row. cbn [rows ncols flagged].
  split.
  { rewrite (length_grid (fun i j => or_zero (grad_elem (telems outputs) (ones_like outputs) i j))).
    now rewrite !length_seq. }
  intros i j Hi Hj Hrow.
  replace (i * ncols x + j)%nat with (i * length (seq 0 (ncols x)) + j)%nat
    by (now rewrite length_seq).
  rewrite (nth_grid (fun i j => or_zero (grad_elem (telems outputs) (ones_like outputs) i j))
             (seq 0 (length (rows x))) (seq 0 (ncols x)) i j 0%nat 0%nat (Const 0))
    by (rewrite length_seq; assumption).
  rewrite !seq_nth by assumption. cbn [Nat.add].
  apply (grad_elem_derivative (rows x) i j Hi Hrow).
Qed.


(** *** Models without curvature *)

Lemma backprop_no_leaf (e : expr) :
  has_leaf e = false -> forall g i j, backprop g e i j = None.
Proof.
  induction e as [c | i' j' | a IHa b IHb | a IHa b IHb | a IHa b IHb
                  | a IHa | a IHa | a IHa | a IHa]; cbn [has_leaf backprop]; intros H g i j;
    try discriminate;
    try (apply orb_false_iff in H; destruct H as [Ha Hb]; now rewrite IHa, IHb);
    try (now apply IHa).
  reflexivity.
Qed.

Lemma has_leaf_accum (a b : option expr) :
  has_leaf (or_zero a) = false -> has_leaf (or_zero b) = false ->
  has_leaf (or_zero (accum a b)) = false.
Proof. destruct a, b; cbn; intros Ha Hb; rewrite ?Ha, ?Hb; auto. Qed.

Lemma backprop_affine (e : expr) :
  affine e = true ->
  forall g i j, has_leaf g = false -> has_leaf (or_zero (backprop g e i j)) = false.
Proof.
  induction e as [c | i' j' | a IHa b IHb | a IHa b IHb | a IHa b IHb
                  | a IHa | a IHa | a IHa | a IHa]; cbn [affine backprop]; intros H g i j Hg.
  - reflexivity.
  - destruct (_ && _); [exact Hg | reflexivity].
  - apply andb_true_iff in H. destruct H as [Ha Hb].
    apply has_leaf_accum; [now apply IHa | now apply IHb].
  - apply andb_true_iff in H. destruct H as [Ha Hb].
    apply has_leaf_accum; [now apply IHa | now apply IHb].
  - apply orb_true_iff in H. destruct H as [H | H]; apply andb_true_iff in H;
      destruct H as [H1 H2]; apply negb_true_iff in H1 || apply negb_true_iff in H2.
    + rewrite (backprop_no_leaf a H1). cbn [accum]. apply IHb; [assumption|].
      cbn. now rewrite Hg, H1.
    + rewrite (backprop_no_leaf b H2). rewrite accum_none_r. apply IHa; [assumption|].
      cbn. now rewrite Hg, H2.
  - now apply IHa.
  - apply negb_true_iff in H. now rewrite (backprop_no_leaf a H).
  - apply negb_true_iff in H. now rewrite (backprop_no_leaf a H).
  - apply negb_true_iff in H. now rewrite (backprop_no_leaf a H).
Qed.

Lemma grad_elem_affine (outs gos : list expr) (i j : nat) :
  Forall (fun e => affine e = true) outs ->
  Forall (fun g => has_leaf g = false) gos ->
  has_leaf (or_zero (grad_elem outs gos i j)) = false.
Proof.
  intros Ho. revert gos. induction Ho as [|o outs Hoa Ho IH]; intros gos Hg; [reflexivity|].
  destruct Hg as [|g gos Hg Hgs]; [reflexivity|]. cbn [grad_elem].
  apply has_leaf_accum; [now apply backprop_affine | now apply IH].
Qed.

Lemma derivative_affine (b : tensor) (outs : list expr) :
  Forall (fun e => affine e = true) outs ->
  match derivative b outs with
  | Ok first_both => derivative b first_both = Raise (RuntimeError UnusedInGraph)
  | Raise e => e = RuntimeError UnusedInGraph
  end.
Proof.
  intros Ha. unfold derivative at 1. destruct (existsb has_leaf outs); [|reflexivity].
  unfold derivative.
  replace (existsb has_leaf (grad_elems b outs (map (fun _ => Const 1) outs))) with false;
    [reflexivity|].
  symmetry. apply not_true_is_false. intros Hex. apply existsb_exists in Hex.
  destruct Hex as [e [He Hl]]. unfold grad_elems, grad_row in He.
  apply in_flat_map in He. destruct He as [i [_ He]].
  apply in_map_iff in He. destruct He as [j [<- _]].
  rewrite grad_elem_affine in Hl; [discriminate | assumption |].
  apply Forall_forall. intros g Hgin. apply in_map_iff in Hgin. now destruct Hgin as [? [<- _]].
Qed.

(** X16. A model that is affine in its inputs has no second derivative to
    record: for it, with at least one collocation point, [interior] always
    raises [RuntimeError], at the first
    [calc_derivative] if the output does not depend on the batch at all, at
    the second otherwise. *)
Theorem interior_raises_without_curvature (w : world) :
  (1 <= n_colpoints (self w))%Z ->
  (0 <= n_inputs (self w))%Z ->
  Forall (fun e => affine e = true)
         (snd (net_out (self w) (params w) (batch_of Interior w))) ->
  fst (interior w) = Raise (RuntimeError UnusedInGraph).
Proof.
  intros Hn Hd Ha.
  assert (Hs : bad_size w = false) by (apply good_size; lia).
  rewrite (batch_of_run G draw P Gr Opt) in Ha by assumption.
  change interior with (@QadenceTrial.method G draw P Gr Opt Interior).
  rewrite (method_run G draw P Gr Opt). unfold method_result. rewrite Hs. cbn [fst].
  unfold outcome in *. cbn [pin fst snd] in *. unfold interior_value.
  pose proof (derivative_affine (mkTensor (width w) (drawn w) true) _ Ha) as Hder.
  destruct (derivative _ _) as [fb|e].
  - rewrite Hder. reflexivity.
  - subst e. reflexivity.
Qed.

End InteriorMethod.

Section ReferenceSolution.
Import Models.

Variable G : Type.
Variable draw : G -> R * G.
Variable Gr : Type.
Variable Opt : Type.

Local Abbreviation world := (QadenceTrial.world G unit Gr Opt).
Local Abbreviation interior := (@QadenceTrial.interior G draw unit Gr Opt).
Local Abbreviation batch_of := (@Meaning.batch_of G draw unit Gr Opt).
Local Abbreviation drawn := (@Meaning.drawn G draw unit Gr Opt).

Lemma per_point_outs (u : list expr -> expr) (s : DomainSampling unit) (rs : list (list R)) :
  net s = per_point u ->
  Forall (fun r => length r = 2%nat) rs ->
  snd (net_out s tt (mkTensor 2 rs true))
  = map (fun i => u [Leaf i 0; Leaf i 1]) (seq 0 (length rs)).
Proof.
  intros Hnet Hrs. unfold net_out. rewrite Hnet. unfold per_point.
  cbn [snd rows ncols requires_grad nth].
  now rewrite (per_point_rows_leaves u 2 rs) by (try lia; assumption).
Qed.

Lemma analytic_outs_local (n : nat) :
  row_local (map (fun i => u_analytic [Leaf i 0; Leaf i 1]) (seq 0 n)).
Proof.
  intros k i Hik. destruct (lt_dec k n) as [Hk | Hk].
  - rewrite (nth_map_seq (fun i => u_analytic [Leaf i 0; Leaf i 1])) by assumption.
    cbn. apply Nat.eqb_neq in Hik. now rewrite Hik.
  - rewrite nth_overflow by (rewrite length_map, length_seq; lia). reflexivity.
Qed.

Lemma value_of_returns (m : world -> result loss_tensor * world) (w : world) (v : scalar) :
  value_of (fst (m w)) = Ok v -> returns m w v.
Proof.
  unfold returns. destruct (m w) as [[l|e] w']; cbn; intros H; [|discriminate].
  injection H as <-. eauto.
Qed.

Lemma analytic_residuals (rs : list (list R)) (i : nat) :
  let e := u_analytic [Leaf i 0; Leaf i 1] in
  eval rs (second_pure e i 0) + eval rs (second_pure e i 1) = 0 /\
  eval rs (second_mixed e i 0 1) + eval rs (second_mixed e i 1 0)
  = - (2 * PI * PI * exp (- (PI * entry rs i 0)) * cos (PI * entry rs i 1)).
Proof.
  cbv zeta. unfold second_pure, second_mixed, u_analytic, coord. cbn [nth].
  repeat (cbn [backprop accum or_zero Nat.eqb andb eval]; rewrite ?Nat.eqb_refl).
  split; ring.
Qed.

(** X17. On the reference solution of the plot,
    u(x, y) = exp(-pi x) sin(pi y), which is harmonic, [interior] does not
    return 0: for every batch it returns the mean of the squares of twice
    the mixed derivative, 2 pi^2 exp(-pi x) cos(pi y), while the Laplacian
    residual of the comment vanishes at every point. *)
Theorem interior_on_reference_solution (w : world) :
  net (self w) = per_point u_analytic ->
  (1 <= n_colpoints (self w))%Z ->
  n_inputs (self w) = 2%Z ->
  returns interior w
    (mean (pow2 (map (fun r => 2 * PI * PI * exp (- (PI * nth 0 r 0)) * cos (PI * nth 1 r 0))
                     (drawn w)))) /\
  interior_stated (self w) (params w) (batch_of Interior w) = Real 0.
Proof.
  intros Hnet Hn Hd.
  assert (Hn0 : (0 <= n_colpoints (self w))%Z) by lia.
  destruct (interior_batch G draw unit Gr Opt w Hn0 Hd) as [Hb Hval].
  assert (Hrows : Forall (fun r => length r = 2%nat) (drawn w)).
  { pose proof (draw_rows_width G draw (Z.to_nat (n_colpoints (self w))) (width w) (gen w)) as H.
    unfold Meaning.drawn. unfold width in *. rewrite Hd in *. exact H. }
  assert (Hlen : (1 <= length (drawn w))%nat).
  { rewrite (drawn_length G draw unit Gr Opt). lia. }
  assert (Houts : snd (net_out (self w) (params w) (mkTensor 2 (drawn w) true))
                  = map (fun i => u_analytic [Leaf i 0; Leaf i 1]) (seq 0 (length (drawn w)))).
  { destruct (params w). now apply per_point_outs. }
  rewrite Hb in Hval.
  rewrite (interior_value_local (drawn w) _ (analytic_outs_local (length (drawn w)))
             unit (self w) (params w) Houts) in Hval.
  assert (Hnth : forall i, (i < length (drawn w))%nat ->
            nth i (map (fun i => u_analytic [Leaf i 0; Leaf i 1]) (seq 0 (length (drawn w))))
                (Const 0)
            = u_analytic [Leaf i 0; Leaf i 1]).
  { intros i Hi. now rewrite (nth_map_seq (fun i => u_analytic [Leaf i 0; Leaf i 1])). }
  split.
  - apply value_of_returns. rewrite Hval. unfold derivative.
    pose proof (first_both_rows (drawn w) _ (analytic_outs_local (length (drawn w)))) as Hfb.
    cbv zeta in Hfb. rewrite Hfb.
    assert (He1 : existsb has_leaf
                    (map (fun i => u_analytic [Leaf i 0; Leaf i 1])
                         (seq 0 (length (drawn w)))) = true).
    { destruct (length (drawn w)) as [|m]; [lia | reflexivity]. }
    assert (He2 : existsb has_leaf
                    (flat_map
                       (fun k => map (fun l => or_zero (backprop (Const 1)
                          (nth k (map (fun i => u_analytic [Leaf i 0; Leaf i 1])
                                      (seq 0 (length (drawn w)))) (Const 0)) k l))
                                     (seq 0 2))
                       (seq 0 (length (drawn w)))) = true).
    { destruct (length (drawn w)) as [|m]; [lia | reflexivity]. }
    cbn [rows]. rewrite He1, He2.
    f_equal. f_equal.
    unfold laplace_residual, mixed_residual. rewrite zip_add_maps. cbn [rows].
    unfold pow2. rewrite !map_map.
    rewrite <- (map_rows_by_index
                  (fun r => 2 * PI * PI * exp (- (PI * nth 0 r 0)) * cos (PI * nth 1 r 0)
                            * (2 * PI * PI * exp (- (PI * nth 0 r 0)) * cos (PI * nth 1 r 0)))
                  (drawn w)).
    apply map_ext_in. intros i Hi. apply in_seq in Hi.
    rewrite Hnth by lia.
    destruct (analytic_residuals (drawn w) i) as [-> ->]. unfold entry. ring.
  - unfold interior_stated. rewrite Hb, Houts. unfold laplace_residual. cbn [rows].
    assert (Hzero : map (fun i =>
                eval (drawn w) (second_pure (nth i (map (fun i => u_analytic [Leaf i 0; Leaf i 1])
                                                      (seq 0 (length (drawn w)))) (Const 0)) i 0)
                + eval (drawn w) (second_pure (nth i (map (fun i => u_analytic [Leaf i 0; Leaf i 1])
                                                        (seq 0 (length (drawn w)))) (Const 0)) i 1))
              (seq 0 (length (drawn w)))
            = repeat 0 (length (drawn w))).
    { rewrite (map_zero_repeat _ (seq 0 (length (drawn w)))); [now rewrite length_seq|].
      intros i Hi. apply in_seq in Hi.
      rewrite Hnth by lia. apply (analytic_residuals (drawn w) i). }
    rewrite Hzero, pow2_repeat, Rmult_0_l. apply mean_repeat. lia.
Qed.

End ReferenceSolution.

(** *** The training driver, on the state *)

Section Driver.

Variable G : Type.
Variable draw : G -> R * G.
Variable P : Type.
Variable Gr : Type.
Variable Opt : Type.
Variable zero_grad : Gr -> Gr.
Variable backward : P -> list tensor -> loss_tensor -> Gr -> Gr.
Variable step : P -> Gr -> Opt -> P * Opt.

Local Abbreviation world := (QadenceTrial.world G P Gr Opt).
Local Abbreviation method := (@QadenceTrial.method G draw P Gr Opt).
Local Abbreviation epoch := (@QadenceTrial.epoch G draw P Gr Opt zero_grad backward step).
Local Abbreviation training := (@QadenceTrial.training G draw P Gr Opt zero_grad backward step).
Local Abbreviation batch_of := (@Meaning.batch_of G draw P Gr Opt).
Local Abbreviation per_call := (@batch_draws G P Gr Opt).

Lemma observed_facts (k : sampler) (w : world) :
  let w' := snd (observed k (method k) w) in
  params w' = params w /\ pgrads w' = pgrads w /\ optim w' = optim w /\ self w' = self w /\
  match fst (observed k (method k) w) with
  | Ok l =>
      saved l = [(k, length (store w))] /\
      store w' = store w ++ [batch_of k w] /\
      gen w' = advance draw (per_call w) (gen w)
  | Raise _ => gen w' = gen w \/ gen w' = advance draw (per_call w) (gen w)
  end.
Proof.
  cbv zeta. unfold observed, bind.
  destruct (method_sampled_only G draw P Gr Opt k w) as [Hp [Hs [Hg [Ho _]]]].
  pose proof (method_gen_store G draw P Gr Opt k w) as Hstream.
  pose proof (method_run G draw P Gr Opt k w) as Hrun. unfold method_result in Hrun.
  destruct (bad_size w) eqn:Hbad.
  - rewrite Hrun. cbn [fst snd]. auto 10.
  - destruct (Hstream eq_refl) as [Hgen Hstore].
    destruct (method k w) as [[l|e] w1] eqn:E; cbn [fst snd emit ret params pgrads optim self
                                                     store gen] in *.
    + repeat split; auto.
      injection Hrun as Hl _. destruct (fst (outcome _ _ _ _ _)); cbn in Hl; [|discriminate].
      injection Hl as ->. reflexivity.
    + repeat split; auto.
Qed.

(** One iteration in full: what it stores, what [backward] and [step] are
    given, and how far the generator moves. *)
Lemma epoch_state (w : world) :
  let w' := snd (epoch w) in
  match fst (epoch w) with
  | Ok _ =>
      exists l b1 b2 b3 b4 b5,
        store w' = store w ++ [b1; b2; b3; b4; b5] /\
        saved l = [(Left, length (store w)); (Right, S (length (store w)));
                   (Top, S (S (length (store w)))); (Bottom, S (S (S (length (store w)))));
                   (Interior, S (S (S (S (length (store w))))))] /\
        pgrads w' = backward (params w) [b1; b2; b3; b4; b5] l (zero_grad (pgrads w)) /\
        (params w', optim w') = step (params w) (pgrads w') (optim w) /\
        gen w' = advance draw (5 * per_call w) (gen w)
  | Raise _ =>
      pgrads w' = zero_grad (pgrads w) /\ params w' = params w /\ optim w' = optim w /\
      exists u, (u <= 5)%nat /\ gen w' = advance draw (u * per_call w) (gen w)
  end /\ self w' = self w.
Proof.
  cbv zeta. unfold QadenceTrial.epoch, bind.
  unfold opt_zero_grad. unfold emit.
  set (w0 := {| gen := gen (set_pgrads (zero_grad (pgrads w)) w);
                store := _; self := _; params := _; pgrads := _; optim := _; log := _ |}).
  assert (H0 : params w0 = params w /\ pgrads w0 = zero_grad (pgrads w) /\
               optim w0 = optim w /\ self w0 = self w /\ store w0 = store w /\
               gen w0 = gen w) by (repeat split; reflexivity).
  destruct H0 as (Hp0 & Hg0 & Ho0 & Hs0 & Hst0 & Hgen0).
  assert (Hpc : forall w1 : world, self w1 = self w -> per_call w1 = per_call w).
  { intros w1 H1. unfold batch_draws, width. now rewrite H1. }
  clearbody w0.
  pose proof (observed_facts Left w0) as F1. cbv zeta in F1.
  change (QadenceTrial.method draw Left) with (@left_boundary G draw P Gr Opt) in F1.
  destruct (observed Left (left_boundary draw) w0) as [[l1|e1] w1]; cbn [fst snd] in *.
  2:{ destruct F1 as (H1 & H2 & H3 & H4 & H5). split; [|congruence].
      split; [congruence|]. split; [congruence|]. split; [congruence|].
      destruct H5 as [H5 | H5].
      - exists 0%nat. split; [lia|]. cbn [Nat.mul advance]. congruence.
      - exists 1%nat. split; [lia|]. rewrite Nat.mul_1_l, H5, Hpc, Hgen0 by assumption.
        reflexivity. }
  destruct F1 as (P1 & G1 & O1 & S1 & L1 & St1 & Gen1).
  pose proof (observed_facts Right w1) as F2. cbv zeta in F2.
  change (QadenceTrial.method draw Right) with (@right_boundary G draw P Gr Opt) in F2.
  destruct (observed Right (right_boundary draw) w1) as [[l2|e2] w2]; cbn [fst snd] in *.
  2:{ destruct F2 as (H1 & H2 & H3 & H4 & H5). split; [|congruence].
      split; [congruence|]. split; [congruence|]. split; [congruence|].
      rewrite Hpc in H5, Gen1 by congruence.
      destruct H5 as [H5 | H5].
      - exists 1%nat. split; [lia|]. rewrite Nat.mul_1_l. congruence.
      - exists 2%nat. split; [lia|]. rewrite H5, Gen1, Hgen0, <- advance_add. f_equal. lia. }
  destruct F2 as (P2 & G2 & O2 & S2 & L2 & St2 & Gen2).
  pose proof (observed_facts Top w2) as F3. cbv zeta in F3.
  change (QadenceTrial.method draw Top) with (@top_boundary G draw P Gr Opt) in F3.
  destruct (observed Top (top_boundary draw) w2) as [[l3|e3] w3]; cbn [fst snd] in *.
  2:{ destruct F3 as (H1 & H2 & H3 & H4 & H5). split; [|congruence].
      split; [congruence|]. split; [congruence|]. split; [congruence|].
      rewrite Hpc in H5, Gen1, Gen2 by congruence.
      destruct H5 as [H5 | H5].
      - exists 2%nat. split; [lia|]. rewrite H5, Gen2, Gen1, Hgen0, <- advance_add.
        f_equal. lia.
      - exists 3%nat. split; [lia|]. rewrite H5, Gen2, Gen1, Hgen0, <- !advance_add.
        f_equal. lia. }
  destruct F3 as (P3 & G3 & O3 & S3 & L3 & St3 & Gen3).
  pose proof (observed_facts Bottom w3) as F4. cbv zeta in F4.
  change (QadenceTrial.method draw Bottom) with (@bottom_boundary G draw P Gr Opt) in F4.
  destruct (observed Bottom (bottom_boundary draw) w3) as [[l4|e4] w4]; cbn [fst snd] in *.
  2:{ destruct F4 as (H1 & H2 & H3 & H4 & H5). split; [|congruence].
      split; [congruence|]. split; [congruence|]. split; [congruence|].
      rewrite Hpc in H5, Gen1, Gen2, Gen3 by congruence.
      destruct H5 as [H5 | H5].
      - exists 3%nat. split; [lia|]. rewrite H5, Gen3, Gen2, Gen1, Hgen0, <- !advance_add.
        f_equal. lia.
      - exists 4%nat. split; [lia|]. rewrite H5, Gen3, Gen2, Gen1, Hgen0, <- !advance_add.
        f_equal. lia. }
  destruct F4 as (P4 & G4 & O4 & S4 & L4 & St4 & Gen4).
  pose proof (observed_facts Interior w4) as F5. cbv zeta in F5.
  change (QadenceTrial.method draw Interior) with (@interior G draw P Gr Opt) in F5.
  destruct (observed Interior (interior draw) w4) as [[l5|e5] w5]; cbn [fst snd] in *.
  2:{ destruct F5 as (H1 & H2 & H3 & H4 & H5). split; [|congruence].
      split; [congruence|]. split; [congruence|]. split; [congruence|].
      rewrite Hpc in H5, Gen1, Gen2, Gen3, Gen4 by congruence.
      destruct H5 as [H5 | H5].
      - exists 4%nat. split; [lia|].
        rewrite H5, Gen4, Gen3, Gen2, Gen1, Hgen0, <- !advance_add. f_equal. lia.
      - exists 5%nat. split; [lia|].
        rewrite H5, Gen4, Gen3, Gen2, Gen1, Hgen0, <- !advance_add. f_equal. lia. }
  destruct F5 as (P5 & G5 & O5 & S5 & L5 & St5 & Gen5).
  rewrite Hpc in Gen1, Gen2, Gen3, Gen4, Gen5 by congruence.
  unfold loss_backward, opt_step, emit.
  cbn [params pgrads optim store gen self set_pgrads set_optim fst snd].
  destruct (step (params w5) _ (optim w5)) as [p o] eqn:Estep.
  unfold emit.
  cbn [params pgrads optim store gen self set_pgrads set_optim fst snd].
  split; [|congruence].
  exists (loss_add (loss_add (loss_add (loss_add l1 l2) l3) l4) l5),
         (batch_of Left w0), (batch_of Right w1), (batch_of Top w2),
         (batch_of Bottom w3), (batch_of Interior w4).
  assert (Hstore : store w5 = store w ++ [batch_of Left w0; batch_of Right w1;
                      batch_of Top w2; batch_of Bottom w3; batch_of Interior w4]).
  { rewrite St5, St4, St3, St2, St1, Hst0, <- !app_assoc. reflexivity. }
  assert (Hlen : forall (a : list tensor) (b : tensor), length (a ++ [b]) = S (length a)).
  { intros a b. rewrite length_app. cbn. lia. }
  assert (Hsaved : saved (loss_add (loss_add (loss_add (loss_add l1 l2) l3) l4) l5)
                   = [(Left, length (store w)); (Right, S (length (store w)));
                      (Top, S (S (length (store w)))); (Bottom, S (S (S (length (store w)))));
                      (Interior, S (S (S (S (length (store w))))))]).
  { cbn [loss_add saved]. rewrite L1, L2, L3, L4, L5, St4, St3, St2, St1, Hst0.
    rewrite !Hlen. reflexivity. }
  split; [exact Hstore|]. split; [exact Hsaved|].
  assert (Hback : map (fun a : sampler * nat => nth (snd a) (store w5) empty_tensor)
                      (saved (loss_add (loss_add (loss_add (loss_add l1 l2) l3) l4) l5))
                  = [batch_of Left w0; batch_of Right w1; batch_of Top w2;
                     batch_of Bottom w3; batch_of Interior w4]).
  { rewrite Hsaved, Hstore. cbn [map snd].
    rewrite <- (Nat.add_0_r (length (store w))) at 1.
    replace (S (length (store w))) with (length (store w) + 1)%nat by lia.
    replace (S (length (store w) + 1)) with (length (store w) + 2)%nat by lia.
    replace (S (length (store w) + 2)) with (length (store w) + 3)%nat by lia.
    replace (S (length (store w) + 3)) with (length (store w) + 4)%nat by lia.
    rewrite !nth_app_offset. reflexivity. }
  rewrite Hback.
  split; [congruence|]. split.
  - rewrite <- Estep. f_equal; congruence.
  - rewrite Gen5, Gen4, Gen3, Gen2, Gen1, Hgen0, <- !advance_add. f_equal. lia.
Qed.

(** *** The driver against the iteration it is to perform *)

(** A method neither reads nor writes the trace. *)
Lemma method_with_log (k : sampler) (t : list event) (w : world) :
  method k (with_log t w) = (fst (method k w), with_log t (snd (method k w))).
Proof.
  rewrite !(method_run G draw P Gr Opt). unfold method_result.
  change (bad_size (with_log t w)) with (bad_size w).
  destruct (bad_size w); reflexivity.
Qed.

Lemma observed_with_log (k : sampler) (t : list event) (w : world) :
  observed k (method k) (with_log t w)
  = match method k w with
    | (Ok l, w1) => (Ok l, with_log (t ++ [EvLoss k (item l)]) w1)
    | (Raise e, w1) => (Raise e, with_log t w1)
    end.
Proof.
  unfold observed, bind. rewrite method_with_log.
  destruct (method k w) as [[l|e] w1]; reflexivity.
Qed.

Lemma method_frame (k : sampler) (w w1 : world) (r : result loss_tensor) :
  method k w = (r, w1) ->
  params w1 = params w /\ self w1 = self w /\ pgrads w1 = pgrads w /\ optim w1 = optim w.
Proof.
  intros E. destruct (method_sampled_only G draw P Gr Opt k w) as (H1 & H2 & H3 & H4 & _).
  rewrite E in H1, H2, H3, H4. cbn [snd] in *. auto.
Qed.

(** The body of the loop performs one iteration, or is interrupted by the
    exception that a method raises. *)
Lemma epoch_run (w : world) :
  match fst (epoch w) with
  | Ok _ => iteration draw zero_grad backward step w (snd (epoch w))
  | Raise e => interrupted draw zero_grad w (snd (epoch w)) e
  end.
Proof.
  unfold QadenceTrial.epoch, bind.
  change (opt_zero_grad zero_grad w)
    with (@Ok unit tt, with_log (log w ++ [EvZeroGrad]) (set_pgrads (zero_grad (pgrads w)) w)).
  cbv iota.
  set (w0 := set_pgrads (zero_grad (pgrads w)) w).
  assert (F0 : params w0 = params w /\ self w0 = self w /\
               pgrads w0 = zero_grad (pgrads w) /\ optim w0 = optim w)
    by (repeat split; reflexivity).
  change (left_boundary draw) with (method Left).
  change (right_boundary draw) with (method Right).
  change (top_boundary draw) with (method Top).
  change (bottom_boundary draw) with (method Bottom).
  change (interior draw) with (method Interior).
  rewrite observed_with_log.
  destruct (method Left w0) as [[l1|e] w1] eqn:E1.
  2:{ cbn [fst snd]. exists 0%nat, [], w0, w1. split; [lia|].
      split; [reflexivity|]. split; [exact E1 | reflexivity]. }
  rewrite observed_with_log.
  destruct (method Right w1) as [[l2|e] w2] eqn:E2.
  2:{ cbn [fst snd]. exists 1%nat, [l1], w1, w2. split; [lia|].
      cbn [firstn order calls nth]. fold w0. rewrite E1.
      split; [reflexivity|]. split; [exact E2|].
      cbn [loss_events combine map fst snd]. now rewrite <- app_assoc. }
  rewrite observed_with_log.
  destruct (method Top w2) as [[l3|e] w3] eqn:E3.
  2:{ cbn [fst snd]. exists 2%nat, [l1; l2], w2, w3. split; [lia|].
      cbn [firstn order calls nth]. fold w0. rewrite E1, E2.
      split; [reflexivity|]. split; [exact E3|].
      cbn [loss_events combine map fst snd]. now rewrite <- !app_assoc. }
  rewrite observed_with_log.
  destruct (method Bottom w3) as [[l4|e] w4] eqn:E4.
  2:{ cbn [fst snd]. exists 3%nat, [l1; l2; l3], w3, w4. split; [lia|].
      cbn [firstn order calls nth]. fold w0. rewrite E1, E2, E3.
      split; [reflexivity|]. split; [exact E4|].
      cbn [loss_events combine map fst snd]. now rewrite <- !app_assoc. }
  rewrite observed_with_log.
  destruct (method Interior w4) as [[l5|e] w5] eqn:E5.
  2:{ cbn [fst snd]. exists 4%nat, [l1; l2; l3; l4], w4, w5. split; [lia|].
      cbn [firstn order calls nth]. fold w0. rewrite E1, E2, E3, E4.
      split; [reflexivity|]. split; [exact E5|].
      cbn [loss_events combine map fst snd]. now rewrite <- !app_assoc. }
  destruct (method_frame _ _ _ _ E1) as (P1 & S1 & G1 & O1).
  destruct (method_frame _ _ _ _ E2) as (P2 & S2 & G2 & O2).
  destruct (method_frame _ _ _ _ E3) as (P3 & S3 & G3 & O3).
  destruct (method_frame _ _ _ _ E4) as (P4 & S4 & G4 & O4).
  destruct (method_frame _ _ _ _ E5) as (P5 & S5 & G5 & O5).
  destruct F0 as (P0 & S0 & G0 & O0).
  assert (HP : params w5 = params w) by congruence.
  assert (HS : self w5 = self w) by congruence.
  assert (HG : pgrads w5 = zero_grad (pgrads w)) by congruence.
  assert (HO : optim w5 = optim w) by congruence.
  unfold loss_backward, opt_step, emit.
  cbn [with_log params pgrads optim store gen self log set_pgrads set_optim fst snd].
  rewrite HP, HG, HO.
  destruct (step (params w) _ (optim w)) as [p o] eqn:Estep.
  cbn [with_log params pgrads optim store gen self log set_pgrads set_optim fst snd].
  exists l1, l2, l3, l4, l5, w5. split.
  - cbn [order calls]. fold w0. now rewrite E1, E2, E3, E4, E5.
  - cbv zeta. rewrite Estep, HS. cbn [fst snd epoch_events loss_add item].
    rewrite <- !app_assoc. reflexivity.
Qed.

Lemma method_returns (k : sampler) (w w1 : world) (l : loss_tensor) :
  method k w = (Ok l, w1) ->
  saved l = [(k, length (store w))] /\ store w1 = store w ++ [batch_of k w].
Proof.
  intros E. pose proof (method_run G draw P Gr Opt k w) as Hrun.
  unfold method_result in Hrun. rewrite E in Hrun.
  destruct (bad_size w) eqn:Hb; [discriminate|].
  injection Hrun as Hl Hw. split.
  - destruct (fst (outcome _ _ _ _ _)); cbn in Hl; [|discriminate].
    injection Hl as ->. reflexivity.
  - rewrite Hw. unfold allocated. cbn [store set_store set_gen].
    now rewrite (batch_of_run G draw P Gr Opt k w Hb).
Qed.

(** X18. One iteration of the loop, on the state.  An iteration that
    completes has called the five methods in order, each in the state the
    one before it left, starting from the cleared gradients; it has stored
    five new batches, the one of each call; the loss that is backpropagated
    is the sum of the five losses these calls returned; the gradients the
    optimizer steps on are those of this loss alone, accumulated by
    [backward] onto the cleared gradients, for the parameters the iteration
    started with and exactly these five batches; the parameters and the
    optimizer are what this one step makes of them.  An iteration that
    raises leaves the gradients cleared and the parameters and the optimizer
    as they were. *)
Theorem epoch_gradient_flow (w : world) :
  let w' := snd (epoch w) in
  let w0 := set_pgrads (zero_grad (pgrads w)) w in
  match fst (epoch w) with
  | Ok _ =>
      exists l1 l2 l3 l4 l5 w1 w2 w3 w4 w5,
        method Left w0 = (Ok l1, w1) /\
        method Right w1 = (Ok l2, w2) /\
        method Top w2 = (Ok l3, w3) /\
        method Bottom w3 = (Ok l4, w4) /\
        method Interior w4 = (Ok l5, w5) /\
        let l := loss_add (loss_add (loss_add (loss_add l1 l2) l3) l4) l5 in
        let bs := [batch_of Left w0; batch_of Right w1; batch_of Top w2;
                   batch_of Bottom w3; batch_of Interior w4] in
        item l = scalar_add (scalar_add (scalar_add (scalar_add (item l1) (item l2))
                                                    (item l3)) (item l4)) (item l5) /\
        saved l = [(Left, length (store w)); (Right, S (length (store w)));
                   (Top, S (S (length (store w)))); (Bottom, S (S (S (length (store w)))));
                   (Interior, S (S (S (S (length (store w))))))] /\
        store w' = store w ++ bs /\
        pgrads w' = backward (params w) bs l (zero_grad (pgrads w)) /\
        (params w', optim w') = step (params w) (pgrads w') (optim w)
  | Raise _ =>
      pgrads w' = zero_grad (pgrads w) /\ params w' = params w /\ optim w' = optim w
  end.
Proof.
  cbv zeta. pose proof (epoch_run w) as Hrun.
  destruct (epoch_state w) as [Hstate _]. cbv zeta in Hstate.
  destruct (fst (epoch w)).
  2:{ destruct Hstate as (H1 & H2 & H3 & _). auto. }
  clear Hstate.
  destruct Hrun as (l1 & l2 & l3 & l4 & l5 & w5 & Hcalls & Hw).
  cbv zeta in Hw. cbn [order calls] in Hcalls.
  set (w0 := set_pgrads (zero_grad (pgrads w)) w) in *.
  destruct (method Left w0) as [[a1|e] w1] eqn:E1; [|discriminate].
  destruct (method Right w1) as [[a2|e] w2] eqn:E2; [|discriminate].
  destruct (method Top w2) as [[a3|e] w3] eqn:E3; [|discriminate].
  destruct (method Bottom w3) as [[a4|e] w4] eqn:E4; [|discriminate].
  destruct (method Interior w4) as [[a5|e] w5'] eqn:E5; [|discriminate].
  injection Hcalls as -> -> -> -> -> ->.
  exists l1, l2, l3, l4, l5, w1, w2, w3, w4, w5.
  split; [reflexivity|]. split; [exact E2|]. split; [exact E3|].
  split; [exact E4|]. split; [exact E5|]. split; [reflexivity|].
  destruct (method_returns _ _ _ _ E1) as [L1 St1].
  destruct (method_returns _ _ _ _ E2) as [L2 St2].
  destruct (method_returns _ _ _ _ E3) as [L3 St3].
  destruct (method_returns _ _ _ _ E4) as [L4 St4].
  destruct (method_returns _ _ _ _ E5) as [L5 St5].
  assert (Hst0 : store w0 = store w) by reflexivity.
  assert (Hstore : store w5 = store w ++ [batch_of Left w0; batch_of Right w1;
                      batch_of Top w2; batch_of Bottom w3; batch_of Interior w4]).
  { rewrite St5, St4, St3, St2, St1, Hst0, <- !app_assoc. reflexivity. }
  assert (Hlen : forall (ts : list tensor) (t : tensor), length (ts ++ [t]) = S (length ts)).
  { intros ts t. rewrite length_app. cbn. lia. }
  assert (Hsaved : saved (loss_add (loss_add (loss_add (loss_add l1 l2) l3) l4) l5)
                   = [(Left, length (store w)); (Right, S (length (store w)));
                      (Top, S (S (length (store w)))); (Bottom, S (S (S (length (store w)))));
                      (Interior, S (S (S (S (length (store w))))))]).
  { cbn [loss_add saved]. rewrite L1, L2, L3, L4, L5, St4, St3, St2, St1, Hst0.
    rewrite !Hlen. reflexivity. }
  assert (Hback : map (fun a : sampler * nat => nth (snd a) (store w5) empty_tensor)
                      (saved (loss_add (loss_add (loss_add (loss_add l1 l2) l3) l4) l5))
                  = [batch_of Left w0; batch_of Right w1; batch_of Top w2;
                     batch_of Bottom w3; batch_of Interior w4]).
  { rewrite Hsaved, Hstore. cbn [map snd].
    rewrite <- (Nat.add_0_r (length (store w))) at 1.
    replace (S (length (store w))) with (length (store w) + 1)%nat by lia.
    replace (S (length (store w) + 1)) with (length (store w) + 2)%nat by lia.
    replace (S (length (store w) + 2)) with (length (store w) + 3)%nat by lia.
    replace (S (length (store w) + 3)) with (length (store w) + 4)%nat by lia.
    rewrite !nth_app_offset. reflexivity. }
  rewrite Hback in Hw. rewrite Hw.
  cbn [store pgrads params optim].
  split; [exact Hsaved|]. split; [exact Hstore|]. split; [reflexivity|].
  now destruct (step _ _ _).
Qed.

Lemma for_range_state (k : nat) (w : world) :
  let w' := snd (for_range k epoch w) in
  exists grs u,
    (params w', optim w') = run_steps step grs (params w, optim w) /\
    gen w' = advance draw (u * per_call w) (gen w) /\
    self w' = self w /\
    match fst (for_range k epoch w) with
    | Ok _ => length grs = k /\ u = (5 * k)%nat
    | Raise _ => (length grs < k)%nat /\ (5 * length grs <= u <= 5 * length grs + 5)%nat
    end.
Proof.
  cbv zeta. revert w. induction k as [|k IH]; intros w.
  - exists [], 0%nat. cbn. auto.
  - cbn [for_range]. unfold bind.
    pose proof (epoch_state w) as He. cbv zeta in He.
    destruct (epoch w) as [[u0|e] w1]; cbn [fst snd] in *.
    + destruct He as [(l & b1 & b2 & b3 & b4 & b5 & _ & _ & _ & Hstep & Hgen) Hself].
      destruct (IH w1) as (grs & u & Hrun & Hg & Hs & Hres).
      assert (Hpc : per_call w1 = per_call w).
      { unfold batch_draws, width. now rewrite Hself. }
      exists (pgrads w1 :: grs), (5 + u)%nat.
      split; [|split; [|split]].
      * rewrite Hrun. unfold run_steps. cbn [fold_left fst snd]. now rewrite Hstep.
      * rewrite Hg, Hgen, Hpc, <- advance_add. f_equal. lia.
      * congruence.
      * destruct (fst (for_range k epoch w1)); cbn [length]; lia.
    + destruct He as [(_ & Hp & Ho & u & Hu & Hgen) Hself].
      exists [], u. cbn [run_steps fold_left length].
      split; [now rewrite Hp, Ho|]. split; [exact Hgen|]. split; [exact Hself|]. lia.
Qed.

(** X19. The training loop, on the state.  Parameters and optimizer are
    the result of stepping once per completed iteration, each time on the
    gradients that iteration left; nothing else writes them.  A run that
    returns has stepped 1000 times and consumed exactly 5000 batches of
    draws; a run that raises has stepped fewer than 1000 times and stopped
    within the five batches of the iteration that failed. *)
Theorem training_state (w : world) :
  let w' := snd (training w) in
  exists grs u,
    (params w', optim w') = run_steps step grs (params w, optim w) /\
    gen w' = advance draw (u * batch_draws w) (gen w) /\
    self w' = self w /\
    match fst (training w) with
    | Ok _ => length grs = 1000%nat /\ u = 5000%nat
    | Raise _ =>
        (length grs < 1000)%nat /\ (5 * length grs <= u <= 5 * length grs + 5)%nat
    end.
Proof. exact (for_range_state 1000 w). Qed.

Lemma for_range_iterations (k : nat) (w : world) :
  exists m wm,
    iterations draw zero_grad backward step m w wm /\
    match fst (for_range k epoch w) with
    | Ok _ => m = k /\ snd (for_range k epoch w) = wm
    | Raise e =>
        (m < k)%nat /\ interrupted draw zero_grad wm (snd (for_range k epoch w)) e
    end.
Proof.
  revert w. induction k as [|k IH]; intros w.
  - exists 0%nat, w. cbn. auto.
  - cbn [for_range]. unfold bind.
    pose proof (epoch_run w) as He.
    destruct (epoch w) as [[u|e] w1]; cbn [fst snd] in *.
    + destruct (IH w1) as (m & wm & Hit & Hres).
      exists (S m), wm. split.
      * cbn [iterations]. exists w1. auto.
      * destruct (fst (for_range k epoch w1)).
        -- destruct Hres as [-> Hw]. auto.
        -- destruct Hres as [Hlt Hint]. split; [lia | exact Hint].
    + exists 0%nat, w. split; [reflexivity|]. split; [lia | exact He].
Qed.

(** C6. The training loop is a repetition of the iteration of the loop
    body and of nothing else.  Each iteration ([iteration]) clears the
    accumulated gradients, calls [left_boundary], [right_boundary],
    [top_boundary], [bottom_boundary] and [interior] in this order, passes
    the sum of the five returned losses to [backward], which accumulates its
    gradients onto the cleared ones, and lets the optimizer step once on
    them; what it records in the trace is these eight events in order.  A
    run that returns has made exactly 1000 iterations and is in the state
    the last of them left.  The only way to make fewer is an exception
    raised by one of the five methods, which ends the run inside that
    iteration, before its backward pass and step ([interrupted]); no state
    of the losses or the parameters ends the loop early, and when no method
    of the sampler raises, the run returns.  The calls of the optimizer and
    of [backward] are taken to return. *)
Theorem training_iterations (w : world) :
  (exists m wm,
     iterations draw zero_grad backward step m w wm /\
     match fst (training w) with
     | Ok _ => m = 1000%nat /\ snd (training w) = wm
     | Raise e =>
         (m < 1000)%nat /\ interrupted draw zero_grad wm (snd (training w)) e
     end) /\
  (exists vs tail,
     log (snd (training w)) = log w ++ flat_map epoch_events vs ++ tail /\
     match fst (training w) with
     | Ok _ => length vs = 1000%nat /\ tail = []
     | Raise _ =>
         (length vs < 1000)%nat /\
         exists v n, (1 <= n <= 5)%nat /\ tail = firstn n (epoch_events v)
     end) /\
  ((forall k, succeeds (self w) loss_tensor (method k)) -> fst (training w) = Ok tt).
Proof.
  split; [|split].
  - exact (for_range_iterations 1000 w).
  - exact (for_range_log G draw P Gr Opt zero_grad backward step 1000 w).
  - intros Hk.
    exact (training_returns G draw P Gr Opt zero_grad backward step (self w) w Hk eq_refl).
Qed.

End Driver.

(* ================================================================== *)
(** ** Instances of the further properties                              *)
(* ================================================================== *)

Section MoreInstances.
Import Models Examples.

(** X1, at the script's register of five qubits and two variables: x is
    encoded on qubits 0 and 1, y on qubits 2 and 3, nothing on qubit 4. *)
Lemma feature_maps_blocks_witness :
  exists calls,
    fm = Done calls /\
    map (@fm_param _) calls = VARIABLES /\
    map (@fm_support _) calls = [[0; 1]; [2; 3]]%nat /\
    map (@fm_n_qubits _) calls = [2; 2]%nat /\
    forall q, In q (flat_map (@fm_support _) calls) <-> (q < 4)%nat.
Proof.
  destruct (feature_maps_blocks _ N_QUBITS VARIABLES) as (calls & H1 & H2 & H3 & _ & _ & H6).
  - unfold N_QUBITS, VARIABLES. simpl. lia.
  - exists calls. split; [exact H1|]. split; [exact H3|].
    rewrite H2. split; [reflexivity|]. split; [reflexivity|]. rewrite <- H2. exact H6.
Defined.

Lemma analytic_model_on_grid (n : nat) :
  tvalues (domain n) (forward (per_point u_analytic) tt (as_input (domain n)))
  = map (fun r => exp (- PI * nth 0 r 0) * sin (PI * nth 1 r 0)) (domain n).
Proof.
  unfold forward, per_point, as_input, tvalues. cbn [tshape telems troot].
  assert (Hshape : nth 1 (match domain n with
                          | [] => [0%nat]
                          | _ :: _ => [length (domain n); 2%nat]
                          end) 0%nat = 2%nat \/ domain n = []).
  { destruct (domain n); auto. }
  destruct Hshape as [-> | Hnil].
  - rewrite per_point_rows_constants by (try lia; apply domain_rows).
    rewrite map_map. apply map_ext_in. intros r Hr.
    pose proof (domain_rows n) as Hw. rewrite Forall_forall in Hw. specialize (Hw r Hr).
    destruct r as [|x [|y [|z r]]]; try discriminate.
    cbn. f_equal. f_equal. ring.
  - rewrite Hnil. reflexivity.
Qed.

Lemma swapped_model_on_grid (n : nat) :
  tvalues (domain n) (forward (per_point u_swapped) tt (as_input (domain n)))
  = map (fun r => exp (- PI * nth 1 r 0) * sin (PI * nth 0 r 0)) (domain n).
Proof.
  unfold forward, per_point, as_input, tvalues. cbn [tshape telems troot].
  assert (Hshape : nth 1 (match domain n with
                          | [] => [0%nat]
                          | _ :: _ => [length (domain n); 2%nat]
                          end) 0%nat = 2%nat \/ domain n = []).
  { destruct (domain n); auto. }
  destruct Hshape as [-> | Hnil].
  - rewrite per_point_rows_constants by (try lia; apply domain_rows).
    rewrite map_map. apply map_ext_in. intros r Hr.
    pose proof (domain_rows n) as Hw. rewrite Forall_forall in Hw. specialize (Hw r Hr).
    destruct r as [|x [|y [|z r]]]; try discriminate.
    cbn. f_equal. f_equal. ring.
  - rewrite Hnil. reflexivity.
Qed.

(** X6, with three grid points per axis. *)
Lemma reference_image_is_swapped_field_witness :
  exists reference image,
    analytic_sol 3 = Done reference /\
    dqc_sol (per_point u_swapped) tt 3 = Done image /\
    nth 0 (nth 1 image []) 0 = nth 0 (nth 1 reference []) 0.
Proof.
  destruct (reference_image_is_swapped_field unit (per_point u_swapped) tt 3
              ltac:(lia) (swapped_model_on_grid 3))
    as [A [D [H1 [H2 [_ H4]]]]].
  exists A, D. split; [exact H1|]. split; [exact H2|].
  exact (proj2 (H4 1%nat 0%nat ltac:(lia) ltac:(lia))).
Defined.

(** X7, with three grid points per axis. *)
Lemma exact_model_plotted_transposed_witness :
  exists reference image,
    analytic_sol 3 = Done reference /\
    dqc_sol (per_point u_analytic) tt 3 = Done image /\
    nth 0 (nth 1 image []) 0 = 0 /\ 0 < nth 0 (nth 1 reference []) 0.
Proof.
  destruct (exact_model_plotted_transposed unit (per_point u_analytic) tt 3
              ltac:(lia) (analytic_model_on_grid 3))
    as [A [D [H1 [H2 [_ H4]]]]].
  exists A, D. split; [exact H1|]. split; [exact H2|]. apply H4. lia.
Defined.

(** X8, at [top_boundary] with three points of two coordinates and the
    generator [harmonic_draw]: six draws are consumed, and the free
    coordinate of the second row is the third of them. *)
Lemma batch_from_stream_witness :
  gen (snd (method harmonic_draw Top (start 0%nat (constant_net 0) 2 3)))
    = advance harmonic_draw 6 0%nat /\
  entry (rows (batch_of harmonic_draw Top (start 0%nat (constant_net 0) 2 3))) 1 0
    = stream harmonic_draw 0%nat 2.
Proof.
  destruct (batch_from_stream nat harmonic_draw unit unit unit Top
              (start 0%nat (constant_net 0) 2 3) eq_refl) as (H1 & _ & H3).
  split; [exact H1|].
  apply (H3 1%nat 0%nat).
  - simpl. lia.
  - unfold width. simpl. lia.
  - intros v H. discriminate H.
Defined.

(** X9, at [top_boundary] with a single input column. *)
Lemma boundary_failure_modes_witness :
  fst (method scripted_draw Top (start [] (constant_net 0) 1 3)) = Raise IndexError /\
  store (snd (method scripted_draw Top (start [] (constant_net 0) 1 3)))
    = [mkTensor 1 [[0]; [0]; [0]] false].
Proof.
  destruct (boundary_failure_modes (list R) scripted_draw unit unit unit Top 1 1
              (start [] (constant_net 0) 1 3) eq_refl) as (_ & _ & H3 & H4 & _).
  assert (H : fst (method scripted_draw Top (start [] (constant_net 0) 1 3)) = Raise IndexError).
  { apply H3. simpl. lia. }
  split; [exact H|]. exact (proj2 (H4 H)).
Defined.

(** X10, at a model that returns sin(pi x) in a column, on two points. *)
Lemma bottom_boundary_by_output_shape_witness :
  returns (bottom_boundary scripted_draw)
    (start [0; 0; 1 / 2; 0] (per_point_column u_bottom) 2 2)
    (mean (pow2 (flat_map
                   (fun u => map (fun x => u - sin (PI * nth 0 x 0)) [[0; 0]; [1 / 2; 0]])
                   [sin (PI * 0); sin (PI * (1 / 2))]))).
Proof.
  destruct (bottom_boundary_by_output_shape (list R) scripted_draw unit unit unit
              (start [0; 0; 1 / 2; 0] (per_point_column u_bottom) 2 2)) as [_ H].
  - simpl. lia.
  - simpl. lia.
  - exact (H eq_refl).
Defined.

(** X11, at a model with two output features, on three points. *)
Lemma bottom_boundary_size_mismatch_witness :
  fst (bottom_boundary scripted_draw (start [] two_features 2 3))
    = Raise (RuntimeError SizeMismatch).
Proof.
  rewrite (bottom_boundary_size_mismatch (list R) scripted_draw unit unit unit
             (start [] two_features 2 3)).
  - reflexivity.
  - simpl. lia.
  - simpl. lia.
  - unfold last_dim, net_out, two_features. cbn [self start DomainSampling_init net fst last
      n_colpoints]. simpl. lia.
  - unfold last_dim, net_out, two_features. cbn [self start DomainSampling_init net fst last].
    lia.
  - simpl. lia.
Defined.

(** X12, at [top_boundary] with no collocation point. *)
Lemma boundary_empty_batch_nan_witness :
  returns (method scripted_draw Top) (start [] (constant_net 2) 2 0) NaN.
Proof.
  apply (boundary_empty_batch_nan (list R) scripted_draw unit unit unit Top
           (start [] (constant_net 2) 2 0)).
  - apply constant_net_per_point.
  - reflexivity.
  - simpl. lia.
  - discriminate.
Defined.

(** X13, at the reference solution on the single point (0, 0). *)
Lemma interior_residual_has_mixed_terms_witness :
  value_of (fst (interior scripted_draw (start [0; 0] (per_point u_analytic) 2 1)))
  = Ok (mean (pow2 (zip_add
                      (laplace_residual (mkTensor 2 [[0; 0]] true)
                                        [u_analytic [Leaf 0 0; Leaf 0 1]])
                      (mixed_residual (mkTensor 2 [[0; 0]] true)
                                      [u_analytic [Leaf 0 0; Leaf 0 1]])))).
Proof.
  rewrite (interior_residual_has_mixed_terms (list R) scripted_draw unit unit unit
             (start [0; 0] (per_point u_analytic) 2 1)).
  - reflexivity.
  - simpl. lia.
  - reflexivity.
  - exact (analytic_outs_local 1).
Defined.

(** X14, at the output of u(x, y) = x y recorded from the point (3, 5): the
    derivative along x is y = 5. *)
Lemma calc_derivative_sums_outputs_witness :
  exists t w',
    calc_derivative recorded 0 tracked = (Ok t, w') /\
    tshape t = [1; 2]%nat /\
    eval [[3; 5]] (nth 0 (telems t) (Const 0)) = 1 * 5 /\
    derivable_pt_lim
      (fun v => sum (map (fun e => along [[3; 5]] 0 0 e v) (telems recorded)))
      3 (1 * 5).
Proof.
  eexists. eexists. split; [reflexivity|].
  destruct (calc_derivative_sums_outputs (list R) unit unit unit recorded 0 tracked _ _
              ltac:(simpl; lia) eq_refl) as (H1 & _ & _ & H4).
  split; [exact H1|]. split; [reflexivity|].
  apply (H4 0%nat 0%nat); simpl; lia.
Defined.


(** X16, at the model u(x, y) = 2 x + 3 y on one point. *)
Lemma interior_raises_without_curvature_witness :
  fst (interior scripted_draw (start [1 / 2; 1 / 3] (per_point u_linear) 2 1))
    = Raise (RuntimeError UnusedInGraph).
Proof.
  apply (interior_raises_without_curvature (list R) scripted_draw unit unit unit
           (start [1 / 2; 1 / 3] (per_point u_linear) 2 1)).
  - simpl. lia.
  - simpl. lia.
  - repeat constructor.
Defined.

(** X17, on two points. *)
Lemma interior_on_reference_solution_witness :
  returns (interior scripted_draw)
    (start [0; 0; 1 / 2; 1 / 3] (per_point u_analytic) 2 2)
    (mean (pow2 (map (fun r => 2 * PI * PI * exp (- (PI * nth 0 r 0)) * cos (PI * nth 1 r 0))
                     [[0; 0]; [1 / 2; 1 / 3]]))).
Proof.
  destruct (interior_on_reference_solution (list R) scripted_draw unit unit
              (start [0; 0; 1 / 2; 1 / 3] (per_point u_analytic) 2 2)) as [H _].
  - reflexivity.
  - simpl. lia.
  - reflexivity.
  - exact H.
Defined.

End MoreInstances.
